(** * idawasm: the WebAssembly processor module (src/idawasm/processor.py)

    A shallow embedding of the module parser, the control-flow resolver, the
    edge synthesizer and the IDA entry points of [wasm_processor_t], with the
    properties of the specification proved (or refuted) over it.

    Conventions
    - Python [int] is [Z]; a value decoded from a [VarUInt32Field] is [N]
      (the decoder never yields a negative number there).
    - An exception is a value of [exn]; a call that may raise returns
      [Result A].
    - A dict whose iteration order is observable is an insertion-ordered
      association list ([dict]); a dict that is only looked up is a [gmap].
    - The structures produced by the [wasm] package (the decoder, which is not
      part of this repository) are records carrying the decoded fields and the
      encoded byte length of each field. *)

From Stdlib Require Import ZArith List String Lia.
From stdpp Require Import base option list gmap strings pretty.

Local Open Scope Z_scope.

(** ** Exceptions *)

Inductive exn : Type :=
| SectionNotFoundError (section_id : Z)
| IndexError
| KeyError
| AttributeError
| TypeError
| UnicodeDecodeError
| NotImplementedError
| RuntimeError.

Inductive Result (A : Type) : Type :=
| Ok (a : A)
| Raise (e : exn).
Arguments Ok {A} a.
Arguments Raise {A} e.

#[global] Instance Result_ret : MRet Result := fun _ a => Ok a.
#[global] Instance Result_bind : MBind Result := fun _ _ f m =>
  match m with
  | Ok a => f a
  | Raise e => Raise e
  end.

#[global] Instance Result_fmap : FMap Result := fun _ _ f m =>
  match m with
  | Ok a => Ok (f a)
  | Raise e => Raise e
  end.

Definition is_Ok {A} (r : Result A) : bool :=
  match r with Ok _ => true | Raise _ => false end.

(** [l[i]] for a non-negative index: [IndexError] out of range. *)
Definition py_index {A} (l : list A) (i : N) : Result A :=
  match l !! N.to_nat i with
  | Some x => Ok x
  | None => Raise IndexError
  end.

(** ** Python dicts with observable order *)

Section Dict.
Context {K V : Type} `{EqDecision K}.

Definition dict := list (K * V).

Fixpoint dict_get (d : list (K * V)) (k : K) : option V :=
  match d with
  | [] => None
  | (k', v) :: d' => if decide (k' = k) then Some v else dict_get d' k
  end.

(** [d[k] = v]: an existing key keeps its position, a new key goes last. *)
Fixpoint dict_set (d : list (K * V)) (k : K) (v : V) : list (K * V) :=
  match d with
  | [] => [(k, v)]
  | (k', v') :: d' =>
      if decide (k' = k) then (k, v) :: d' else (k', v') :: dict_set d' k v
  end.

Definition dict_values (d : list (K * V)) : list V := map snd d.
Definition dict_keys (d : list (K * V)) : list K := map fst d.

(** [d[k]]: [KeyError] when the key is absent. *)
Definition dict_item (d : list (K * V)) (k : K) : Result V :=
  match dict_get d k with
  | Some v => Ok v
  | None => Raise KeyError
  end.
End Dict.
Arguments dict K V : clear implicits.

(** ** Decoded structures (the output of the [wasm] package) *)

(** Opcode ids and section ids of the WebAssembly binary format, as the
    [wasm] package names them. *)
Definition OP_UNREACHABLE : Z := 0x00.
Definition OP_BLOCK : Z := 0x02.
Definition OP_LOOP : Z := 0x03.
Definition OP_IF : Z := 0x04.
Definition OP_ELSE : Z := 0x05.
Definition OP_END : Z := 0x0b.
Definition OP_BR : Z := 0x0c.
Definition OP_BR_IF : Z := 0x0d.
Definition OP_BR_TABLE : Z := 0x0e.
Definition OP_RETURN : Z := 0x0f.
Definition OP_GET_GLOBAL : Z := 0x23.
Definition OP_SET_GLOBAL : Z := 0x24.
Definition OP_I32_CONST : Z := 0x41.

Definition SEC_TYPE : Z := 1.
Definition SEC_IMPORT : Z := 2.
Definition SEC_FUNCTION : Z := 3.
Definition SEC_GLOBAL : Z := 6.
Definition SEC_EXPORT : Z := 7.
Definition SEC_CODE : Z := 10.
Definition SEC_DATA : Z := 11.

(** The immediate of a decoded instruction ([bc.imm]); [bc.imm is None] is
    [NoImm]. *)
Inductive Imm : Type :=
| NoImm
| BlockImm (sig : Z)
| BranchImm (relative_depth : N)
| BranchTableImm (target_table : list N) (default_target : N)
| CallImm (function_index : N)
| CallIndirectImm (type_index : N) (reserved : N)
| LocalVarXsImm (local_index : N)
| GlobalVarXsImm (global_index : N)
| MemoryImm (flags : N) (mem_offset : N)
| CurGrowMemImm (reserved : N)
| I32ConstImm (value : Z)
| I64ConstImm (value : Z)
| F32ConstImm (value : Z)
| F64ConstImm (value : Z).

(** One item of [wasm.decode_bytecode]: [bc.op.id], [bc.imm], [bc.len]. *)
Record Instruction : Type := mkInstruction {
  op_id : Z;
  imm : Imm;
  len : Z;
}.

(** [bc.imm.relative_depth]: only a [BranchImm] has the attribute. *)
Definition imm_relative_depth (i : Imm) : Result N :=
  match i with
  | BranchImm d => Ok d
  | _ => Raise AttributeError
  end.

(** The targets of a branch table followed by its default target, as the
    [for] of the resolver walks them. *)
Definition imm_table_targets (i : Imm) : Result (list N) :=
  match i with
  | BranchTableImm table default => Ok (table ++ [default])
  | _ => Raise AttributeError
  end.

Record FuncType : Type := mkFuncType {
  form : Z;
  param_count : N;
  param_types : list Z;
  return_count : N;
  return_type : Z;
}.

Inductive external_kind : Type :=
| WASM_EXTERNAL_KIND_FUNCTION
| WASM_EXTERNAL_KIND_TABLE
| WASM_EXTERNAL_KIND_MEMORY
| WASM_EXTERNAL_KIND_GLOBAL.

#[global] Instance external_kind_eq_dec : EqDecision external_kind.
Proof. solve_decision. Defined.

(** [entry.type] of an import entry: what it holds depends on the kind. *)
Inductive ImportType : Type :=
| ImportFunctionType (type : N)
| ImportGlobalType (content_type : Z) (mutability : N)
| ImportOtherType.

(** A name field ([module_str], [field_str]) is kept as the outcome of
    [.tobytes().decode('utf-8')]: [None] when the bytes are not UTF-8. *)
Record ImportEntry : Type := mkImportEntry {
  module_str : option string;
  im_field_str : option string;
  im_kind : external_kind;
  im_type : ImportType;
  im_size : Z;                 (* size_of(entry) *)
}.

Record ExportEntry : Type := mkExportEntry {
  ex_field_str : option string;
  ex_kind : external_kind;
  ex_index : N;
}.

Record GlobalEntry : Type := mkGlobalEntry {
  g_content_type : Z;
  g_init : list Instruction;
  g_len_type : Z;              (* encoded length of the field before `init` *)
  g_len_init : Z;
}.

Record LocalEntry : Type := mkLocalEntry {
  l_count : N;
  l_type : Z;
}.

(** A function body; [code] is kept as the instruction stream that
    [wasm.decode_bytecode(body.code)] yields. *)
Record FunctionBody : Type := mkFunctionBody {
  locals : list LocalEntry;
  code : list Instruction;
  b_len_body_size : Z;
  b_len_local_count : Z;
  b_len_locals : Z;
  b_len_code : Z;
}.

Record DataSegmentEntry : Type := mkDataSegmentEntry {
  d_index : N;
  d_offset : list Instruction;
  d_size : N;
  d_data : list Z;
  d_len_index : Z;
  d_len_offset : Z;
  d_len_size : Z;
  d_len_data : Z;
}.

(** [section.data.payload]; the first argument of each constructor is the
    encoded length of the count field that precedes the entries. *)
Inductive Payload : Type :=
| TypeSection (len_count : Z) (entries : list FuncType)
| ImportSection (len_count : Z) (entries : list ImportEntry)
| FunctionSection (len_count : Z) (types : list N)
| GlobalSection (len_count : Z) (globals : list GlobalEntry)
| ExportSection (len_count : Z) (entries : list ExportEntry)
| CodeSection (len_count : Z) (count : N) (bodies : list FunctionBody)
| DataSection (len_count : Z) (entries : list DataSegmentEntry)
| OtherPayload.

(** [fragment.data]: the module header (magic and version, no [id]) or a
    section. *)
Inductive FragmentData : Type :=
| ModuleHeader (size : Z)
| Section_ (id : Z) (len_before_payload : Z) (len_payload : Z) (payload : Payload).

Record ModuleFragment : Type := mkModuleFragment { data : FragmentData }.

(** [section.data.id] *)
Definition data_id (d : FragmentData) : Result Z :=
  match d with
  | ModuleHeader _ => Raise AttributeError
  | Section_ id _ _ _ => Ok id
  end.

(** [section.data.payload] *)
Definition data_payload (d : FragmentData) : Result Payload :=
  match d with
  | ModuleHeader _ => Raise AttributeError
  | Section_ _ _ _ p => Ok p
  end.

(** ** idawasm.common *)

(** Modelled from the spec: [idawasm.common.size_of] and [offset_of] are not
    among the sources. [size_of(struc)] is the encoded byte size of the whole
    structure, [size_of(struc, field)] that of one field, and
    [offset_of(struc, field)] the byte offset of the field inside the
    structure, that is the sum of the sizes of the fields before it (the
    parser "accumulat[es] a running byte offset" and derives addresses "by
    walking entry headers ... and summing their encoded sizes"). *)
Definition size_of_data (d : FragmentData) : Z :=
  match d with
  | ModuleHeader size => size
  | Section_ _ before payload_len _ => before + payload_len
  end.

Definition offset_of_data_payload (d : FragmentData) : Result Z :=
  match d with
  | ModuleHeader _ => Raise KeyError
  | Section_ _ before _ _ => Ok before
  end.

Definition size_of_body (b : FunctionBody) : Z :=
  b_len_body_size b + b_len_local_count b + b_len_locals b + b_len_code b.
Definition offset_of_body_code (b : FunctionBody) : Z :=
  b_len_body_size b + b_len_local_count b + b_len_locals b.
Definition size_of_body_code (b : FunctionBody) : Z := b_len_code b.

Definition size_of_global (g : GlobalEntry) : Z := g_len_type g + g_len_init g.
Definition offset_of_global_init (g : GlobalEntry) : Z := g_len_type g.

Definition size_of_entry (e : DataSegmentEntry) : Z :=
  d_len_index e + d_len_offset e + d_len_size e + d_len_data e.

(** ** Section lookup *)

(** [_get_section]: the loop over [enumerate(self.sections)], from index [i]. *)
Fixpoint get_section_from (i : nat) (sections : list ModuleFragment)
    (section_id : Z) : Result ModuleFragment :=
  match sections with
  | [] => Raise (SectionNotFoundError section_id)
  | section :: rest =>
      if decide (i = 0%nat) then get_section_from (S i) rest section_id
      else
        id ← data_id (data section);
        if decide (id ≠ section_id) then get_section_from (S i) rest section_id
        else Ok section
  end.

Definition _get_section (sections : list ModuleFragment) (section_id : Z)
    : Result ModuleFragment :=
  get_section_from 0 sections section_id.

(** [_get_section_offset]: the same loop, with the running offset [p]. *)
Fixpoint get_section_offset_from (i : nat) (p : Z)
    (sections : list ModuleFragment) (section_id : Z) : Result Z :=
  match sections with
  | [] => Raise (SectionNotFoundError section_id)
  | section :: rest =>
      if decide (i = 0%nat) then
        get_section_offset_from (S i) (p + size_of_data (data section)) rest section_id
      else
        id ← data_id (data section);
        if decide (id ≠ section_id) then
          get_section_offset_from (S i) (p + size_of_data (data section)) rest section_id
        else Ok p
  end.

Definition _get_section_offset (sections : list ModuleFragment) (section_id : Z)
    : Result Z :=
  get_section_offset_from 0 0 sections section_id.

(** ** Control-flow resolver *)

Inductive block_type : Type := type_block | type_loop | type_if.

#[global] Instance block_type_eq_dec : EqDecision block_type.
Proof. solve_decision. Defined.

(** A block dict as the resolver creates it for [block], [loop] and [if]. *)
Record Block : Type := mkBlock {
  index : nat;
  offset : Z;
  end_offset : option Z;
  else_offset : option Z;
  br_table_target : option N;
  depth : nat;
  type : block_type;
}.

#[global] Instance Block_inhabited : Inhabited Block :=
  populate (mkBlock 0 0 None None None 0 type_block).

(** [block['end_offset'] = v], [block['else_offset'] = v] and
    [block['br_table_target'] = d]. *)
Definition set_end_offset (b : Block) (v : Z) : Block :=
  mkBlock (index b) (offset b) (Some v) (else_offset b) (br_table_target b)
    (depth b) (type b).
Definition set_else_offset (b : Block) (v : Z) : Block :=
  mkBlock (index b) (offset b) (end_offset b) (Some v) (br_table_target b)
    (depth b) (type b).
Definition set_br_table_target (b : Block) (d : N) : Block :=
  mkBlock (index b) (offset b) (end_offset b) (else_offset b) (Some d)
    (depth b) (type b).

(** The dict recorded at the [end] that closes the function: it has the keys
    [type] (always ['function']), [offset], [end_offset] and [depth] only. *)
Record FunctionScope : Type := mkFunctionScope {
  f_offset : Z;
  f_end_offset : Z;
  f_depth : nat;
}.

(** A key of [branch_targets[p]]: the string ['block'] or a relative depth. *)
Inductive target_key : Type :=
| key_block
| key_depth (relative_depth : N).

#[global] Instance target_key_eq_dec : EqDecision target_key.
Proof. solve_decision. Defined.

(** During the pass the values of [branch_targets[p]] are references to the
    block objects held in [blocks]: a later [block['end_offset'] = ...] is seen
    through every reference. A reference is the index of the object in
    [blocks]; the function-scope dict is referenced from one place only. *)
Inductive block_ref : Type :=
| ref_block (block_index : nat)
| ref_function (f : FunctionScope).

(** What a reference denotes once the pass is over. *)
Inductive BlockV : Type :=
| RegularBlock (b : Block)
| FunctionBlock (f : FunctionScope).

(** The local variables of [_compute_function_branch_targets]. [blocks] maps
    the block index to the block; its keys are always [0 .. len(blocks)-1],
    so it is kept as a list. [block_stack] has its left end first. *)
Record resolver_state : Type := mkResolver {
  st_branch_targets : gmap Z (dict target_key block_ref);
  st_blocks : list Block;
  st_block_stack : list nat;
  st_p : Z;
}.

Inductive control : Type := Continue | Break.

(** [blocks[block_index]] *)
Definition blocks_item (blocks : list Block) (block_index : nat) : Result Block :=
  match blocks !! block_index with
  | Some b => Ok b
  | None => Raise KeyError
  end.

(** The dict literal that names the type of a new block, subscripted by
    [bc.op.id]. *)
Definition new_block_type (op : Z) : Result block_type :=
  if decide (op = OP_BLOCK) then Ok type_block
  else if decide (op = OP_LOOP) then Ok type_loop
  else if decide (op = OP_IF) then Ok type_if
  else Raise KeyError.

(** The [for block_index in block_stack] of the [else] case: the first block
    of type ['if'] from the top of the stack, if there is one. *)
Fixpoint else_scan (blocks : list Block) (stack : list nat) : Result (option nat) :=
  match stack with
  | [] => Ok None
  | block_index :: rest =>
      block ← blocks_item blocks block_index;
      if decide (type block = type_if) then Ok (Some block_index)
      else else_scan blocks rest
  end.

(** The [for relative_depth in ...] of the [br_table] case: it grows
    [branch_targets[p]] (here [targets]) and marks the blocks. *)
Fixpoint br_table_loop (stack : list nat) (depths : list N)
    (blocks : list Block) (targets : dict target_key block_ref)
    : Result (list Block * dict target_key block_ref) :=
  match depths with
  | [] => Ok (blocks, targets)
  | relative_depth :: rest =>
      block_index ← py_index stack relative_depth;
      block ← blocks_item blocks block_index;
      let block' := set_br_table_target block relative_depth in
      br_table_loop stack rest (<[block_index := block']> blocks)
        (dict_set targets (key_depth relative_depth) (ref_block block_index))
  end.

(** One iteration of the [for bc in wasm.decode_bytecode(code)] loop.
    The comment that [ida_bytes.set_cmt] attaches at the end of a branch-table
    target is display only and is not kept. *)
Definition step (offset : Z) (st : resolver_state) (bc : Instruction)
    : Result (control * resolver_state) :=
  let p := st_p st in
  if bool_decide (op_id bc ∈ [OP_BLOCK; OP_LOOP; OP_IF]) then
    let block_index := length (st_blocks st) in
    ty ← new_block_type (op_id bc);
    let block := mkBlock block_index p None None None
                   (length (st_block_stack st)) ty in
    Ok (Continue,
        mkResolver (<[p := [(key_block, ref_block block_index)]]> (st_branch_targets st))
          (st_blocks st ++ [block])
          (block_index :: st_block_stack st)
          (p + len bc))
  else if bool_decide (op_id bc ∈ [OP_END]) then
    match st_block_stack st with
    | [] =>
        Ok (Break,
            mkResolver
              (<[p := [(key_block, ref_function (mkFunctionScope offset p 0))]]>
                 (st_branch_targets st))
              (st_blocks st) [] p)
    | block_index :: stack' =>
        block ← blocks_item (st_blocks st) block_index;
        let block' := set_end_offset block (p + len bc) in
        Ok (Continue,
            mkResolver (<[p := [(key_block, ref_block block_index)]]> (st_branch_targets st))
              (<[block_index := block']> (st_blocks st))
              stack'
              (p + len bc))
    end
  else if bool_decide (op_id bc ∈ [OP_BR; OP_BR_IF]) then
    relative_depth ← imm_relative_depth (imm bc);
    block_index ← py_index (st_block_stack st) relative_depth;
    _ ← blocks_item (st_blocks st) block_index;
    Ok (Continue,
        mkResolver
          (<[p := [(key_depth relative_depth, ref_block block_index)]]> (st_branch_targets st))
          (st_blocks st) (st_block_stack st) (p + len bc))
  else if bool_decide (op_id bc ∈ [OP_ELSE]) then
    found ← else_scan (st_blocks st) (st_block_stack st);
    match found with
    | Some block_index =>
        block ← blocks_item (st_blocks st) block_index;
        let block' := set_else_offset block (p + len bc) in
        Ok (Continue,
            mkResolver (<[p := [(key_block, ref_block block_index)]]> (st_branch_targets st))
              (<[block_index := block']> (st_blocks st))
              (st_block_stack st)
              (p + len bc))
    | None =>
        Ok (Continue,
            mkResolver (st_branch_targets st) (st_blocks st) (st_block_stack st)
              (p + len bc))
    end
  else if bool_decide (op_id bc ∈ [OP_BR_TABLE]) then
    depths ← imm_table_targets (imm bc);
    '(blocks', targets) ← br_table_loop (st_block_stack st) depths (st_blocks st) [];
    Ok (Continue,
        mkResolver (<[p := targets]> (st_branch_targets st)) blocks'
          (st_block_stack st) (p + len bc))
  else
    Ok (Continue,
        mkResolver (st_branch_targets st) (st_blocks st) (st_block_stack st)
          (p + len bc)).

(** The loop itself: it ends with the instructions or at a [break]. *)
Fixpoint run (offset : Z) (st : resolver_state) (code : list Instruction)
    : Result resolver_state :=
  match code with
  | [] => Ok st
  | bc :: rest =>
      '(c, st') ← step offset st bc;
      match c with
      | Break => Ok st'
      | Continue => run offset st' rest
      end
  end.

Definition initial_state (offset : Z) : resolver_state :=
  mkResolver ∅ [] [] offset.

(** The block a reference denotes, read after the pass. *)
Definition deref (blocks : list Block) (r : block_ref) : BlockV :=
  match r with
  | ref_block block_index => RegularBlock (blocks !!! block_index)
  | ref_function f => FunctionBlock f
  end.

Definition deref_targets (blocks : list Block) (d : dict target_key block_ref)
    : dict target_key BlockV :=
  map (fun kv => (fst kv, deref blocks (snd kv))) d.

(** The returned [branch_targets], with every reference read through the
    final [blocks]: nothing changes a block after the pass. *)
Definition returned_targets (st : resolver_state) : gmap Z (dict target_key BlockV) :=
  deref_targets (st_blocks st) <$> st_branch_targets st.

Definition _compute_function_branch_targets (offset : Z) (code : list Instruction)
    : Result (gmap Z (dict target_key BlockV)) :=
  st ← run offset (initial_state offset) code;
  Ok (returned_targets st).

(** [code_section.data.payload.bodies] with the offset of [bodies] in the
    payload. *)
Definition payload_bodies (pl : Payload) : Result (Z * N * list FunctionBody) :=
  match pl with
  | CodeSection len_count count bodies => Ok (len_count, count, bodies)
  | _ => Raise AttributeError
  end.

(** The [for body in ...bodies] loop of [_compute_branch_targets];
    [dict.update] lets the new entries win. *)
Fixpoint branch_targets_loop (pbody : Z) (bodies : list FunctionBody)
    (branch_targets : gmap Z (dict target_key BlockV))
    : Result (gmap Z (dict target_key BlockV)) :=
  match bodies with
  | [] => Ok branch_targets
  | body :: rest =>
      let pcode := pbody + offset_of_body_code body in
      m ← _compute_function_branch_targets pcode (code body);
      branch_targets_loop (pbody + size_of_body body) rest (m ∪ branch_targets)
  end.

Definition _compute_branch_targets (sections : list ModuleFragment)
    : Result (gmap Z (dict target_key BlockV)) :=
  code_section ← _get_section sections SEC_CODE;
  pcode_section ← _get_section_offset sections SEC_CODE;
  off ← offset_of_data_payload (data code_section);
  let ppayload := pcode_section + off in
  pl ← data_payload (data code_section);
  '(len_count, _, bodies) ← payload_bodies pl;
  let pbody := ppayload + len_count in
  branch_targets_loop pbody bodies ∅.

(** ** Module parser *)

(** ['%X' % i] *)
Fixpoint hex_digits_upper (u : Hexadecimal.uint) : string :=
  match u with
  | Hexadecimal.Nil => ""
  | Hexadecimal.D0 u => "0" +:+ hex_digits_upper u
  | Hexadecimal.D1 u => "1" +:+ hex_digits_upper u
  | Hexadecimal.D2 u => "2" +:+ hex_digits_upper u
  | Hexadecimal.D3 u => "3" +:+ hex_digits_upper u
  | Hexadecimal.D4 u => "4" +:+ hex_digits_upper u
  | Hexadecimal.D5 u => "5" +:+ hex_digits_upper u
  | Hexadecimal.D6 u => "6" +:+ hex_digits_upper u
  | Hexadecimal.D7 u => "7" +:+ hex_digits_upper u
  | Hexadecimal.D8 u => "8" +:+ hex_digits_upper u
  | Hexadecimal.D9 u => "9" +:+ hex_digits_upper u
  | Hexadecimal.Da u => "A" +:+ hex_digits_upper u
  | Hexadecimal.Db u => "B" +:+ hex_digits_upper u
  | Hexadecimal.Dc u => "C" +:+ hex_digits_upper u
  | Hexadecimal.Dd u => "D" +:+ hex_digits_upper u
  | Hexadecimal.De u => "E" +:+ hex_digits_upper u
  | Hexadecimal.Df u => "F" +:+ hex_digits_upper u
  end.

Definition format_X (i : N) : string := hex_digits_upper (N.to_hex_uint i).

(** ['%d' % i] *)
Definition format_d (i : N) : string := pretty i.

(** [name.tobytes().decode('utf-8')] on a name field. *)
Definition decode_utf8 (name : option string) : Result string :=
  match name with
  | Some s => Ok s
  | None => Raise UnicodeDecodeError
  end.

(** An entry of [self.globals]. *)
Record Global : Type := mkGlobal {
  gl_index : N;
  gl_offset : Z;
  gl_type : string;
  gl_name : string;
}.

(** An entry of [self.functions]: the dict of an imported function has the
    keys [index], [module], [name], [type], [imported], [exported]; the dict
    of a defined one has [index], [name], [offset], [type], [exported],
    [imported], [local_types] and [size]. *)
Inductive Function : Type :=
| ImportedFunction (index : N) (module name : string) (type : FuncType)
    (imported exported : bool)
| DefinedFunction (index : N) (name : string) (offset : Z) (type : FuncType)
    (exported imported : bool) (local_types : list Z) (size : Z).

Definition fn_index (f : Function) : N :=
  match f with
  | ImportedFunction i _ _ _ _ _ => i
  | DefinedFunction i _ _ _ _ _ _ _ => i
  end.
Definition fn_name (f : Function) : string :=
  match f with
  | ImportedFunction _ _ n _ _ _ => n
  | DefinedFunction _ n _ _ _ _ _ _ => n
  end.
Definition fn_imported (f : Function) : bool :=
  match f with
  | ImportedFunction _ _ _ _ i _ => i
  | DefinedFunction _ _ _ _ _ i _ _ => i
  end.
Definition fn_exported (f : Function) : bool :=
  match f with
  | ImportedFunction _ _ _ _ _ e => e
  | DefinedFunction _ _ _ _ e _ _ _ => e
  end.
(** ['offset' in f], then [f['offset']] and [f['size']] *)
Definition fn_offset (f : Function) : option Z :=
  match f with
  | ImportedFunction _ _ _ _ _ _ => None
  | DefinedFunction _ _ o _ _ _ _ _ => Some o
  end.
Definition fn_size (f : Function) : option Z :=
  match f with
  | ImportedFunction _ _ _ _ _ _ => None
  | DefinedFunction _ _ _ _ _ _ _ s => Some s
  end.

(** An entry of the dict that [_parse_exported_functions] returns. *)
Record ExportedFunction : Type := mkExportedFunction {
  ef_index : N;
  ef_name : string;
  ef_exported : bool;
  ef_imported : bool;
}.

(** An entry of [self.data]. *)
Record Data : Type := mkData {
  dt_index : N;
  dt_offset : Z;
  dt_ea : Z;
  dt_size : N;
  dt_data : list Z;
}.

(** The attribute reads [payload.entries], [payload.types], [payload.globals]
    on the payload of the section that was looked up. *)
Definition type_entries (pl : Payload) : Result (list FuncType) :=
  match pl with TypeSection _ entries => Ok entries | _ => Raise AttributeError end.
Definition import_entries (pl : Payload) : Result (Z * list ImportEntry) :=
  match pl with ImportSection lc entries => Ok (lc, entries) | _ => Raise AttributeError end.
Definition function_types (pl : Payload) : Result (list N) :=
  match pl with FunctionSection _ types => Ok types | _ => Raise AttributeError end.
Definition global_entries (pl : Payload) : Result (Z * list GlobalEntry) :=
  match pl with GlobalSection lc globals => Ok (lc, globals) | _ => Raise AttributeError end.
Definition export_entries (pl : Payload) : Result (list ExportEntry) :=
  match pl with ExportSection _ entries => Ok entries | _ => Raise AttributeError end.
Definition data_entries (pl : Payload) : Result (Z * list DataSegmentEntry) :=
  match pl with DataSection lc entries => Ok (lc, entries) | _ => Raise AttributeError end.

(** [section.data.payload] of a looked-up section. *)
Definition section_payload (section : ModuleFragment) : Result Payload :=
  data_payload (data section).

(** [struc_to_dict] turns a decoded structure into a dict with the same
    fields; the records here already are that. *)
Definition _parse_types (sections : list ModuleFragment) : Result (list FuncType) :=
  type_section ← _get_section sections SEC_TYPE;
  pl ← section_payload type_section;
  type_entries pl.

Section Globals.
(** [idawasm.const.WASM_TYPE_NAMES], the table from a value-type code to
    its name; the module is not among the sources, so the table is a
    parameter. *)
Variable WASM_TYPE_NAMES : gmap Z string.

Definition type_name (content_type : Z) : Result string :=
  match WASM_TYPE_NAMES !! content_type with
  | Some s => Ok s
  | None => Raise KeyError
  end.

(** [body.type.content_type] *)
Definition import_content_type (t : ImportType) : Result Z :=
  match t with
  | ImportGlobalType content_type _ => Ok content_type
  | _ => Raise AttributeError
  end.

(** The loop of [_parse_imported_globals]. *)
Fixpoint imported_globals_loop (entries : list ImportEntry) (pcur : Z) (i : N)
    (globals_ : dict N Global) : Result (dict N Global) :=
  match entries with
  | [] => Ok globals_
  | body :: rest =>
      if decide (im_kind body = WASM_EXTERNAL_KIND_GLOBAL) then
        content_type ← import_content_type (im_type body);
        ctype ← type_name content_type;
        module ← decode_utf8 (module_str body);
        field ← decode_utf8 (im_field_str body);
        imported_globals_loop rest (pcur + im_size body) (i + 1)%N
          (dict_set globals_ i (mkGlobal i pcur ctype (module +:+ "." +:+ field)))
      else
        imported_globals_loop rest (pcur + im_size body) i globals_
  end.

Definition _parse_imported_globals (sections : list ModuleFragment)
    : Result (dict N Global) :=
  import_section ← _get_section sections SEC_IMPORT;
  pimport_section ← _get_section_offset sections SEC_IMPORT;
  off ← offset_of_data_payload (data import_section);
  let ppayload := pimport_section + off in
  pl ← section_payload import_section;
  '(len_count, entries) ← import_entries pl;
  let pentries := ppayload + len_count in
  imported_globals_loop entries pentries 0%N [].

(** The name of a defined global: ['global_%X' % i], or the name of the
    global that its initializer reads, with a leading underscore. *)
Definition global_name (globals_ : dict N Global) (i : N) (init : list Instruction)
    : Result string :=
  let name := "global_" +:+ format_X i in
  match init with
  | [] => Ok name
  | bc :: _ =>
      if decide (op_id bc = OP_GET_GLOBAL) then
        match imm bc with
        | GlobalVarXsImm global_index =>
            match dict_get globals_ global_index with
            | Some g => Ok ("_" +:+ gl_name g)
            | None => Ok name
            end
        | _ => Raise AttributeError
        end
      else Ok name
  end.

(** The loop of [_parse_globals]. *)
Fixpoint globals_loop (globals : list GlobalEntry) (pcur : Z) (i : N)
    (globals_ : dict N Global) : Result (dict N Global) :=
  match globals with
  | [] => Ok globals_
  | body :: rest =>
      let pinit := pcur + offset_of_global_init body in
      ctype ← type_name (g_content_type body);
      name ← global_name globals_ i (g_init body);
      globals_loop rest (pcur + size_of_global body) (i + 1)%N
        (dict_set globals_ i (mkGlobal i pinit ctype name))
  end.

(** [_parse_globals]; the names that [ida_name.set_name] gives to the
    addresses afterwards live in the IDA database and are not kept. *)
Definition _parse_globals (sections : list ModuleFragment) : Result (dict N Global) :=
  imported ← _parse_imported_globals sections;
  let globals_ := imported in
  global_section ← _get_section sections SEC_GLOBAL;
  pglobal_section ← _get_section_offset sections SEC_GLOBAL;
  off ← offset_of_data_payload (data global_section);
  let ppayload := pglobal_section + off in
  pl ← section_payload global_section;
  '(len_count, globals) ← global_entries pl;
  let pglobals := ppayload + len_count in
  globals_loop globals pglobals (N.of_nat (length globals_)) globals_.
End Globals.

(** [entry.type.type] of a function import. *)
Definition import_type_index (t : ImportType) : Result N :=
  match t with
  | ImportFunctionType type_index => Ok type_index
  | _ => Raise AttributeError
  end.

(** The loop of [_parse_imported_functions]. *)
Fixpoint imported_functions_loop (types : list FuncType) (entries : list ImportEntry)
    (function_index : N) (functions : dict N Function) : Result (dict N Function) :=
  match entries with
  | [] => Ok functions
  | entry :: rest =>
      if decide (im_kind entry ≠ WASM_EXTERNAL_KIND_FUNCTION) then
        imported_functions_loop types rest function_index functions
      else
        type_index ← import_type_index (im_type entry);
        ftype ← py_index types type_index;
        module ← decode_utf8 (module_str entry);
        name ← decode_utf8 (im_field_str entry);
        imported_functions_loop types rest (function_index + 1)%N
          (dict_set functions function_index
             (ImportedFunction function_index module name ftype true false))
  end.

Definition _parse_imported_functions (sections : list ModuleFragment)
    : Result (dict N Function) :=
  import_section ← _get_section sections SEC_IMPORT;
  type_section ← _get_section sections SEC_TYPE;
  ipl ← section_payload import_section;
  '(_, entries) ← import_entries ipl;
  tpl ← section_payload type_section;
  types ← type_entries tpl;
  imported_functions_loop types entries 0%N [].

(** The loop of [_parse_exported_functions]. *)
Fixpoint exported_functions_loop (entries : list ExportEntry)
    (functions : gmap N ExportedFunction) : Result (gmap N ExportedFunction) :=
  match entries with
  | [] => Ok functions
  | entry :: rest =>
      if decide (ex_kind entry ≠ WASM_EXTERNAL_KIND_FUNCTION) then
        exported_functions_loop rest functions
      else
        name ← decode_utf8 (ex_field_str entry);
        exported_functions_loop rest
          (<[ex_index entry := mkExportedFunction (ex_index entry) name true false]> functions)
  end.

Definition _parse_exported_functions (sections : list ModuleFragment)
    : Result (gmap N ExportedFunction) :=
  export_section ← _get_section sections SEC_EXPORT;
  pl ← section_payload export_section;
  entries ← export_entries pl;
  exported_functions_loop entries ∅.

(** [try: ... except SectionNotFoundError: <default>] *)
Definition except_SectionNotFoundError {A} (r : Result A) (default : A) : Result A :=
  match r with
  | Raise (SectionNotFoundError _) => Ok default
  | _ => r
  end.

(** The two nested loops that flatten the local groups of a body. *)
Definition body_local_types (body : FunctionBody) : list Z :=
  concat (map (fun locals_group => replicate (N.to_nat (l_count locals_group))
                                     (l_type locals_group))
              (locals body)).

(** The [for i in range(count)] loop of [_parse_functions]; [range] is the
    part of the range still to run. *)
Fixpoint functions_loop (n_imported : nat) (exported_functions : gmap N ExportedFunction)
    (bodies : list FunctionBody) (function_payload type_payload : Payload)
    (range : list nat) (pbody : Z) (functions : dict N Function)
    : Result (dict N Function) :=
  match range with
  | [] => Ok functions
  | i :: rest =>
      let function_index := N.of_nat (n_imported + i) in
      body ← py_index bodies (N.of_nat i);
      ftypes ← function_types function_payload;
      type_index ← py_index ftypes (N.of_nat i);
      types ← type_entries type_payload;
      ftype ← py_index types type_index;
      let local_types := body_local_types body in
      let '(name, is_exported) :=
        match exported_functions !! function_index with
        | Some ef => (ef_name ef, true)
        | None => ("$func" +:+ format_d function_index, false)
        end in
      functions_loop n_imported exported_functions bodies function_payload
        type_payload rest
        (pbody + size_of_body body)
        (dict_set functions function_index
           (DefinedFunction function_index name (pbody + offset_of_body_code body)
              ftype is_exported false local_types (size_of_body_code body)))
  end.

(** [_parse_functions]. A missing export section leaves [exported_functions]
    an empty list, in which no index is found: the empty map here. *)
Definition _parse_functions (sections : list ModuleFragment) : Result (dict N Function) :=
  imported_functions ← except_SectionNotFoundError (_parse_imported_functions sections) [];
  exported_functions ← except_SectionNotFoundError (_parse_exported_functions sections) ∅;
  let functions := imported_functions in
  function_section ← _get_section sections SEC_FUNCTION;
  code_section ← _get_section sections SEC_CODE;
  pcode_section ← _get_section_offset sections SEC_CODE;
  type_section ← _get_section sections SEC_TYPE;
  payload ← section_payload code_section;
  off ← offset_of_data_payload (data code_section);
  let ppayload := pcode_section + off in
  '(len_count, count, bodies) ← payload_bodies payload;
  let pbody := ppayload + len_count in
  function_payload ← section_payload function_section;
  type_payload ← section_payload type_section;
  functions_loop (length imported_functions) exported_functions bodies
    function_payload type_payload (seq 0 (N.to_nat count)) pbody functions.

(** The memory offset of a data segment: the value of a leading
    [i32.const] of its offset expression, else 0. *)
Definition data_offset (init : list Instruction) : Result Z :=
  match init with
  | [] => Ok 0
  | bc :: _ =>
      if decide (op_id bc = OP_I32_CONST) then
        match imm bc with
        | I32ConstImm value => Ok value
        | I64ConstImm value => Ok value
        | F32ConstImm value => Ok value
        | F64ConstImm value => Ok value
        | _ => Raise AttributeError
        end
      else Ok 0
  end.

(** The loop of [_parse_data]. *)
Fixpoint data_loop (entries : list DataSegmentEntry) (pcur : Z) (i : N)
    (data : dict N Data) : Result (dict N Data) :=
  match entries with
  | [] => Ok data
  | entry :: rest =>
      let ea := pcur + d_len_index entry + d_len_offset entry + d_len_size entry in
      offset ← data_offset (d_offset entry);
      data_loop rest (pcur + size_of_entry entry) (i + 1)%N
        (dict_set data i (mkData i offset ea (d_size entry) (d_data entry)))
  end.

Definition _parse_data (sections : list ModuleFragment) : Result (dict N Data) :=
  data_section ← _get_section sections SEC_DATA;
  pdata_section ← _get_section_offset sections SEC_DATA;
  off ← offset_of_data_payload (data data_section);
  let ppayload := pdata_section + off in
  pl ← section_payload data_section;
  '(len_count, entries) ← data_entries pl;
  let pentries := ppayload + len_count in
  data_loop entries pentries 0%N [].

(** ** The processor object and the IDA database *)

(** A computation that changes a state and may raise: what was changed
    before the exception stays changed. *)
Definition SE (S A : Type) : Type := S → S * Result A.

#[global] Instance SE_ret {S} : MRet (SE S) := fun _ a s => (s, Ok a).
#[global] Instance SE_bind {S} : MBind (SE S) := fun _ _ f m s =>
  match m s with
  | (s', Ok a) => f a s'
  | (s', Raise e) => (s', Raise e)
  end.

#[global] Instance SE_fmap {S} : FMap (SE S) := fun _ _ f m s =>
  match m s with
  | (s', Ok a) => (s', Ok (f a))
  | (s', Raise e) => (s', Raise e)
  end.

Definition get {S} : SE S S := fun s => (s, Ok s).
Definition modify {S} (f : S → S) : SE S unit := fun s => (f s, Ok tt).
Definition raise {S A} (e : exn) : SE S A := fun s => (s, Raise e).
Definition lift {S A} (r : Result A) : SE S A := fun s => (s, r).

(** Flow types of a code cross-reference and kinds of a data one. *)
Inductive cref_type : Type := fl_F | fl_JF.
Inductive dref_type : Type := dr_R | dr_W.

#[global] Instance cref_type_eq_dec : EqDecision cref_type.
Proof. solve_decision. Defined.

(** The argument tuple of a deferred [ida_xref.add_cref]; the target is a
    block's [end_offset], which is [None] until the block is closed. *)
Abbreviation flow := (Z * option Z * cref_type)%type.

(** The fields of [wasm_processor_t] that [load] and the emulator use. *)
Record wasm_processor_t : Type := mkProcessor {
  self_sections : list ModuleFragment;
  self_types : list FuncType;
  self_globals : dict N Global;
  self_functions : dict N Function;
  self_function_offsets : dict Z Function;
  self_function_ranges : dict (Z * Z) Function;
  self_data : dict N Data;
  self_branch_targets : gmap Z (dict target_key BlockV);
  self_deferred_noflows : gmap Z bool;
  self_deferred_flows : gmap Z (list flow);
}.

(** [__init__] *)
Definition init_processor : wasm_processor_t :=
  mkProcessor [] [] [] [] [] [] [] ∅ ∅ ∅.

Definition set_sections v (s : wasm_processor_t) :=
  mkProcessor v (self_types s) (self_globals s) (self_functions s)
    (self_function_offsets s) (self_function_ranges s) (self_data s)
    (self_branch_targets s) (self_deferred_noflows s) (self_deferred_flows s).
Definition set_types v (s : wasm_processor_t) :=
  mkProcessor (self_sections s) v (self_globals s) (self_functions s)
    (self_function_offsets s) (self_function_ranges s) (self_data s)
    (self_branch_targets s) (self_deferred_noflows s) (self_deferred_flows s).
Definition set_globals v (s : wasm_processor_t) :=
  mkProcessor (self_sections s) (self_types s) v (self_functions s)
    (self_function_offsets s) (self_function_ranges s) (self_data s)
    (self_branch_targets s) (self_deferred_noflows s) (self_deferred_flows s).
Definition set_functions v (s : wasm_processor_t) :=
  mkProcessor (self_sections s) (self_types s) (self_globals s) v
    (self_function_offsets s) (self_function_ranges s) (self_data s)
    (self_branch_targets s) (self_deferred_noflows s) (self_deferred_flows s).
Definition set_function_offsets v (s : wasm_processor_t) :=
  mkProcessor (self_sections s) (self_types s) (self_globals s) (self_functions s)
    v (self_function_ranges s) (self_data s)
    (self_branch_targets s) (self_deferred_noflows s) (self_deferred_flows s).
Definition set_function_ranges v (s : wasm_processor_t) :=
  mkProcessor (self_sections s) (self_types s) (self_globals s) (self_functions s)
    (self_function_offsets s) v (self_data s)
    (self_branch_targets s) (self_deferred_noflows s) (self_deferred_flows s).
Definition set_data v (s : wasm_processor_t) :=
  mkProcessor (self_sections s) (self_types s) (self_globals s) (self_functions s)
    (self_function_offsets s) (self_function_ranges s) v
    (self_branch_targets s) (self_deferred_noflows s) (self_deferred_flows s).
Definition set_branch_targets v (s : wasm_processor_t) :=
  mkProcessor (self_sections s) (self_types s) (self_globals s) (self_functions s)
    (self_function_offsets s) (self_function_ranges s) (self_data s)
    v (self_deferred_noflows s) (self_deferred_flows s).
Definition set_deferred_noflows v (s : wasm_processor_t) :=
  mkProcessor (self_sections s) (self_types s) (self_globals s) (self_functions s)
    (self_function_offsets s) (self_function_ranges s) (self_data s)
    (self_branch_targets s) v (self_deferred_flows s).
Definition set_deferred_flows v (s : wasm_processor_t) :=
  mkProcessor (self_sections s) (self_types s) (self_globals s) (self_functions s)
    (self_function_offsets s) (self_function_ranges s) (self_data s)
    (self_branch_targets s) (self_deferred_noflows s) v.

(** [try: self.x = parse() except SectionNotFoundError as e: logger.info(...)]:
    the field is assigned only when the parse returns; any other exception
    leaves [load]. *)
Definition try_assign {A} (parse : Result A) (assign : A → wasm_processor_t → wasm_processor_t)
    : SE wasm_processor_t unit :=
  match parse with
  | Ok v => modify (assign v)
  | Raise (SectionNotFoundError _) => mret tt
  | Raise e => raise e
  end.

(** [{f['offset']: f for f in self.functions.values() if 'offset' in f}] *)
Fixpoint function_offsets_of (fs : list Function) (acc : dict Z Function)
    : dict Z Function :=
  match fs with
  | [] => acc
  | f :: rest =>
      match fn_offset f with
      | Some o => function_offsets_of rest (dict_set acc o f)
      | None => function_offsets_of rest acc
      end
  end.

(** [{(f['offset'], f['offset'] + f['size']): f for f in ... if 'offset' in f}] *)
Fixpoint function_ranges_of (fs : list Function) (acc : dict (Z * Z) Function)
    : dict (Z * Z) Function :=
  match fs with
  | [] => acc
  | f :: rest =>
      match fn_offset f, fn_size f with
      | Some o, Some sz => function_ranges_of rest (dict_set acc (o, o + sz) f)
      | _, _ => function_ranges_of rest acc
      end
  end.

Section Load.
Variable WASM_TYPE_NAMES : gmap Z string.

(** [load], from the point where [self.sections] is the decoded module
    [decoded]. The names, instructions, functions and entry points that
    the final loop creates live in the IDA database and are not kept. *)
Definition load (decoded : list ModuleFragment) : SE wasm_processor_t unit :=
  _ ← modify (set_sections decoded);
  _ ← try_assign (_parse_types decoded) set_types;
  _ ← try_assign (_parse_globals WASM_TYPE_NAMES decoded) set_globals;
  _ ← try_assign (_parse_functions decoded) set_functions;
  self ← get;
  _ ← modify (set_function_offsets
               (function_offsets_of (dict_values (self_functions self)) []));
  _ ← modify (set_function_ranges
               (function_ranges_of (dict_values (self_functions self)) []));
  _ ← try_assign (_parse_data decoded) set_data;
  branch_targets ← lift (_compute_branch_targets decoded);
  _ ← modify (set_branch_targets branch_targets);
  _ ← modify (set_deferred_noflows ∅);
  modify (set_deferred_flows ∅).
End Load.

(** ** Instructions as IDA sees them *)

(** Operand types and data types of the IDA SDK ([ida_ua]). *)
Definition o_void : Z := 0.
Definition o_reg : Z := 1.
Definition o_imm : Z := 5.
Definition o_idpspec0 : Z := 8.
Definition o_idpspec1 : Z := 9.
Definition o_idpspec2 : Z := 10.
Definition o_idpspec3 : Z := 11.
Definition o_idpspec4 : Z := 12.
Definition o_idpspec5 : Z := 13.
Definition dt_byte : Z := 0.
Definition dt_dword : Z := 2.
Definition dt_float : Z := 3.
Definition dt_double : Z := 4.
Definition dt_qword : Z := 7.

(** These are wasm-specific operand types. *)
Definition WASM_LOCAL : Z := o_idpspec0.
Definition WASM_GLOBAL : Z := o_idpspec1.
Definition WASM_FUNC_INDEX : Z := o_idpspec2.
Definition WASM_TYPE_INDEX : Z := o_idpspec3.
Definition WASM_BLOCK : Z := o_idpspec4.
Definition WASM_ALIGN : Z := o_idpspec5.
Definition WASM_BRANCH_TABLE : Z := o_idpspec5 + 1.
Definition WASM_BRANCH_TABLE_DEFAULT : Z := o_idpspec5 + 2.

(** [wasm.INSN_NO_FLOW], the feature flag of [unreachable] and [return]. *)
Definition INSN_NO_FLOW : Z := 8.

(** The instruction ids that [init_instructions] binds to [self.itype_*]:
    one id for each mnemonic of the opcode table. *)
Inductive itype_t : Type :=
| itype_UNREACHABLE | itype_BLOCK | itype_LOOP | itype_IF | itype_ELSE
| itype_END | itype_BR | itype_BR_IF | itype_BR_TABLE | itype_RETURN
| itype_GET_GLOBAL | itype_SET_GLOBAL
| itype_other (id : nat).

#[global] Instance itype_eq_dec : EqDecision itype_t.
Proof. solve_decision. Defined.

Record op_t : Type := mkOp {
  op_type : Z;
  op_dtype : Z;
  op_value : Z;
  op_reg : Z;
  op_specval : Z;
  op_addr : Z;
  op_flags : Z;
}.

Definition void_op : op_t := mkOp o_void 0 0 0 0 0 0.

(** [insn_t]: [feature] is what [insn.get_canon_feature()] returns, the
    flags of the instruction's row in [self.instruc]. *)
Record insn_t : Type := mkInsn {
  ea : Z;
  itype : itype_t;
  size : Z;
  Op1 : op_t;
  Op2 : op_t;
  Op3 : op_t;
  feature : Z;
}.

(** [insn.ops]; the operands after the third are never set and stay void. *)
Definition ops (insn : insn_t) : list op_t := [Op1 insn; Op2 insn; Op3 insn].

(** ** Edge synthesizer *)

(** The processor, with the cross-references that it has added to the IDA
    database, oldest first. *)
Record world : Type := mkWorld {
  self : wasm_processor_t;
  crefs : list (Z * Z * cref_type);
  drefs : list (Z * Z * dref_type);
}.

Definition on_self (f : wasm_processor_t → wasm_processor_t) (w : world) : world :=
  mkWorld (f (self w)) (crefs w) (drefs w).

(** [ida_xref.add_cref(frm, to, type)]; a target that is [None] is refused
    by the binding. *)
Definition add_cref (frm : Z) (to : option Z) (t : cref_type) : SE world unit :=
  match to with
  | Some to => modify (fun w => mkWorld (self w) (crefs w ++ [(frm, to, t)]) (drefs w))
  | None => raise TypeError
  end.

Definition add_dref (frm to : Z) (t : dref_type) : SE world unit :=
  modify (fun w => mkWorld (self w) (crefs w) (drefs w ++ [(frm, to, t)])).

(** [for x in xs: body(x)] *)
Fixpoint for_each {S A} (xs : list A) (body : A → SE S unit) : SE S unit :=
  match xs with
  | [] => mret tt
  | x :: rest => _ ← body x; for_each rest body
  end.

(** The keys of a block dict that the emulator reads. *)
Inductive type_name_t : Type := name_block | name_loop | name_if | name_function.

Definition block_type_name (b : BlockV) : type_name_t :=
  match b with
  | RegularBlock b =>
      match type b with
      | type_block => name_block
      | type_loop => name_loop
      | type_if => name_if
      end
  | FunctionBlock _ => name_function
  end.

Definition block_end_offset (b : BlockV) : option Z :=
  match b with
  | RegularBlock b => end_offset b
  | FunctionBlock f => Some (f_end_offset f)
  end.

Definition block_offset (b : BlockV) : Z :=
  match b with
  | RegularBlock b => offset b
  | FunctionBlock f => f_offset f
  end.

Definition block_else_offset (b : BlockV) : Result (option Z) :=
  match b with
  | RegularBlock b => Ok (else_offset b)
  | FunctionBlock _ => Raise KeyError
  end.

(** [targets[insn.Op1.value]]: the keys that are numbers are relative depths,
    so a negative value is the key of no entry. *)
Definition targets_item (targets : dict target_key BlockV) (value : Z) : Result BlockV :=
  if decide (value < 0) then Raise KeyError
  else dict_item targets (key_depth (Z.to_N value)).

(** [self.deferred_noflows[next.ea] = True] *)
Definition defer_noflow (next_ea : Z) : SE world unit :=
  modify (on_self (fun s =>
    set_deferred_noflows (<[next_ea := true]> (self_deferred_noflows s)) s)).

(** The "branch target" part shared by [notify_emu_BR_END] and
    [notify_emu_BR_IF_END]: the jump is queued on the following [end]. *)
Definition defer_branch_flow (insn next : insn_t) : SE world unit :=
  w ← get;
  match self_branch_targets (self w) !! ea insn with
  | Some targets =>
      target_block ← lift (targets_item targets (op_value (Op1 insn)));
      let target_va := block_end_offset target_block in
      modify (on_self (fun s =>
        set_deferred_flows
          (<[ea next := [(ea next, target_va, fl_JF)]]> (self_deferred_flows s)) s))
  | None => mret tt
  end.

Definition notify_emu_BR_END (insn next : insn_t) : SE world Z :=
  _ ← add_cref (ea insn) (Some (ea insn + size insn)) fl_F;
  _ ← defer_noflow (ea next);
  _ ← defer_branch_flow insn next;
  mret 1.

Definition notify_emu_BR_IF_END (insn next : insn_t) : SE world Z :=
  _ ← add_cref (ea insn) (Some (ea insn + size insn)) fl_F;
  _ ← defer_branch_flow insn next;
  mret 1.

Definition notify_emu_BR_TABLE_END (insn next : insn_t) : SE world Z :=
  w ← get;
  _ ← match self_branch_targets (self w) !! ea insn with
      | Some targets =>
          for_each (dict_values targets) (fun target_block =>
            add_cref (ea insn) (block_end_offset target_block) fl_JF)
      | None => mret tt
      end;
  mret 1.

Definition notify_emu_RETURN_END (insn next : insn_t) : SE world Z :=
  _ ← add_cref (ea insn) (Some (ea insn + size insn)) fl_F;
  _ ← defer_noflow (ea next);
  mret 1.

Definition notify_emu_UNREACHABLE_END (insn next : insn_t) : SE world Z :=
  _ ← defer_noflow (ea next);
  mret 0.

(** The "branch target" part of [notify_emu_BR] and [notify_emu_BR_IF]. *)
Definition branch_flow (insn : insn_t) : SE world unit :=
  w ← get;
  match self_branch_targets (self w) !! ea insn with
  | Some targets =>
      target_block ← lift (targets_item targets (op_value (Op1 insn)));
      add_cref (ea insn) (block_end_offset target_block) fl_JF
  | None => mret tt
  end.

Definition notify_emu_BR (insn : insn_t) : SE world Z :=
  _ ← branch_flow insn;
  mret 1.

Definition notify_emu_BR_IF (insn : insn_t) : SE world Z :=
  _ ← add_cref (ea insn) (Some (ea insn + size insn)) fl_F;
  _ ← branch_flow insn;
  mret 1.

Definition notify_emu_IF (insn : insn_t) : SE world Z :=
  _ ← add_cref (ea insn) (Some (ea insn + size insn)) fl_F;
  w ← get;
  _ ← match self_branch_targets (self w) !! ea insn with
      | Some targets =>
          for_each (dict_values targets) (fun target_block =>
            else_va ← lift (block_else_offset target_block);
            match else_va with
            | Some va =>
                if decide (va = 0)
                then add_cref (ea insn) (block_end_offset target_block) fl_JF
                else add_cref (ea insn) (Some va) fl_JF
            | None => add_cref (ea insn) (block_end_offset target_block) fl_JF
            end)
      | None => mret tt
      end;
  mret 1.

Definition notify_emu_ELSE (insn : insn_t) : SE world Z :=
  w ← get;
  _ ← match self_branch_targets (self w) !! ea insn with
      | Some targets =>
          for_each (dict_values targets) (fun target_block =>
            add_cref (ea insn) (block_end_offset target_block) fl_JF)
      | None => mret tt
      end;
  mret 1.

Definition notify_emu_END (insn : insn_t) : SE world Z :=
  w ← get;
  _ ← for_each (default [] (self_deferred_flows (self w) !! ea insn))
        (fun '(frm, to, t) => add_cref frm to t);
  _ ← match self_branch_targets (self w) !! ea insn with
      | Some targets =>
          block ← lift (dict_item targets key_block);
          match block_type_name block with
          | name_loop => add_cref (ea insn) (Some (block_offset block)) fl_JF
          | name_if | name_block =>
              w' ← get;
              match self_deferred_noflows (self w') !! ea insn with
              | None => add_cref (ea insn) (Some (ea insn + size insn)) fl_F
              | Some _ => mret tt
              end
          | name_function => mret tt
          end
      | None => mret tt
      end;
  mret 1.

(** A value that an entry point hands back to IDA. *)
Inductive value : Type :=
| VNone
| VInt (z : Z)
| VBool (b : bool)
| VStr (s : string).

(** The "add drefs to globals" loop of [ev_emu_insn]. *)
Definition global_drefs (insn : insn_t) : SE world unit :=
  for_each (ops insn) (fun op =>
    if negb (bool_decide (op_type op = o_imm ∧ op_specval op = WASM_GLOBAL)) then mret tt
    else
      w ← get;
      match (if decide (op_value op < 0) then None
             else dict_get (self_globals (self w)) (Z.to_N (op_value op))) with
      | None => mret tt
      | Some g =>
          let global_va := gl_offset g in
          if decide (itype insn = itype_SET_GLOBAL) then add_dref (ea insn) global_va dr_W
          else if decide (itype insn = itype_GET_GLOBAL) then add_dref (ea insn) global_va dr_R
          else raise RuntimeError
      end).

(** The "add drefs to data" loop of [ev_emu_insn]. *)
Definition data_drefs (insn : insn_t) : SE world unit :=
  for_each (ops insn) (fun op =>
    if bool_decide (op_type op = o_imm ∧ op_dtype op = dt_dword) then
      let va := op_value op in
      w ← get;
      for_each (dict_values (self_data (self w))) (fun data =>
        if bool_decide (dt_offset data ≤ va ∧ va ≤ dt_offset data + Z.of_N (dt_size data))
        then add_dref (ea insn) (va - dt_offset data + dt_ea data) dr_R
        else mret tt)
    else mret tt).

(** [next is not None and next.itype == t] *)
Definition next_is (next : option insn_t) (t : itype_t) : bool :=
  match next with
  | Some n => bool_decide (itype n = t)
  | None => false
  end.

Section Emulator.
(** [ida_ua.decode_insn] at an address: the instruction there, if IDA can
    decode one. *)
Variable decode_insn : Z → option insn_t.

(** The [if]/[elif] chain of [ev_emu_insn], which adds the code
    cross-references. *)
Definition emu_flows (insn : insn_t) : SE world value :=
  let next := decode_insn (ea insn + size insn) in
  if bool_decide (itype insn ∈ [itype_BR; itype_BR_IF; itype_BR_TABLE])
     && next_is next itype_END then
    match next with
    | Some next =>
        if decide (itype insn = itype_BR) then VInt <$> notify_emu_BR_END insn next
        else if decide (itype insn = itype_BR_IF) then VInt <$> notify_emu_BR_IF_END insn next
        else if decide (itype insn = itype_BR_TABLE) then
          VInt <$> notify_emu_BR_TABLE_END insn next
        else mret VNone
    | None => mret VNone
    end
  else if bool_decide (itype insn = itype_RETURN) && next_is next itype_END then
    match next with
    | Some next => VInt <$> notify_emu_RETURN_END insn next
    | None => mret VNone
    end
  else if bool_decide (itype insn = itype_UNREACHABLE) && next_is next itype_END then
    match next with
    | Some next => VInt <$> notify_emu_UNREACHABLE_END insn next
    | None => mret VNone
    end
  else if bool_decide (itype insn = itype_BR) && next_is next itype_UNREACHABLE then
    mret (VInt 1)
  else if bool_decide (Z.land (feature insn) INSN_NO_FLOW ≠ 0) then
    mret (VInt 1)
  else if decide (itype insn = itype_BR) then VInt <$> notify_emu_BR insn
  else if decide (itype insn = itype_BR_TABLE) then raise NotImplementedError
  else if decide (itype insn = itype_BR_IF) then VInt <$> notify_emu_BR_IF insn
  else if decide (itype insn = itype_IF) then VInt <$> notify_emu_IF insn
  else if decide (itype insn = itype_ELSE) then VInt <$> notify_emu_ELSE insn
  else if decide (itype insn = itype_END) then VInt <$> notify_emu_END insn
  else
    _ ← add_cref (ea insn) (Some (ea insn + size insn)) fl_F;
    mret VNone.

(** The body of [ev_emu_insn]: the data cross-references to globals and
    to data segments, then the code cross-references. *)
Definition emu_insn (insn : insn_t) : SE world value :=
  _ ← global_drefs insn;
  _ ← data_drefs insn;
  emu_flows insn.
End Emulator.

(** ** Instruction decoder *)

(** A row of [wasm.opcodes.OPCODE_MAP]; [imm_struct] is the truth value of
    [op.imm_struct]. *)
Record Opcode : Type := mkOpcode {
  mnemonic : string;
  imm_struct : bool;
  flags : Z;
}.

(** A row of [self.insns], as [init_instructions] fills it: the IDA
    instruction id and the feature flags. *)
Record insn_row : Type := mkInsnRow {
  row_id : itype_t;
  row_feature : Z;
}.

Definition OF_NO_BASE_DISP : Z := 0x80.
Definition OF_NUMBER : Z := 0x10.
Definition OF_SHOW : Z := 0x08.
Definition SHOW_FLAGS : Z := Z.lor (Z.lor OF_NO_BASE_DISP OF_NUMBER) OF_SHOW.

(** The operands that [ev_ana_insn] fills in from the immediate of the
    decoded instruction; a field that is not assigned keeps the zero of a
    fresh [insn_t]. *)
Definition operands (insn_ea : Z) (i : Imm) : op_t * op_t * op_t :=
  match i with
  | NoImm => (void_op, void_op, void_op)
  | BlockImm sig =>
      (mkOp WASM_BLOCK dt_dword sig 0 WASM_BLOCK 0 SHOW_FLAGS, void_op, void_op)
  | BranchImm relative_depth =>
      (mkOp o_imm dt_dword (Z.of_N relative_depth) 0 0 0 SHOW_FLAGS, void_op, void_op)
  | BranchTableImm target_table default_target =>
      (mkOp o_imm dt_dword (Z.of_nat (length target_table)) 0 0 0 SHOW_FLAGS,
       mkOp o_imm dt_dword 0 0 WASM_BRANCH_TABLE insn_ea SHOW_FLAGS,
       mkOp o_imm dt_dword (Z.of_N default_target) 0 WASM_BRANCH_TABLE_DEFAULT 0 SHOW_FLAGS)
  | CallImm function_index =>
      (mkOp o_imm dt_dword (Z.of_N function_index) 0 WASM_FUNC_INDEX 0 SHOW_FLAGS,
       void_op, void_op)
  | CallIndirectImm type_index reserved =>
      (mkOp o_imm dt_dword (Z.of_N type_index) 0 WASM_TYPE_INDEX 0 SHOW_FLAGS,
       mkOp o_imm dt_dword (Z.of_N reserved) 0 0 0 SHOW_FLAGS, void_op)
  | LocalVarXsImm local_index =>
      (mkOp o_reg 0 0 (Z.of_N local_index) WASM_LOCAL 0 SHOW_FLAGS, void_op, void_op)
  | GlobalVarXsImm global_index =>
      (mkOp o_imm dt_dword (Z.of_N global_index) 0 WASM_GLOBAL 0 SHOW_FLAGS,
       void_op, void_op)
  | MemoryImm mflags moffset =>
      (mkOp o_imm dt_dword (Z.of_N moffset) 0 0 0 SHOW_FLAGS,
       mkOp o_imm dt_dword (Z.of_N mflags) 0 WASM_ALIGN 0 SHOW_FLAGS, void_op)
  | CurGrowMemImm reserved =>
      (mkOp o_imm dt_dword (Z.of_N reserved) 0 0 0 SHOW_FLAGS, void_op, void_op)
  | I32ConstImm v => (mkOp o_imm dt_dword v 0 0 0 SHOW_FLAGS, void_op, void_op)
  | I64ConstImm v => (mkOp o_imm dt_qword v 0 0 0 SHOW_FLAGS, void_op, void_op)
  | F32ConstImm v => (mkOp o_imm dt_float v 0 0 0 SHOW_FLAGS, void_op, void_op)
  | F64ConstImm v => (mkOp o_imm dt_double v 0 0 0 SHOW_FLAGS, void_op, void_op)
  end.

Section Analyzer.
(** [wasm.opcodes.OPCODE_MAP] and [self.insns], both keyed by the opcode
    byte; the bytes of the IDA database; and the first instruction that
    [wasm.decode_bytecode] yields on a buffer. *)
Variable OPCODE_MAP : gmap Z Opcode.
Variable insns : gmap Z insn_row.
Variable get_byte : Z → Z.
Variable decode_bytecode : list Z → Result Instruction.

(** [ida_bytes.get_bytes(addr, n)] *)
Definition get_bytes (addr n : Z) : list Z := get_byte <$> seqZ addr n.

(** The retry loop of [_decode_bytecode_at] over the buffer sizes
    [0x10 ** i]; every exception of an attempt is swallowed. *)
Fixpoint decode_attempts (addr : Z) (exponents : list Z) : Result Instruction :=
  match exponents with
  | [] => Raise RuntimeError
  | i :: rest =>
      match decode_bytecode (get_bytes addr (0x10 ^ i)) with
      | Ok bc => Ok bc
      | Raise _ => decode_attempts addr rest
      end
  end.

Definition _decode_bytecode_at (addr : Z) : Result Instruction :=
  decode_attempts addr [1; 2; 3; 4].

(** [insn.get_next_byte()]: the byte after those already taken. *)
Definition get_next_byte : SE insn_t Z := fun insn =>
  (mkInsn (ea insn) (itype insn) (size insn + 1) (Op1 insn) (Op2 insn) (Op3 insn)
     (feature insn),
   Ok (get_byte (ea insn + size insn))).

Definition set_itype (row : insn_row) : SE insn_t unit :=
  modify (fun insn => mkInsn (ea insn) (row_id row) (size insn) (Op1 insn) (Op2 insn)
                        (Op3 insn) (row_feature row)).

Definition set_operands (i : Imm) : SE insn_t unit :=
  modify (fun insn =>
    let '(op1, op2, op3) := operands (ea insn) i in
    mkInsn (ea insn) (itype insn) (size insn) op1 op2
      (match i with BranchTableImm _ _ => op3 | _ => Op3 insn end) (feature insn)).

(** The body of [ev_ana_insn], run on the [insn] that IDA hands over (its
    [ea] set, nothing taken yet). *)
Definition ana_insn : SE insn_t value :=
  opb ← get_next_byte;
  match OPCODE_MAP !! opb with
  | None => mret (VInt 0)
  | Some op =>
      row ← lift (match insns !! opb with Some r => Ok r | None => Raise KeyError end);
      _ ← set_itype row;
      insn ← get;
      bc ← lift (if imm_struct op then _decode_bytecode_at (ea insn)
                 else decode_bytecode [opb]);
      _ ← for_each (seqZ 1 (len bc - 1)) (fun _ => _ ← get_next_byte; mret tt);
      _ ← set_operands (imm bc);
      insn ← get;
      mret (VInt (size insn))
  end.
End Analyzer.

(** A fresh [insn_t] at an address. *)
Definition fresh_insn (insn_ea : Z) : insn_t :=
  mkInsn insn_ea (itype_other 0) 0 void_op void_op void_op 0.

(** ** Entry points *)

(** [no_exceptions]: the wrapper around [f]. Whatever [f] raises is caught
    (and logged), and [0] is returned; what [f] did before raising stays
    done. *)
Definition no_exceptions {S A} (f : A → SE S value) : A → SE S value :=
  fun args s =>
    match f args s with
    | (s', Ok v) => (s', Ok v)
    | (s', Raise _) => (s', Ok (VInt 0))
    end.

(** Tags functions that are invoked from IDA-land. *)
Definition ida_entry_point {S A} : (A → SE S value) → A → SE S value := no_exceptions.

Definition ev_emu_insn (decode_insn : Z → option insn_t) : insn_t → SE world value :=
  ida_entry_point (emu_insn decode_insn).

Definition ev_ana_insn (OPCODE_MAP : gmap Z Opcode) (insns : gmap Z insn_row)
    (get_byte : Z → Z) (decode_bytecode : list Z → Result Instruction)
    : unit → SE insn_t value :=
  ida_entry_point (fun _ => ana_insn OPCODE_MAP insns get_byte decode_bytecode).

Definition ev_oldfile (WASM_TYPE_NAMES : gmap Z string)
    : list ModuleFragment → SE wasm_processor_t value :=
  ida_entry_point (fun decoded => _ ← load WASM_TYPE_NAMES decoded; mret (VInt 0)).

Definition ev_may_be_func : insn_t → SE wasm_processor_t value :=
  ida_entry_point (fun insn =>
    self ← get;
    match dict_get (self_function_offsets self) (ea insn) with
    | Some _ => mret (VInt 100)
    | None => mret (VInt 0)
    end).

(** ** Vocabulary of the statements *)

(** The byte size of a run of fragments. *)
Definition total_size (l : list ModuleFragment) : Z :=
  foldr (fun f acc => size_of_data (data f) + acc) 0 l.

(** A fragment that is a section: it has an id. *)
Definition has_id (f : ModuleFragment) : Prop := is_Ok (data_id (data f)) = true.

(** The pass over a run of instructions, telling whether it went through all
    of them ([Continue]) or left at a [break]. *)
Fixpoint steps (offset : Z) (st : resolver_state) (code : list Instruction)
    : Result (control * resolver_state) :=
  match code with
  | [] => Ok (Continue, st)
  | bc :: rest =>
      '(c, st') ← step offset st bc;
      match c with
      | Break => Ok (Break, st')
      | Continue => steps offset st' rest
      end
  end.

(** Every index on the block stack is the index of a block. *)
Definition stack_ok (st : resolver_state) : Prop :=
  Forall (fun i => (i < length (st_blocks st))%nat) (st_block_stack st).

(** The address of the code of each body of a code section whose first body
    starts at [pbody]. *)
Fixpoint body_addresses (pbody : Z) (bodies : list FunctionBody) : list Z :=
  match bodies with
  | [] => []
  | body :: rest =>
      (pbody + offset_of_body_code body) :: body_addresses (pbody + size_of_body body) rest
  end.

(** The state after an [end] that closes the block [block] at the top of
    the stack, and the state after an [end] met with an empty stack. *)
Definition after_block_end (st : resolver_state) (bc : Instruction)
    (block_index : nat) (block : Block) (stack' : list nat) : resolver_state :=
  mkResolver
    (<[st_p st := [(key_block, ref_block block_index)]]> (st_branch_targets st))
    (<[block_index := set_end_offset block (st_p st + len bc)]> (st_blocks st))
    stack' (st_p st + len bc).

Definition after_function_end (offset : Z) (st : resolver_state) : resolver_state :=
  mkResolver
    (<[st_p st := [(key_block, ref_function (mkFunctionScope offset (st_p st) 0))]]>
       (st_branch_targets st))
    (st_blocks st) [] (st_p st).

(** Sample instructions, with the lengths of their usual encodings. *)
Definition Block_ : Instruction := mkInstruction OP_BLOCK (BlockImm (-64)) 2.
Definition Loop : Instruction := mkInstruction OP_LOOP (BlockImm (-64)) 2.
Definition If_ : Instruction := mkInstruction OP_IF (BlockImm (-64)) 2.
Definition Else_ : Instruction := mkInstruction OP_ELSE NoImm 1.
Definition End_ : Instruction := mkInstruction OP_END NoImm 1.
Definition Br (d : N) : Instruction := mkInstruction OP_BR (BranchImm d) 2.
Definition BrIf (d : N) : Instruction := mkInstruction OP_BR_IF (BranchImm d) 2.
Definition BrTable (table : list N) (default : N) : Instruction :=
  mkInstruction OP_BR_TABLE (BranchTableImm table default)
    (2 + Z.of_nat (length table)).
Definition Nop : Instruction := mkInstruction 0x01 NoImm 1.

(** A computation on the processor that leaves [self.branch_targets] as it
    finds it, and one that always ends in an exception. *)
Definition keeps_branch_targets {A} (m : SE wasm_processor_t A) : Prop :=
  ∀ s, self_branch_targets (m s).1 = self_branch_targets s.

Definition never_returns {A} (m : SE wasm_processor_t A) : Prop :=
  ∀ s, is_Ok (m s).2 = false.


(** A module with a code section of three bodies, the second of which
    branches with no enclosing block: header (8 bytes), then the section
    (2 bytes before the payload, 1 byte of count, then the bodies, each with
    1 byte of size and 1 byte of local count before its code). *)
Definition body_block : FunctionBody := mkFunctionBody [] [Block_; End_; End_] 1 1 0 4.
Definition body_stray_br : FunctionBody := mkFunctionBody [] [Br 0; End_] 1 1 0 3.
Definition body_loop : FunctionBody := mkFunctionBody [] [Loop; End_; End_] 1 1 0 4.

Definition module_stray_br : list ModuleFragment :=
  [ mkModuleFragment (ModuleHeader 8);
    mkModuleFragment
      (Section_ SEC_CODE 2 18 (CodeSection 1 3 [body_block; body_stray_br; body_loop])) ].

(** A computation of the emulator that returns and touches nothing but the
    data cross-references. *)
Definition only_drefs {A} (m : SE world A) : Prop :=
  ∀ w, ∃ ds a, m w = (mkWorld (self w) (crefs w) ds, Ok a).

(** No operand of the instruction is tagged as a global. *)
Definition no_global_operand (insn : insn_t) : Prop :=
  Forall (fun op => op_specval op ≠ WASM_GLOBAL) (ops insn).

(** The instruction that [ev_ana_insn] builds at [insn_ea] from the decoded
    [bc], for an opcode whose row in [self.insns] is [(t, feat)]. *)
Definition insn_at (insn_ea : Z) (t : itype_t) (feat : Z) (bc : Instruction) : insn_t :=
  let '(op1, op2, op3) := operands insn_ea (imm bc) in
  mkInsn insn_ea t (len bc) op1 op2 op3 feat.

(** The feature flags of the control instructions in the opcode table of
    the [wasm] package. *)
Definition INSN_ENTER_BLOCK : Z := 1.
Definition INSN_LEAVE_BLOCK : Z := 2.
Definition INSN_BRANCH : Z := 4.

(** IDA's view of a body that starts at [start]: the instructions at their
    addresses, with the instruction id and flags of each opcode. *)
Definition row_of (op : Z) : itype_t * Z :=
  if decide (op = OP_UNREACHABLE) then (itype_UNREACHABLE, INSN_NO_FLOW)
  else if decide (op = OP_BLOCK) then (itype_BLOCK, INSN_ENTER_BLOCK)
  else if decide (op = OP_LOOP) then (itype_LOOP, INSN_ENTER_BLOCK)
  else if decide (op = OP_IF) then (itype_IF, INSN_ENTER_BLOCK)
  else if decide (op = OP_ELSE) then (itype_ELSE, Z.lor INSN_ENTER_BLOCK INSN_LEAVE_BLOCK)
  else if decide (op = OP_END) then (itype_END, INSN_LEAVE_BLOCK)
  else if decide (op = OP_BR) then (itype_BR, INSN_BRANCH)
  else if decide (op = OP_BR_IF) then (itype_BR_IF, INSN_BRANCH)
  else if decide (op = OP_BR_TABLE) then (itype_BR_TABLE, INSN_BRANCH)
  else if decide (op = OP_RETURN) then (itype_RETURN, INSN_NO_FLOW)
  else if decide (op = OP_GET_GLOBAL) then (itype_GET_GLOBAL, 0)
  else if decide (op = OP_SET_GLOBAL) then (itype_SET_GLOBAL, 0)
  else (itype_other (Z.to_nat op), 0).

Fixpoint insns_of (start : Z) (code : list Instruction) : list insn_t :=
  match code with
  | [] => []
  | bc :: rest =>
      insn_at start (row_of (op_id bc)).1 (row_of (op_id bc)).2 bc
      :: insns_of (start + len bc) rest
  end.

(** [ida_ua.decode_insn] over a list of instructions. *)
Definition decode_in (insns : list insn_t) (a : Z) : option insn_t :=
  List.find (fun i => bool_decide (ea i = a)) insns.

(** The processor once [load] has stored the map [bt] of branch targets, and
    an IDA database with no cross-reference yet. *)
Definition loaded (bt : gmap Z (dict target_key BlockV)) : world :=
  mkWorld (set_branch_targets bt init_processor) [] [].

(** IDA emulating the instructions one after the other. *)
Definition emulate (decode_insn : Z → option insn_t) (insns : list insn_t)
    : SE world unit :=
  for_each insns (fun insn => _ ← ev_emu_insn decode_insn insn; mret tt).

(** The code cross-references that leave one of the addresses [froms]. *)
Definition edges_from (froms : list Z) (edges : list (Z * Z * cref_type))
    : list (Z * Z * cref_type) :=
  filter (fun e => e.1.1 ∈ froms) edges.

(** The world after IDA has emulated, in address order, the body [code]
    placed at [start], with the branch targets of that body loaded. *)
Definition emulated_body (start : Z) (code : list Instruction) : Result world :=
  bt ← _compute_function_branch_targets start code;
  let insns := insns_of start code in
  Ok (emulate (decode_in insns) insns (loaded bt)).1.

(** A list of fragments whose first element is not a header but a section
    with the id of the code section, followed by a type section and the real
    code section. *)
Definition fragments_code_first : list ModuleFragment :=
  [ mkModuleFragment (Section_ SEC_CODE 2 6 OtherPayload);
    mkModuleFragment (Section_ SEC_TYPE 2 3 (TypeSection 1 []));
    mkModuleFragment (Section_ SEC_CODE 2 5 (CodeSection 1 1 [body_block])) ].

(** A data segment entry as the decoder produces it: the index, the offset
    expression and the size each take at least one byte, the data none or
    more. *)
Definition wf_entry (e : DataSegmentEntry) : Prop :=
  0 < d_len_index e ∧ 0 < d_len_offset e ∧ 0 < d_len_size e ∧ 0 ≤ d_len_data e.

(** The [ea] of the entries of [self.data] grow with the index. *)
Definition increasing_ea (data : dict N Data) : Prop :=
  ∀ (i : N) (a b : Data),
    dict_get data i = Some a → dict_get data (i + 1)%N = Some b → dt_ea a < dt_ea b.

(** The entries of the data section of a module, if it has one. *)
Definition data_section_entries (sections : list ModuleFragment)
    : Result (list DataSegmentEntry) :=
  data_section ← _get_section sections SEC_DATA;
  pl ← section_payload data_section;
  snd <$> data_entries pl.

(** A module with a data section of three segments. *)
Definition module_data : list ModuleFragment :=
  [ mkModuleFragment (ModuleHeader 8);
    mkModuleFragment
      (Section_ SEC_DATA 2 19
         (DataSection 1
            [ mkDataSegmentEntry 0 [mkInstruction OP_I32_CONST (I32ConstImm 1024) 2; End_]
                3 [1; 2; 3] 1 3 1 3;
              mkDataSegmentEntry 0 [mkInstruction OP_I32_CONST (I32ConstImm 2048) 3; End_]
                0 [] 1 4 1 0;
              mkDataSegmentEntry 0 [mkInstruction OP_GET_GLOBAL (GlobalVarXsImm 0) 2; End_]
                1 [7] 1 3 1 1 ])) ].

(** An opcode table with the rows of [nop] and [end] only, the matching rows
    of [self.insns], a database whose every byte is [0xff], and a decoder
    of one-byte instructions. *)
Definition opcode_map_sample : gmap Z Opcode :=
  {[ 0x01 := mkOpcode "nop" false 0; OP_END := mkOpcode "end" false INSN_LEAVE_BLOCK ]}.
Definition insns_sample : gmap Z insn_row :=
  {[ 0x01 := mkInsnRow (itype_other 1) 0; OP_END := mkInsnRow itype_END INSN_LEAVE_BLOCK ]}.
Definition bytes_ff : Z → Z := fun _ => 0xff.
Definition decode_one_byte (buf : list Z) : Result Instruction :=
  match buf with
  | b :: _ => Ok (mkInstruction b NoImm 1)
  | [] => Raise RuntimeError
  end.

(** A [br_table] at address 0 that is followed by a [nop]. *)
Definition br_table_then_nop : list insn_t := insns_of 0 [BrTable [] 0; Nop].

(** The function imports of a module, its function exports and the number
    of bodies that its code section declares; a missing section has none. *)
Definition module_function_imports (sections : list ModuleFragment) : list ImportEntry :=
  match _get_section sections SEC_IMPORT with
  | Ok import_section =>
      match section_payload import_section ≫= import_entries with
      | Ok (_, entries) =>
          filter (fun e => im_kind e = WASM_EXTERNAL_KIND_FUNCTION) entries
      | Raise _ => []
      end
  | Raise _ => []
  end.

Definition module_function_exports (sections : list ModuleFragment) : list ExportEntry :=
  match _get_section sections SEC_EXPORT with
  | Ok export_section =>
      match section_payload export_section ≫= export_entries with
      | Ok entries => filter (fun e => ex_kind e = WASM_EXTERNAL_KIND_FUNCTION) entries
      | Raise _ => []
      end
  | Raise _ => []
  end.

Definition module_body_count (sections : list ModuleFragment) : N :=
  match _get_section sections SEC_CODE with
  | Ok code_section =>
      match section_payload code_section ≫= payload_bodies with
      | Ok (_, count, _) => count
      | Raise _ => 0%N
      end
  | Raise _ => 0%N
  end.

(** The name and the [exported] flag that a defined function of index
    [function_index] must have, given the function exports of the module. *)
Definition named_by_exports (exports : list ExportEntry) (function_index : N)
    (name : string) (exported : bool) : Prop :=
  if decide (Exists (fun e => ex_index e = function_index) exports) then
    (∃ e, e ∈ exports ∧ ex_index e = function_index ∧ ex_field_str e = Some name)
    ∧ exported = true
  else name = "$func" +:+ format_d function_index ∧ exported = false.

(** Scenario D: a type section, two function imports, one defined body,
    exported under the name "main" at index 2. *)
Definition module_scenario_D : list ModuleFragment :=
  [ mkModuleFragment (ModuleHeader 8);
    mkModuleFragment (Section_ SEC_TYPE 2 4 (TypeSection 1 [mkFuncType (-32) 0 [] 0 0]));
    mkModuleFragment
      (Section_ SEC_IMPORT 2 15
         (ImportSection 1
            [ mkImportEntry (Some "env") (Some "a") WASM_EXTERNAL_KIND_FUNCTION
                (ImportFunctionType 0) 7;
              mkImportEntry (Some "env") (Some "b") WASM_EXTERNAL_KIND_FUNCTION
                (ImportFunctionType 0) 7 ]));
    mkModuleFragment (Section_ SEC_FUNCTION 2 2 (FunctionSection 1 [0%N]));
    mkModuleFragment
      (Section_ SEC_EXPORT 2 8
         (ExportSection 1 [mkExportEntry (Some "main") WASM_EXTERNAL_KIND_FUNCTION 2]));
    mkModuleFragment (Section_ SEC_CODE 2 7 (CodeSection 1 1 [body_block])) ].

(** A table of type names for the examples. *)
Definition type_names_sample : gmap Z string :=
  {[ (-1) := "i32"; (-2) := "i64"; (-3) := "f32"; (-4) := "f64" ]}.

(** A module with a type, a function, a global and a code section and no
    import section; the global section defines one [i32] global. The same
    module with an import section that imports nothing; and a module with
    the global section only. *)
Definition type_section_sample : ModuleFragment :=
  mkModuleFragment (Section_ SEC_TYPE 2 4 (TypeSection 1 [mkFuncType (-32) 0 [] 0 0])).
Definition function_section_sample : ModuleFragment :=
  mkModuleFragment (Section_ SEC_FUNCTION 2 2 (FunctionSection 1 [0%N])).
Definition global_section_sample : ModuleFragment :=
  mkModuleFragment
    (Section_ SEC_GLOBAL 2 6
       (GlobalSection 1
          [mkGlobalEntry (-1) [mkInstruction OP_I32_CONST (I32ConstImm 0) 2; End_] 2 3])).
Definition code_section_sample : ModuleFragment :=
  mkModuleFragment (Section_ SEC_CODE 2 7 (CodeSection 1 1 [body_block])).
Definition empty_import_section : ModuleFragment :=
  mkModuleFragment (Section_ SEC_IMPORT 2 1 (ImportSection 1 [])).

Definition module_no_import : list ModuleFragment :=
  [ mkModuleFragment (ModuleHeader 8); type_section_sample; function_section_sample;
    global_section_sample; code_section_sample ].
Definition module_empty_import : list ModuleFragment :=
  [ mkModuleFragment (ModuleHeader 8); type_section_sample; empty_import_section;
    function_section_sample; global_section_sample; code_section_sample ].
Definition module_no_code : list ModuleFragment :=
  [ mkModuleFragment (ModuleHeader 8); empty_import_section; global_section_sample ].

(** * Further vocabulary *)

(** ** The resolver *)

(** What every state of the pass satisfies: the stack holds distinct
    indices; the block at index [i] of [blocks] carries the index [i]; the
    block at position [j] from the top of the stack is still open and its
    [depth] is its height above the bottom of the stack; a block that is not
    on the stack has been closed; every reference recorded so far points
    into [blocks]. *)
Definition resolver_inv (st : resolver_state) : Prop :=
  NoDup (st_block_stack st)
  ∧ (∀ i b, st_blocks st !! i = Some b → index b = i)
  ∧ (∀ j i, st_block_stack st !! j = Some i →
       ∃ b, st_blocks st !! i = Some b
            ∧ depth b = (length (st_block_stack st) - 1 - j)%nat
            ∧ end_offset b = None)
  ∧ (∀ i b, st_blocks st !! i = Some b → i ∉ st_block_stack st →
       is_Some (end_offset b))
  ∧ (∀ a d k i, st_branch_targets st !! a = Some d → (k, ref_block i) ∈ d →
       (i < length (st_blocks st))%nat).

(** Two block tables of the same length whose blocks agree on [index],
    [depth] and [end_offset]. *)
Definition same_frame (bs bs' : list Block) : Prop :=
  length bs = length bs'
  ∧ ∀ i b', bs' !! i = Some b' →
      ∃ b, bs !! i = Some b ∧ index b' = index b ∧ depth b' = depth b
           ∧ end_offset b' = end_offset b.

(** The instructions that open a scope, and those that get an entry in the
    map of branch targets. *)
Definition opens_scope (bc : Instruction) : Prop :=
  op_id bc ∈ [OP_BLOCK; OP_LOOP; OP_IF].
Definition closes_scope (bc : Instruction) : Prop := op_id bc = OP_END.
Definition is_control (bc : Instruction) : Prop :=
  op_id bc ∈ [OP_BLOCK; OP_LOOP; OP_IF; OP_END; OP_BR; OP_BR_IF; OP_ELSE; OP_BR_TABLE].

(** The sum of the lengths of a run of instructions. *)
Definition code_length (code : list Instruction) : Z :=
  foldr (fun bc acc => len bc + acc) 0 code.

#[global] Instance opens_scope_dec bc : Decision (opens_scope bc).
Proof. unfold opens_scope. apply _. Defined.
#[global] Instance closes_scope_dec bc : Decision (closes_scope bc).
Proof. unfold closes_scope. apply _. Defined.

(** ** The parser *)

(** The global imports of a module and the globals that its global section
    defines; a missing section has none. *)
Definition module_global_imports (sections : list ModuleFragment) : list ImportEntry :=
  match _get_section sections SEC_IMPORT with
  | Ok import_section =>
      match section_payload import_section ≫= import_entries with
      | Ok (_, entries) =>
          filter (fun e => im_kind e = WASM_EXTERNAL_KIND_GLOBAL) entries
      | Raise _ => []
      end
  | Raise _ => []
  end.

Definition module_globals (sections : list ModuleFragment) : list GlobalEntry :=
  match _get_section sections SEC_GLOBAL with
  | Ok global_section =>
      match section_payload global_section ≫= global_entries with
      | Ok (_, globals) => globals
      | Raise _ => []
      end
  | Raise _ => []
  end.

(** A table of globals whose keys are [0 .. len-1] in this order and whose
    entries carry their key as [index]. *)
Definition dense_globals (globals_ : dict N Global) : Prop :=
  dict_keys globals_ = N.of_nat <$> seq 0 (length globals_)
  ∧ ∀ k g, (k, g) ∈ globals_ → gl_index g = k.

(** A module with an import section that imports one function and two
    globals, and a global section with two globals, the second of which is
    initialized from the imported global 1. *)
Definition module_globals_sample : list ModuleFragment :=
  [ mkModuleFragment (ModuleHeader 8);
    mkModuleFragment
      (Section_ SEC_IMPORT 2 22
         (ImportSection 1
            [ mkImportEntry (Some "env") (Some "base") WASM_EXTERNAL_KIND_GLOBAL
                (ImportGlobalType (-1) 0) 7;
              mkImportEntry (Some "env") (Some "f") WASM_EXTERNAL_KIND_FUNCTION
                (ImportFunctionType 0) 7;
              mkImportEntry (Some "env") (Some "top") WASM_EXTERNAL_KIND_GLOBAL
                (ImportGlobalType (-2) 0) 7 ]));
    mkModuleFragment
      (Section_ SEC_GLOBAL 2 11
         (GlobalSection 1
            [ mkGlobalEntry (-1) [mkInstruction OP_I32_CONST (I32ConstImm 0) 2; End_] 2 3;
              mkGlobalEntry (-2)
                [mkInstruction OP_GET_GLOBAL (GlobalVarXsImm 1) 2; End_] 2 3 ])) ].

(** The byte size of a run of global entries. *)
Definition globals_size (l : list GlobalEntry) : Z :=
  foldr (fun g acc => size_of_global g + acc) 0 l.

(** The index that the initializer of a global reads first, when it starts
    with a [get_global]. *)
Definition init_reads (init : list Instruction) : option N :=
  match init with
  | bc :: _ =>
      if decide (op_id bc = OP_GET_GLOBAL) then
        match imm bc with
        | GlobalVarXsImm global_index => Some global_index
        | _ => None
        end
      else None
  | [] => None
  end.

(** A dict whose keys are [0 .. len-1], in this order. *)
Definition dense_keys {V} (d : dict N V) : Prop :=
  dict_keys d = N.of_nat <$> seq 0 (length d).

(** The byte size of a run of data segment entries. *)
Definition entries_size (l : list DataSegmentEntry) : Z :=
  foldr (fun e acc => size_of_entry e + acc) 0 l.

(** The bytes of a data segment entry before its contents. *)
Definition entry_header (e : DataSegmentEntry) : Z :=
  d_len_index e + d_len_offset e + d_len_size e.

(** The byte size of a run of function bodies. *)
Definition bodies_size (l : list FunctionBody) : Z :=
  foldr (fun b acc => size_of_body b + acc) 0 l.

(** The bodies of the code section of a module; a missing section has none. *)
Definition module_bodies (sections : list ModuleFragment) : list FunctionBody :=
  match _get_section sections SEC_CODE with
  | Ok code_section =>
      match section_payload code_section ≫= payload_bodies with
      | Ok (_, _, bodies) => bodies
      | Raise _ => []
      end
  | Raise _ => []
  end.

(** The address of the first body of the code section, as both
    [_parse_functions] and [_compute_branch_targets] compute it. *)
Definition code_bodies_offset (sections : list ModuleFragment) : Result Z :=
  code_section ← _get_section sections SEC_CODE;
  pcode_section ← _get_section_offset sections SEC_CODE;
  off ← offset_of_data_payload (data code_section);
  pl ← section_payload code_section;
  '(len_count, _, _) ← payload_bodies pl;
  Ok (pcode_section + off + len_count).

(** The address of the code of body [i] of a run of bodies that starts at
    [pbody]. *)
Definition code_address (pbody : Z) (bodies : list FunctionBody) (i : nat)
    (body : FunctionBody) : Z :=
  pbody + bodies_size (take i bodies) + offset_of_body_code body.

(** A module with two defined functions and no imports. *)
Definition module_two_bodies : list ModuleFragment :=
  [ mkModuleFragment (ModuleHeader 8);
    mkModuleFragment (Section_ SEC_TYPE 2 4 (TypeSection 1 [mkFuncType (-32) 0 [] 0 0]));
    mkModuleFragment (Section_ SEC_FUNCTION 2 3 (FunctionSection 1 [0%N; 0%N]));
    mkModuleFragment (Section_ SEC_CODE 2 13 (CodeSection 1 2 [body_block; body_loop])) ].

(** ** The emulator *)

(** The tables of the processor that [load] fills are the same in [s] and
    in [s']. *)
Definition same_tables (s s' : wasm_processor_t) : Prop :=
  self_sections s' = self_sections s
  ∧ self_types s' = self_types s
  ∧ self_globals s' = self_globals s
  ∧ self_functions s' = self_functions s
  ∧ self_function_offsets s' = self_function_offsets s
  ∧ self_function_ranges s' = self_function_ranges s
  ∧ self_data s' = self_data s
  ∧ self_branch_targets s' = self_branch_targets s.

(** Every flow queued in [deferred_flows] for an address leaves that
    address. *)
Definition flows_keyed (s : wasm_processor_t) : Prop :=
  ∀ a l, self_deferred_flows s !! a = Some l → Forall (fun f : flow => f.1.1 = a) l.

(** What emulating the instruction at [insn_ea] does to the world at most:
    the tables stay, cross-references are only added, at the end, the data
    ones leaving [insn_ea] and, when the queued flows are keyed by their
    source, the code ones too; and the queued flows stay keyed by their
    source. *)
Definition emulation_step (insn_ea : Z) (w w' : world) : Prop :=
  same_tables (self w) (self w')
  ∧ (∃ cs, crefs w' = crefs w ++ cs
           ∧ (flows_keyed (self w) → Forall (fun c => c.1.1 = insn_ea) cs))
  ∧ (∃ ds, drefs w' = drefs w ++ ds ∧ Forall (fun d => d.1.1 = insn_ea) ds)
  ∧ (flows_keyed (self w) → flows_keyed (self w')).

(** A computation of the emulator each run of which is such a step. *)
Definition steps_at (insn_ea : Z) {A} (m : SE world A) : Prop :=
  ∀ w, emulation_step insn_ea w (m w).1.

(** The branch targets of the body [code] placed at [start]; none when the
    body does not resolve. *)
Definition targets_of (start : Z) (code : list Instruction)
    : gmap Z (dict target_key BlockV) :=
  match _compute_function_branch_targets start code with
  | Ok bt => bt
  | Raise _ => ∅
  end.

(** The instruction at position [i] of IDA's view of a body. *)
Definition nth_insn (start : Z) (code : list Instruction) (i : nat) : insn_t :=
  default (fresh_insn start) (insns_of start code !! i).

Definition Return_ : Instruction := mkInstruction OP_RETURN NoImm 1.

(** ** Loading *)

(** What a table is after [try: self.x = parse() except SectionNotFoundError]
    when [load] goes on: the parsed value, or the old one. *)
Definition assigned {A} (parse : Result A) (old : A) : A :=
  match parse with
  | Ok v => v
  | Raise _ => old
  end.

(** The section is missing from the module. *)
Definition section_missing (sections : list ModuleFragment) (section_id : Z) : Prop :=
  _get_section sections section_id = Raise (SectionNotFoundError section_id).

(** ** The decoder *)


(** ** Function lookup *)

(** The loop of [_get_function] over [self.function_ranges.items()]. *)
Fixpoint get_function_from (ranges : list (Z * Z * Function)) (a : Z) : Result Function :=
  match ranges with
  | [] => Raise KeyError
  | (start, end_, f) :: rest =>
      if decide (start ≤ a < end_) then Ok f else get_function_from rest a
  end.

(** [_get_function]: the function object that contains the given address. *)
Definition _get_function (self : wasm_processor_t) (a : Z) : Result Function :=
  get_function_from (self_function_ranges self) a.

(** The function [f] has code, and the address [a] lies in it. *)
Definition contains (f : Function) (a : Z) : Prop :=
  ∃ o sz, fn_offset f = Some o ∧ fn_size f = Some sz ∧ o ≤ a < o + sz.

(** * Properties *)

(** ** Section lookup *)

Lemma total_size_snoc l f :
  total_size (l ++ [f]) = total_size l + size_of_data (data f).
Proof. induction l as [|x l IH]; simpl; lia. Qed.

Lemma get_section_from_spec (l : list ModuleFragment) (k : Z) :
  Forall has_id l →
  ∀ (i : nat) (p : Z), (0 < i)%nat →
  match get_section_from i l k with
  | Ok s =>
      ∃ n : nat, l !! n = Some s ∧ data_id (data s) = Ok k
        ∧ (∀ (j : nat) f, (j < n)%nat → l !! j = Some f → data_id (data f) ≠ Ok k)
        ∧ get_section_offset_from i p l k = Ok (p + total_size (take n l))
  | Raise e =>
      e = SectionNotFoundError k
      ∧ (∀ (j : nat) f, l !! j = Some f → data_id (data f) ≠ Ok k)
      ∧ get_section_offset_from i p l k = Raise (SectionNotFoundError k)
  end.
Proof.
  induction 1 as [|f l Hf Hl IH]; intros i p Hi; simpl.
  - split; [done|]. split; [|done]. intros j f Hj. by rewrite lookup_nil in Hj.
  - destruct (decide (i = 0%nat)) as [->|_]; [lia|].
    unfold has_id in Hf. destruct (data_id (data f)) as [id|e] eqn:Hid; [|done].
    simpl. destruct (decide (id ≠ k)) as [Hne|Heq].
    + specialize (IH (S i) (p + size_of_data (data f)) ltac:(lia)).
      destruct (get_section_from (S i) l k) as [s|e].
      * destruct IH as (n & Hn & Hs & Hfirst & Hoff).
        exists (S n). split; [done|]. split; [done|]. split.
        -- intros [|j] g Hj Hg; simpl in Hg.
           ++ inversion Hg; subst g. rewrite Hid. congruence.
           ++ apply (Hfirst j); [lia|done].
        -- rewrite Hoff. simpl. f_equal. lia.
      * destruct IH as (-> & Hnone & Hoff). split; [done|]. split; [|done].
        intros [|j] g Hg; simpl in Hg.
        -- inversion Hg; subst g. rewrite Hid. congruence.
        -- by apply (Hnone j).
    + assert (id = k) as -> by (destruct (decide (id = k)); [done|contradiction]).
      exists 0%nat. split; [done|]. split; [done|]. split; [intros; lia|].
      simpl. f_equal. lia.
Qed.

(** C8. In a decoded module (every fragment after the first is a section),
    [_get_section] returns the first fragment, at an index of at least 1,
    whose id is the requested one: the fragment at index 0 is never returned,
    whatever it holds; [_get_section_offset] then returns the sum of the
    sizes of all the fragments before that one, the one at index 0 included.
    When no fragment after index 0 has the id, both lookups raise
    [SectionNotFoundError]. *)
Theorem get_section_first_match (sections : list ModuleFragment) (section_id : Z) :
  Forall has_id (drop 1 sections) →
  match _get_section sections section_id with
  | Ok s =>
      ∃ i : nat, (1 ≤ i)%nat ∧ sections !! i = Some s
        ∧ data_id (data s) = Ok section_id
        ∧ (∀ (j : nat) f, (1 ≤ j < i)%nat → sections !! j = Some f →
             data_id (data f) ≠ Ok section_id)
        ∧ _get_section_offset sections section_id = Ok (total_size (take i sections))
  | Raise e =>
      e = SectionNotFoundError section_id
      ∧ (∀ (j : nat) f, (1 ≤ j)%nat → sections !! j = Some f →
           data_id (data f) ≠ Ok section_id)
      ∧ _get_section_offset sections section_id = Raise (SectionNotFoundError section_id)
  end.
Proof.
  intros Hwf. unfold _get_section, _get_section_offset.
  destruct sections as [|h rest]; simpl.
  - split; [done|]. split; [|done]. intros j f _ Hj. by rewrite lookup_nil in Hj.
  - simpl in Hwf. rewrite ?drop_0 in Hwf.
    pose proof (get_section_from_spec rest section_id Hwf 1 (0 + size_of_data (data h))
                  ltac:(lia)) as H.
    destruct (get_section_from 1 rest section_id) as [s|e].
    + destruct H as (n & Hn & Hs & Hfirst & Hoff).
      exists (S n). split; [lia|]. split; [done|]. split; [done|]. split.
      * intros [|j] f Hj Hf; [lia|]. simpl in Hf. apply (Hfirst j); [lia|done].
      * rewrite Hoff. simpl. f_equal; lia.
    + destruct H as (-> & Hnone & Hoff). split; [done|]. split; [|done].
      intros [|j] f Hj Hf; [lia|]. simpl in Hf. by apply (Hnone j).
Qed.

Lemma get_section_first_match_witness :
  Forall has_id (drop 1 fragments_code_first)
  ∧ match _get_section fragments_code_first SEC_CODE with
    | Ok s =>
        ∃ i : nat, (1 ≤ i)%nat ∧ fragments_code_first !! i = Some s
          ∧ data_id (data s) = Ok SEC_CODE
          ∧ (∀ (j : nat) f, (1 ≤ j < i)%nat → fragments_code_first !! j = Some f →
               data_id (data f) ≠ Ok SEC_CODE)
          ∧ _get_section_offset fragments_code_first SEC_CODE
            = Ok (total_size (take i fragments_code_first))
    | Raise e =>
        e = SectionNotFoundError SEC_CODE
        ∧ (∀ (j : nat) f, (1 ≤ j)%nat → fragments_code_first !! j = Some f →
             data_id (data f) ≠ Ok SEC_CODE)
        ∧ _get_section_offset fragments_code_first SEC_CODE
          = Raise (SectionNotFoundError SEC_CODE)
    end.
Proof.
  assert (Forall has_id (drop 1 fragments_code_first)) as Hwf
    by (repeat constructor).
  split; [exact Hwf|]. exact (get_section_first_match fragments_code_first SEC_CODE Hwf).
Defined.

(** The fragment at index 0 is skipped even when it carries the id: the
    lookup returns the section at index 2, at offset 8 + 5. *)
Example get_section_skips_index_0 :
  _get_section fragments_code_first SEC_CODE = py_index fragments_code_first 2
  ∧ _get_section_offset fragments_code_first SEC_CODE = Ok 13
  ∧ _get_section fragments_code_first SEC_DATA = Raise (SectionNotFoundError SEC_DATA).
Proof. repeat split. Qed.

(** ** Control-flow resolver *)

Lemma step_END offset st bc :
  op_id bc = OP_END →
  step offset st bc =
    match st_block_stack st with
    | [] =>
        Ok (Break,
            mkResolver
              (<[st_p st := [(key_block, ref_function (mkFunctionScope offset (st_p st) 0))]]>
                 (st_branch_targets st))
              (st_blocks st) [] (st_p st))
    | block_index :: stack' =>
        block ← blocks_item (st_blocks st) block_index;
        Ok (Continue,
            mkResolver
              (<[st_p st := [(key_block, ref_block block_index)]]> (st_branch_targets st))
              (<[block_index := set_end_offset block (st_p st + len bc)]> (st_blocks st))
              stack' (st_p st + len bc))
    end.
Proof. intros H. unfold step. rewrite H. reflexivity. Qed.

Lemma step_BR offset st bc :
  op_id bc = OP_BR ∨ op_id bc = OP_BR_IF →
  step offset st bc =
    (relative_depth ← imm_relative_depth (imm bc);
     block_index ← py_index (st_block_stack st) relative_depth;
     _ ← blocks_item (st_blocks st) block_index;
     Ok (Continue,
         mkResolver
           (<[st_p st := [(key_depth relative_depth, ref_block block_index)]]>
              (st_branch_targets st))
           (st_blocks st) (st_block_stack st) (st_p st + len bc))).
Proof. intros [H|H]; unfold step; rewrite H; reflexivity. Qed.

Lemma step_BR_TABLE offset st bc :
  op_id bc = OP_BR_TABLE →
  step offset st bc =
    (depths ← imm_table_targets (imm bc);
     '(blocks', targets) ← br_table_loop (st_block_stack st) depths (st_blocks st) [];
     Ok (Continue,
         mkResolver (<[st_p st := targets]> (st_branch_targets st)) blocks'
           (st_block_stack st) (st_p st + len bc))).
Proof. intros H. unfold step. rewrite H. reflexivity. Qed.

Lemma step_ELSE offset st bc :
  op_id bc = OP_ELSE →
  step offset st bc =
    (found ← else_scan (st_blocks st) (st_block_stack st);
     match found with
     | Some block_index =>
         block ← blocks_item (st_blocks st) block_index;
         Ok (Continue,
             mkResolver
               (<[st_p st := [(key_block, ref_block block_index)]]> (st_branch_targets st))
               (<[block_index := set_else_offset block (st_p st + len bc)]> (st_blocks st))
               (st_block_stack st) (st_p st + len bc))
     | None =>
         Ok (Continue,
             mkResolver (st_branch_targets st) (st_blocks st) (st_block_stack st)
               (st_p st + len bc))
     end).
Proof. intros H. unfold step. rewrite H. reflexivity. Qed.

Lemma run_steps offset st code :
  run offset st code = snd <$> steps offset st code.
Proof.
  revert st. induction code as [|bc rest IH]; intros st; simpl; [done|].
  destruct (step offset st bc) as [[[] st']|e]; simpl; [apply IH|done|done].
Qed.

Lemma run_app_continue offset st pre st' rest :
  steps offset st pre = Ok (Continue, st') →
  run offset st (pre ++ rest) = run offset st' rest.
Proof.
  revert st. induction pre as [|bc pre IH]; intros st; simpl.
  - by intros [= ->].
  - destruct (step offset st bc) as [[[] st1]|e]; simpl; [apply IH|done|done].
Qed.

Lemma steps_app_continue offset st pre st' rest :
  steps offset st pre = Ok (Continue, st') →
  steps offset st (pre ++ rest) = steps offset st' rest.
Proof.
  revert st. induction pre as [|bc pre IH]; intros st; simpl.
  - by intros [= ->].
  - destruct (step offset st bc) as [[[] st1]|e]; simpl; [apply IH|done|done].
Qed.

Lemma br_table_loop_length stack depths :
  ∀ blocks targets blocks' targets',
  br_table_loop stack depths blocks targets = Ok (blocks', targets') →
  length blocks' = length blocks.
Proof.
  induction depths as [|d depths IH]; intros blocks targets blocks' targets'; simpl.
  - by intros [= -> _].
  - destruct (py_index stack d) as [i|]; simpl; [|done].
    destruct (blocks_item blocks i) as [b|]; simpl; [|done].
    intros H. apply IH in H. by rewrite length_insert in H.
Qed.

Lemma blocks_item_Ok blocks i :
  (i < length blocks)%nat → ∃ b, blocks_item blocks i = Ok b ∧ blocks !! i = Some b.
Proof.
  intros Hi. unfold blocks_item.
  destruct (lookup_lt_is_Some_2 blocks i Hi) as [b Hb]. rewrite Hb. eauto.
Qed.

Lemma step_stack_ok offset st bc c st' :
  stack_ok st → step offset st bc = Ok (c, st') → stack_ok st'.
Proof.
  unfold stack_ok, step. intros Hok.
  repeat case_bool_decide.
  - destruct (new_block_type (op_id bc)); simpl; [|done].
    intros [= _ <-]; simpl. rewrite length_app; simpl. constructor; [lia|].
    eapply Forall_impl; [exact Hok|]. simpl; intros; lia.
  - destruct (st_block_stack st) as [|i stack'] eqn:Hs.
    + intros [= _ <-]; simpl. constructor.
    + destruct (blocks_item (st_blocks st) i); simpl; [|done].
      intros [= _ <-]; simpl. rewrite length_insert. by inversion Hok.
  - destruct (imm_relative_depth (imm bc)) as [d|]; simpl; [|done].
    destruct (py_index (st_block_stack st) d) as [i|]; simpl; [|done].
    destruct (blocks_item (st_blocks st) i); simpl; [|done].
    by intros [= _ <-].
  - destruct (else_scan (st_blocks st) (st_block_stack st)) as [[i|]|]; simpl; [| |done].
    + destruct (blocks_item (st_blocks st) i); simpl; [|done].
      intros [= _ <-]; simpl. by rewrite length_insert.
    + by intros [= _ <-].
  - destruct (imm_table_targets (imm bc)) as [depths|]; simpl; [|done].
    destruct (br_table_loop (st_block_stack st) depths (st_blocks st) [])
      as [[blocks' targets]|] eqn:Hloop; simpl; [|done].
    intros [= _ <-]; simpl. by rewrite (br_table_loop_length _ _ _ _ _ _ Hloop).
  - by intros [= _ <-].
Qed.

Lemma steps_stack_ok offset code :
  ∀ st c st', stack_ok st → steps offset st code = Ok (c, st') → stack_ok st'.
Proof.
  induction code as [|bc rest IH]; intros st c st' Hok; simpl.
  - by intros [= _ <-].
  - destruct (step offset st bc) as [[c1 st1]|] eqn:Hstep; simpl; [|done].
    pose proof (step_stack_ok _ _ _ _ _ Hok Hstep) as Hok1.
    destruct c1; [by apply IH|by intros [= _ <-]].
Qed.

Lemma initial_stack_ok offset : stack_ok (initial_state offset).
Proof. constructor. Qed.

(** A branch table with a target (or a default) that is not below the stack
    depth raises [IndexError]. *)
Lemma br_table_loop_out_of_range stack depths :
  ∀ blocks targets,
  Forall (fun i => (i < length blocks)%nat) stack →
  Exists (fun d => (N.of_nat (length stack) ≤ d)%N) depths →
  br_table_loop stack depths blocks targets = Raise IndexError.
Proof.
  induction depths as [|d depths IH]; intros blocks targets Hok Hex; simpl.
  - inversion Hex.
  - unfold py_index. destruct (stack !! N.to_nat d) as [i|] eqn:Hd; simpl; [|done].
    assert (N.to_nat d < length stack)%nat as Hlt by (eapply lookup_lt_Some; eauto).
    assert (i < length blocks)%nat as Hi.
    { eapply Forall_lookup_1 in Hok; eauto. }
    destruct (blocks_item_Ok blocks i Hi) as (b & -> & _). simpl.
    apply IH.
    + rewrite length_insert. done.
    + inversion Hex; subst; [lia|done].
Qed.

(** C4. An [end] met with a block on the stack pops it, sets the
    [end_offset] of that block to the address of the [end] plus its length,
    and records [{'block': block}] at the address of the [end] (the entry
    denotes the block as just updated). An [end] met with an empty stack
    records the function-scope block, whose [offset] is the start of the
    function, whose [end_offset] is the address of the [end] itself and whose
    depth is 0, and leaves the loop: whatever follows the [end] in the body
    adds nothing to the map that is returned. *)
Theorem end_closes_block_or_function (offset : Z) (st : resolver_state)
    (bc : Instruction) :
  op_id bc = OP_END →
  (∀ block_index stack' block,
      st_block_stack st = block_index :: stack' →
      st_blocks st !! block_index = Some block →
      let st' := after_block_end st bc block_index block stack' in
      step offset st bc = Ok (Continue, st')
      ∧ st_block_stack st' = stack'
      ∧ st_branch_targets st' !! st_p st = Some [(key_block, ref_block block_index)]
      ∧ deref (st_blocks st') (ref_block block_index)
        = RegularBlock (set_end_offset block (st_p st + len bc))
      ∧ end_offset (set_end_offset block (st_p st + len bc)) = Some (st_p st + len bc))
  ∧ (st_block_stack st = [] →
      step offset st bc = Ok (Break, after_function_end offset st)
      ∧ (∀ rest, run offset st (bc :: rest) = Ok (after_function_end offset st))
      ∧ (∀ pre rest,
            steps offset (initial_state offset) pre = Ok (Continue, st) →
            _compute_function_branch_targets offset (pre ++ bc :: rest)
            = Ok (<[st_p st := [(key_block,
                                  FunctionBlock (mkFunctionScope offset (st_p st) 0))]]>
                    (returned_targets st)))).
Proof.
  intros Hop. split.
  - intros block_index stack' block Hstack Hblock st'.
    assert (block_index < length (st_blocks st))%nat as Hlt
      by (eapply lookup_lt_Some; eauto).
    split; [|split; [|split; [|split]]].
    + rewrite (step_END _ _ _ Hop), Hstack. unfold blocks_item. by rewrite Hblock.
    + done.
    + subst st'; simpl. by rewrite lookup_insert_eq.
    + subst st'; simpl. f_equal. by apply list_lookup_total_insert_eq.
    + done.
  - intros Hstack.
    assert (step offset st bc = Ok (Break, after_function_end offset st)) as Hstep.
    { by rewrite (step_END _ _ _ Hop), Hstack. }
    split; [done|]. split.
    + intros rest. simpl. by rewrite Hstep.
    + intros pre rest Hpre. unfold _compute_function_branch_targets.
      rewrite (run_app_continue _ _ _ _ _ Hpre). simpl. rewrite Hstep. simpl.
      f_equal. unfold returned_targets, after_function_end; simpl.
      by rewrite fmap_insert.
Qed.

Lemma end_closes_block_or_function_witness :
  op_id End_ = OP_END
  ∧ _compute_function_branch_targets 100 ([Block_; End_] ++ End_ :: [Nop; Loop])
    = Ok (<[103 := [(key_block, FunctionBlock (mkFunctionScope 100 103 0))]]>
            (<[102 := [(key_block,
                        RegularBlock (mkBlock 0 100 (Some 103) None None 0 type_block))]]>
               (<[100 := [(key_block,
                           RegularBlock (mkBlock 0 100 (Some 103) None None 0 type_block))]]>
                  ∅))).
Proof.
  split; [reflexivity|].
  pose proof (end_closes_block_or_function 100
                (mkResolver
                   (<[102 := [(key_block, ref_block 0)]]>
                      (<[100 := [(key_block, ref_block 0)]]> ∅))
                   [mkBlock 0 100 (Some 103) None None 0 type_block] [] 103)
                End_ eq_refl) as [_ H].
  destruct (H eq_refl) as (_ & _ & H3).
  rewrite (H3 [Block_; End_] [Nop; Loop] eq_refl).
  vm_compute. reflexivity.
Defined.

(** *** Branches that name no enclosing block *)

Lemma py_index_out_of_range {A} (l : list A) (d : N) :
  (N.of_nat (length l) ≤ d)%N → py_index l d = Raise IndexError.
Proof.
  intros H. unfold py_index. rewrite (lookup_ge_None_2 l (N.to_nat d)); [done|lia].
Qed.

Lemma br_out_of_range offset pre bc post st d :
  steps offset (initial_state offset) pre = Ok (Continue, st) →
  op_id bc = OP_BR ∨ op_id bc = OP_BR_IF →
  imm bc = BranchImm d →
  (N.of_nat (length (st_block_stack st)) ≤ d)%N →
  _compute_function_branch_targets offset (pre ++ bc :: post) = Raise IndexError.
Proof.
  intros Hpre Hop Himm Hd. unfold _compute_function_branch_targets.
  rewrite (run_app_continue _ _ _ _ _ Hpre). simpl.
  rewrite (step_BR _ _ _ Hop), Himm. simpl.
  by rewrite (py_index_out_of_range _ _ Hd).
Qed.

Lemma br_table_out_of_range offset pre bc post st table default :
  steps offset (initial_state offset) pre = Ok (Continue, st) →
  op_id bc = OP_BR_TABLE →
  imm bc = BranchTableImm table default →
  Exists (fun d => (N.of_nat (length (st_block_stack st)) ≤ d)%N) (table ++ [default]) →
  _compute_function_branch_targets offset (pre ++ bc :: post) = Raise IndexError.
Proof.
  intros Hpre Hop Himm Hd. unfold _compute_function_branch_targets.
  rewrite (run_app_continue _ _ _ _ _ Hpre). simpl.
  rewrite (step_BR_TABLE _ _ _ Hop), Himm. simpl.
  rewrite br_table_loop_out_of_range; [done| |done].
  exact (steps_stack_ok _ _ _ _ _ (initial_stack_ok offset) Hpre).
Qed.

(** The loop over the bodies returns only if every body resolves. *)
Lemma branch_targets_loop_all_or_nothing bodies :
  ∀ pbody acc,
  is_Ok (branch_targets_loop pbody bodies acc)
  = forallb (fun pb => is_Ok (_compute_function_branch_targets pb.1 (code pb.2)))
      (zip (body_addresses pbody bodies) bodies).
Proof.
  induction bodies as [|body rest IH]; intros pbody acc; simpl; [done|].
  destruct (_compute_function_branch_targets (pbody + offset_of_body_code body) (code body));
    simpl; [apply IH|done].
Qed.

(** *** What [load] keeps when a step raises *)

Lemma keeps_bind {A B} (m : SE wasm_processor_t A) (k : A → SE wasm_processor_t B) :
  keeps_branch_targets m → (∀ a, keeps_branch_targets (k a)) →
  keeps_branch_targets (m ≫= k).
Proof.
  intros Hm Hk s. unfold mbind, SE_bind. specialize (Hm s).
  destruct (m s) as [s' [a|e]]; simpl in *; [|done].
  by rewrite Hk.
Qed.

Lemma never_bind {A B} (m : SE wasm_processor_t A) (k : A → SE wasm_processor_t B) :
  (∀ a, never_returns (k a)) → never_returns (m ≫= k).
Proof.
  intros Hk s. unfold mbind, SE_bind.
  destruct (m s) as [s' [a|e]]; simpl; [apply Hk|done].
Qed.

Lemma keeps_modify (f : wasm_processor_t → wasm_processor_t) :
  (∀ s, self_branch_targets (f s) = self_branch_targets s) →
  keeps_branch_targets (modify f).
Proof. intros H s. apply H. Qed.

Lemma keeps_try_assign {A} (r : Result A) (f : A → wasm_processor_t → wasm_processor_t) :
  (∀ v s, self_branch_targets (f v s) = self_branch_targets s) →
  keeps_branch_targets (try_assign r f).
Proof. intros H s. destruct r as [v|[]]; simpl; auto. Qed.

Lemma keeps_get : keeps_branch_targets get.
Proof. done. Qed.

Lemma keeps_raise_bind {A B} (e : exn) (k : A → SE wasm_processor_t B) :
  keeps_branch_targets (lift (Raise e) ≫= k).
Proof. intros s. done. Qed.

Lemma load_raises_keeps_old WASM_TYPE_NAMES decoded e :
  _compute_branch_targets decoded = Raise e →
  keeps_branch_targets (load WASM_TYPE_NAMES decoded)
  ∧ never_returns (load WASM_TYPE_NAMES decoded).
Proof.
  intros He. unfold load. rewrite He. split.
  - repeat (first [ apply keeps_raise_bind
                  | apply keeps_bind; [|intros ?]
                  | apply keeps_modify; done
                  | apply keeps_try_assign; done
                  | apply keeps_get ]).
  - do 8 (apply never_bind; intros ?). intros s. done.
Qed.

(** C1, as the code has it. A [br] or [br_if] whose relative depth is not
    below the depth of the block stack, and a [br_table] with such a target
    or default, make the resolution of the function raise [IndexError] (the
    subscript of the stack fails; there is no [InvalidBranchDepthError]), so
    the branch is resolved to no block at all, while a depth below the stack
    depth is resolved to the block at that position of the stack. Nothing
    catches the exception per function: the loop over the bodies returns a
    map only if every body resolves, and when [_compute_branch_targets]
    raises, [load] raises too and leaves [self.branch_targets] as it was. An
    [else] carries no depth: with no open [if] on the stack it records
    nothing and raises nothing. *)
Theorem out_of_range_branch_raises_IndexError :
  (∀ offset pre bc post st d,
      steps offset (initial_state offset) pre = Ok (Continue, st) →
      op_id bc = OP_BR ∨ op_id bc = OP_BR_IF →
      imm bc = BranchImm d →
      (N.of_nat (length (st_block_stack st)) ≤ d)%N →
      _compute_function_branch_targets offset (pre ++ bc :: post) = Raise IndexError)
  ∧ (∀ offset pre bc post st table default,
      steps offset (initial_state offset) pre = Ok (Continue, st) →
      op_id bc = OP_BR_TABLE →
      imm bc = BranchTableImm table default →
      Exists (fun d => (N.of_nat (length (st_block_stack st)) ≤ d)%N) (table ++ [default]) →
      _compute_function_branch_targets offset (pre ++ bc :: post) = Raise IndexError)
  ∧ (∀ offset st bc d block_index block,
      op_id bc = OP_BR ∨ op_id bc = OP_BR_IF →
      imm bc = BranchImm d →
      st_block_stack st !! N.to_nat d = Some block_index →
      st_blocks st !! block_index = Some block →
      step offset st bc
      = Ok (Continue,
            mkResolver
              (<[st_p st := [(key_depth d, ref_block block_index)]]> (st_branch_targets st))
              (st_blocks st) (st_block_stack st) (st_p st + len bc)))
  ∧ (∀ pbody bodies acc,
      is_Ok (branch_targets_loop pbody bodies acc)
      = forallb (fun pb => is_Ok (_compute_function_branch_targets pb.1 (code pb.2)))
          (zip (body_addresses pbody bodies) bodies))
  ∧ (∀ WASM_TYPE_NAMES decoded e s,
      _compute_branch_targets decoded = Raise e →
      is_Ok (load WASM_TYPE_NAMES decoded s).2 = false
      ∧ self_branch_targets (load WASM_TYPE_NAMES decoded s).1 = self_branch_targets s)
  ∧ (∀ offset st bc,
      op_id bc = OP_ELSE →
      else_scan (st_blocks st) (st_block_stack st) = Ok None →
      step offset st bc
      = Ok (Continue,
            mkResolver (st_branch_targets st) (st_blocks st) (st_block_stack st)
              (st_p st + len bc))).
Proof.
  split; [|split; [|split; [|split; [|split]]]].
  - apply br_out_of_range.
  - apply br_table_out_of_range.
  - intros offset st bc d block_index block Hop Himm Hd Hb.
    rewrite (step_BR _ _ _ Hop), Himm. simpl. unfold py_index. rewrite Hd. simpl.
    unfold blocks_item. by rewrite Hb.
  - intros. apply branch_targets_loop_all_or_nothing.
  - intros names decoded e s He.
    destruct (load_raises_keeps_old names decoded e He) as [Hk Hn].
    split; [apply Hn|apply Hk].
  - intros offset st bc Hop Hscan. by rewrite (step_ELSE _ _ _ Hop), Hscan.
Qed.

Lemma out_of_range_branch_raises_IndexError_witness :
  _compute_function_branch_targets 19 ([] ++ Br 0 :: [End_]) = Raise IndexError
  ∧ _compute_function_branch_targets 0 ([Block_] ++ BrTable [0; 1]%N 0 :: [End_; End_])
    = Raise IndexError
  ∧ self_branch_targets (load ∅ module_stray_br init_processor).1 = ∅.
Proof.
  destruct out_of_range_branch_raises_IndexError as (H1 & H2 & _ & _ & H5 & _).
  split; [|split].
  - apply (H1 19 [] (Br 0) [End_] (initial_state 19) 0%N);
      [reflexivity | left; reflexivity | reflexivity | simpl; lia].
  - eapply (H2 0 [Block_] (BrTable [0; 1]%N 0) [End_; End_] _ [0; 1]%N 0%N);
      [reflexivity | reflexivity | reflexivity |].
    simpl. apply Exists_cons_tl, Exists_cons_hd. lia.
  - apply (H5 ∅ module_stray_br IndexError init_processor). vm_compute. reflexivity.
Defined.

(** C1 does not hold as stated: in [module_stray_br] the first body resolves
    on its own, the second has a [br 0] with an empty block stack, and the
    exception it raises is [IndexError]; it leaves [_compute_branch_targets]
    and [load], so that the targets of the first body are not kept (the map
    of the processor stays empty) and the third body is never reached. A
    stray [else] raises nothing. *)
Lemma invalid_branch_depth_not_isolated :
  _compute_function_branch_targets 13 (code body_block)
  = Ok (<[16 := [(key_block, FunctionBlock (mkFunctionScope 13 16 0))]]>
          (<[15 := [(key_block,
                      RegularBlock (mkBlock 0 13 (Some 16) None None 0 type_block))]]>
             (<[13 := [(key_block,
                         RegularBlock (mkBlock 0 13 (Some 16) None None 0 type_block))]]>
                ∅)))
  ∧ body_addresses 11 [body_block; body_stray_br; body_loop] = [13; 19; 24]
  ∧ _compute_function_branch_targets 19 (code body_stray_br) = Raise IndexError
  ∧ is_Ok (_compute_function_branch_targets 24 (code body_loop)) = true
  ∧ _compute_branch_targets module_stray_br = Raise IndexError
  ∧ (load ∅ module_stray_br init_processor).2 = Raise IndexError
  ∧ self_branch_targets (load ∅ module_stray_br init_processor).1 = ∅
  ∧ _compute_function_branch_targets 0 [Else_; End_]
    = Ok {[ 1 := [(key_block, FunctionBlock (mkFunctionScope 0 1 0))] ]}.
Proof. repeat split; vm_compute; reflexivity. Qed.

(** ** Edge synthesizer *)

Lemma world_eta (w : world) : mkWorld (self w) (crefs w) (drefs w) = w.
Proof. by destruct w. Qed.

Lemma only_drefs_ret {A} (a : A) : only_drefs (mret a).
Proof. intros w. exists (drefs w), a. by rewrite world_eta. Qed.

Lemma only_drefs_get : only_drefs get.
Proof. intros w. exists (drefs w), w. unfold get. by rewrite world_eta. Qed.

Lemma only_drefs_bind {A B} (m : SE world A) (k : A → SE world B) :
  only_drefs m → (∀ a, only_drefs (k a)) → only_drefs (m ≫= k).
Proof.
  intros Hm Hk w. destruct (Hm w) as (ds & a & Hw).
  destruct (Hk a (mkWorld (self w) (crefs w) ds)) as (ds' & b & Hw').
  exists ds', b. unfold mbind, SE_bind. rewrite Hw. exact Hw'.
Qed.

Lemma only_drefs_add_dref frm to t : only_drefs (add_dref frm to t).
Proof. intros w. by exists (drefs w ++ [(frm, to, t)]), tt. Qed.

Lemma only_drefs_for_each {A} (xs : list A) (body : A → SE world unit) :
  (∀ x, only_drefs (body x)) → only_drefs (for_each xs body).
Proof.
  intros Hb. induction xs as [|x xs IH]; simpl.
  - apply only_drefs_ret.
  - apply only_drefs_bind; [apply Hb|intros _; apply IH].
Qed.

Lemma data_drefs_only insn : only_drefs (data_drefs insn).
Proof.
  apply only_drefs_for_each. intros op. case_bool_decide; [|apply only_drefs_ret].
  apply only_drefs_bind; [apply only_drefs_get|]. intros w.
  apply only_drefs_for_each. intros d.
  case_bool_decide; [apply only_drefs_add_dref|apply only_drefs_ret].
Qed.

Lemma global_drefs_skip insn w :
  no_global_operand insn → global_drefs insn w = (w, Ok tt).
Proof.
  unfold no_global_operand, global_drefs. generalize (ops insn) as l.
  induction l as [|op l IH]; intros Hl; simpl; [done|].
  inversion Hl as [|? ? Hop Hl']; subst.
  unfold mbind, SE_bind. rewrite bool_decide_eq_false_2 by tauto. simpl.
  by apply IH.
Qed.

Lemma emu_insn_flows decode_insn insn w :
  no_global_operand insn →
  ∃ ds, emu_insn decode_insn insn w
        = emu_flows decode_insn insn (mkWorld (self w) (crefs w) ds).
Proof.
  intros Hg. unfold emu_insn, mbind at 1, SE_bind.
  rewrite (global_drefs_skip _ _ Hg).
  destruct (data_drefs_only insn w) as (ds & [] & Hd).
  exists ds. unfold mbind, SE_bind. by rewrite Hd.
Qed.

Lemma data_drefs_no_data insn w :
  self_data (self w) = [] → data_drefs insn w = (w, Ok tt).
Proof.
  intros Hd. unfold data_drefs. generalize (ops insn) as l.
  induction l as [|op l IH]; simpl; [done|].
  unfold mbind at 1, SE_bind. case_bool_decide; simpl; [|apply IH].
  unfold mbind at 1, SE_bind, get. rewrite Hd. simpl. apply IH.
Qed.

Lemma emu_insn_flows_no_data decode_insn insn w :
  no_global_operand insn → self_data (self w) = [] →
  emu_insn decode_insn insn w = emu_flows decode_insn insn w.
Proof.
  intros Hg Hd. unfold emu_insn, mbind, SE_bind.
  by rewrite (global_drefs_skip _ _ Hg), (data_drefs_no_data _ _ Hd).
Qed.

(** The chain of [ev_emu_insn] on a branch that is followed by an [end], on
    an [end], and on an instruction with no case of its own. *)
Lemma emu_flows_BR_END decode_insn insn next :
  itype insn = itype_BR → decode_insn (ea insn + size insn) = Some next →
  itype next = itype_END →
  emu_flows decode_insn insn = VInt <$> notify_emu_BR_END insn next.
Proof. intros Hi Hn Hn'. unfold emu_flows. rewrite Hi, Hn. simpl. by rewrite Hn'. Qed.

Lemma emu_flows_BR_TABLE_END decode_insn insn next :
  itype insn = itype_BR_TABLE → decode_insn (ea insn + size insn) = Some next →
  itype next = itype_END →
  emu_flows decode_insn insn = VInt <$> notify_emu_BR_TABLE_END insn next.
Proof. intros Hi Hn Hn'. unfold emu_flows. rewrite Hi, Hn. simpl. by rewrite Hn'. Qed.

Lemma emu_flows_END decode_insn insn :
  itype insn = itype_END → Z.land (feature insn) INSN_NO_FLOW = 0 →
  emu_flows decode_insn insn = VInt <$> notify_emu_END insn.
Proof.
  intros Hi Hf. unfold emu_flows. rewrite Hi, Hf. simpl.
  by destruct (decode_insn (ea insn + size insn)).
Qed.

Lemma emu_flows_fallthrough decode_insn insn w :
  itype insn ∈ [itype_BLOCK; itype_LOOP] →
  Z.land (feature insn) INSN_NO_FLOW = 0 →
  emu_flows decode_insn insn w
  = (mkWorld (self w) (crefs w ++ [(ea insn, ea insn + size insn, fl_F)]) (drefs w),
     Ok VNone).
Proof.
  intros Hi Hf. unfold emu_flows. rewrite Hf.
  rewrite !elem_of_cons, elem_of_nil in Hi.
  destruct Hi as [-> | [-> | []]]; reflexivity.
Qed.

(** [notify_emu_BR_END]: the fallthrough into the [end], the mark on the
    [end], and the jump queued for it. *)
Lemma notify_emu_BR_END_effect insn next w targets target_block :
  self_branch_targets (self w) !! ea insn = Some targets →
  targets_item targets (op_value (Op1 insn)) = Ok target_block →
  notify_emu_BR_END insn next w
  = (mkWorld
       (set_deferred_flows
          (<[ea next := [(ea next, block_end_offset target_block, fl_JF)]]>
             (self_deferred_flows (self w)))
          (set_deferred_noflows (<[ea next := true]> (self_deferred_noflows (self w)))
             (self w)))
       (crefs w ++ [(ea insn, ea insn + size insn, fl_F)]) (drefs w),
     Ok 1).
Proof.
  intros Hbt Hitem. unfold notify_emu_BR_END, defer_branch_flow, defer_noflow.
  unfold mbind, SE_bind, add_cref, modify, get, on_self, lift, mret, SE_ret. simpl.
  rewrite Hbt. simpl. by rewrite Hitem.
Qed.

(** [notify_emu_END] on the [end] of a loop: the queued flows first, then the
    jump back to the start of the loop; [deferred_noflows] is not read. *)
Lemma notify_emu_END_loop insn w targets block frm to t :
  self_deferred_flows (self w) !! ea insn = Some [(frm, Some to, t)] →
  self_branch_targets (self w) !! ea insn = Some targets →
  dict_item targets key_block = Ok block →
  block_type_name block = name_loop →
  notify_emu_END insn w
  = (mkWorld (self w)
       ((crefs w ++ [(frm, to, t)]) ++ [(ea insn, block_offset block, fl_JF)])
       (drefs w),
     Ok 1).
Proof.
  intros Hfl Hbt Hitem Hty. unfold notify_emu_END.
  unfold mbind, SE_bind, add_cref, modify, get, lift, mret, SE_ret. simpl.
  rewrite Hfl. simpl. rewrite Hbt. simpl. rewrite Hitem. simpl. by rewrite Hty.
Qed.

(** [notify_emu_END] on the [end] of a block or of an if that no branch has
    queued a flow on or marked: it falls through. *)
Lemma notify_emu_END_plain insn w targets block :
  self_deferred_flows (self w) !! ea insn = None →
  self_deferred_noflows (self w) !! ea insn = None →
  self_branch_targets (self w) !! ea insn = Some targets →
  dict_item targets key_block = Ok block →
  block_type_name block = name_block ∨ block_type_name block = name_if →
  notify_emu_END insn w
  = (mkWorld (self w) (crefs w ++ [(ea insn, ea insn + size insn, fl_F)]) (drefs w),
     Ok 1).
Proof.
  intros Hfl Hnf Hbt Hitem Hty. unfold notify_emu_END.
  unfold mbind, SE_bind, add_cref, modify, get, lift, mret, SE_ret. simpl.
  rewrite Hfl. simpl. rewrite Hbt. simpl. rewrite Hitem. simpl.
  destruct Hty as [-> | ->]; simpl; by rewrite Hnf.
Qed.

Lemma table_jumps insn (blocks : list BlockV) (tos : list Z) :
  block_end_offset <$> blocks = Some <$> tos →
  ∀ w,
  for_each blocks (fun target_block =>
    add_cref (ea insn) (block_end_offset target_block) fl_JF) w
  = (mkWorld (self w) (crefs w ++ ((fun to => (ea insn, to, fl_JF)) <$> tos)) (drefs w),
     Ok tt).
Proof.
  revert tos. induction blocks as [|b blocks IH]; intros [|to tos] H w; simpl in *;
    try discriminate.
  - by rewrite app_nil_r, world_eta.
  - injection H as Hb Hrest. unfold mbind, SE_bind, add_cref. rewrite Hb. simpl.
    rewrite (IH tos Hrest). simpl. by rewrite <- app_assoc.
Qed.

(** [ev_emu_insn] on a [br_table] that is followed by an [end]: one jump
    from the address of the [br_table] to the [end_offset] of each entry of
    its targets, and nothing else: the processor, and with it
    [deferred_noflows] and [deferred_flows], is as before. *)
Lemma br_table_end_edges decode_insn insn next w targets tos :
  itype insn = itype_BR_TABLE → no_global_operand insn →
  decode_insn (ea insn + size insn) = Some next → itype next = itype_END →
  self_branch_targets (self w) !! ea insn = Some targets →
  block_end_offset <$> dict_values targets = Some <$> tos →
  ∃ ds, emu_insn decode_insn insn w
        = (mkWorld (self w) (crefs w ++ ((fun to => (ea insn, to, fl_JF)) <$> tos)) ds,
           Ok (VInt 1)).
Proof.
  intros Hi Hg Hn Hn' Hbt Htos.
  destruct (emu_insn_flows decode_insn insn w Hg) as [ds ->]. exists ds.
  rewrite (emu_flows_BR_TABLE_END _ _ _ Hi Hn Hn').
  unfold notify_emu_BR_TABLE_END, fmap, SE_fmap, mbind, SE_bind, get. simpl.
  rewrite Hbt. by rewrite (table_jumps insn _ _ Htos).
Qed.

(** Moves to the next instruction of an emulated list, in a world with no
    data segment, and exposes the chain of [ev_emu_insn] on it. *)
Ltac next_insn :=
  unfold mbind at 1, SE_bind; unfold mbind at 1, SE_bind;
  rewrite emu_insn_flows_no_data; [| repeat constructor; done | done].

(** C2, as the code has it. For the body [[Loop, Br(0), End]] placed at any
    address [start] (the [br] at [start + 2], the [end] at [start + 4], the
    loop ending at [start + 5]), emulating the three instructions in order
    adds four code cross-references: the fallthrough of the [loop] into the
    [br], the fallthrough of the [br] into the [end], the jump of the [br]
    to the [end_offset] of the loop, queued on the [end] and added there, and
    the jump from the [end] back to the start of the loop. The [br] marks
    the [end] in [deferred_noflows]; the [end] of a loop does not read the
    mark and adds no fallthrough. *)
Theorem loop_br_end_edges (start : Z) :
  let body := [Loop; Br 0; End_] in
  let insns := insns_of start body in
  ∃ bt w,
    _compute_function_branch_targets start body = Ok bt
    ∧ emulate (decode_in insns) insns (loaded bt) = (w, Ok tt)
    ∧ crefs w = [(start, start + 2, fl_F); (start + 2, start + 4, fl_F);
                 (start + 4, start + 5, fl_JF); (start + 4, start, fl_JF)]
    ∧ self_deferred_noflows (self w) !! (start + 4) = Some true.
Proof.
  intros body insns. subst body insns.
  eexists _, _. split.
  { unfold _compute_function_branch_targets. simpl run. simpl.
    unfold returned_targets. simpl. rewrite !fmap_insert, fmap_empty. simpl.
    reflexivity. }
  unfold emulate. cbn [insns_of for_each].
  change (row_of (op_id Loop)) with (itype_LOOP, INSN_ENTER_BLOCK).
  change (row_of (op_id (Br 0))) with (itype_BR, INSN_BRANCH).
  change (row_of (op_id End_)) with (itype_END, INSN_LEAVE_BLOCK).
  cbn [fst snd len Loop Br End_].
  set (i1 := insn_at start _ _ _). set (i2 := insn_at (start + 2) _ _ _).
  set (i3 := insn_at (start + 2 + 2) _ _ _). set (dec := decode_in _).
  assert (dec (ea i2 + size i2) = Some i3) as D2.
  { subst dec. unfold decode_in. simpl. rewrite !bool_decide_eq_false_2 by lia.
    by rewrite bool_decide_eq_true_2. }
  unfold ev_emu_insn, ida_entry_point, no_exceptions.
  (* the loop *)
  next_insn.
  rewrite emu_flows_fallthrough; [| set_solver | done].
  unfold mret at 1, SE_ret.
  (* the br, followed by the end *)
  next_insn.
  rewrite (emu_flows_BR_END dec i2 i3 eq_refl D2 eq_refl).
  unfold fmap, SE_fmap.
  erewrite notify_emu_BR_END_effect; cycle 1.
  { simpl. rewrite lookup_insert_ne by lia. apply lookup_insert_eq. }
  { reflexivity. }
  unfold mret at 1, SE_ret.
  (* the end *)
  next_insn.
  rewrite (emu_flows_END dec i3 eq_refl eq_refl).
  unfold fmap, SE_fmap.
  erewrite notify_emu_END_loop; cycle 1.
  { simpl. apply lookup_insert_eq. }
  { simpl. apply lookup_insert_eq. }
  { reflexivity. }
  { reflexivity. }
  unfold mret, SE_ret. simpl.
  split; [reflexivity|]. split.
  - replace (start + 4) with (start + 2 + 2) by lia.
    replace (start + 5) with (start + 2 + 2 + 1) by lia. reflexivity.
  - replace (start + 4) with (start + 2 + 2) by lia. apply lookup_insert_eq.
Qed.

(** C2 does not hold as stated: for the body at address 100 the edges that
    leave the [br] (102) and the [end] (104) are not just the fallthrough and
    the back edge,
    since the jump of the [br] to the end of the loop (105) is added at the
    [end] as well, and the [br] has marked the [end] in [deferred_noflows]. *)
Lemma loop_br_end_not_two_edges :
  ∃ w, emulated_body 100 [Loop; Br 0; End_] = Ok w
    ∧ edges_from [102; 104] (crefs w)
      = [(102, 104, fl_F); (104, 105, fl_JF); (104, 100, fl_JF)]
    ∧ ¬ (∀ e, e ∈ edges_from [102; 104] (crefs w)
              ↔ e ∈ [(102, 104, fl_F); (104, 100, fl_JF)])
    ∧ self_deferred_noflows (self w) !! 104 = Some true.
Proof.
  eexists. split; [vm_compute; reflexivity|].
  split; [vm_compute; reflexivity|]. split; [|vm_compute; reflexivity].
  intros H. specialize (H (104, 105, fl_JF)).
  assert ((104, 105, fl_JF) ∈ [(102, 104, fl_F); (104, 100, fl_JF)]) as Hin.
  { apply H. vm_compute. apply list_elem_of_In. simpl. tauto. }
  apply list_elem_of_In in Hin. simpl in Hin.
  destruct Hin as [Hin|[Hin|[]]]; discriminate Hin.
Qed.

(** C3 at a concrete body: in [[Block, BrTable([], 0), End, End]] at address
    100 the [br_table] (102) adds its jump to the end of the block (105) from
    its own address and marks nothing, so the [end] (104) that follows it
    adds a fallthrough; in the same body with [Br(0)] in place of the
    [br_table], the [br] does mark the [end], which then adds no fallthrough. *)
Theorem br_table_end_leaves_end_unmarked :
  (∃ w, emulated_body 100 [Block_; BrTable [] 0; End_; End_] = Ok w
     ∧ crefs w = [(100, 102, fl_F); (102, 105, fl_JF); (104, 105, fl_F)]
     ∧ self_deferred_noflows (self w) = ∅
     ∧ self_deferred_flows (self w) = ∅)
  ∧ (∃ w, emulated_body 100 [Block_; Br 0; End_; End_] = Ok w
     ∧ crefs w = [(100, 102, fl_F); (102, 104, fl_F); (104, 105, fl_JF)]
     ∧ self_deferred_noflows (self w) !! 104 = Some true).
Proof.
  split; eexists; (split; [vm_compute; reflexivity|]); repeat split.
Qed.

(** ** Module parser *)

Lemma dict_get_set {K V} `{EqDecision K} (d : dict K V) (k k' : K) (v : V) :
  dict_get (dict_set d k v) k' = if decide (k = k') then Some v else dict_get d k'.
Proof.
  induction d as [|[k0 v0] d IH]; simpl.
  - done.
  - destruct (decide (k0 = k)) as [->|Hne]; simpl.
    + by destruct (decide (k = k')).
    + rewrite IH. destruct (decide (k0 = k')) as [->|Hne'].
      * by destruct (decide (k = k')); [congruence|].
      * done.
Qed.

Lemma dict_set_length_fresh {K V} `{EqDecision K} (d : dict K V) (k : K) (v : V) :
  dict_get d k = None → length (dict_set d k v) = S (length d).
Proof.
  induction d as [|[k0 v0] d IH]; simpl; [done|].
  destruct (decide (k0 = k)); [done|]. simpl. intros H. by rewrite IH.
Qed.

(** The invariant of the loop of [_parse_data]: the keys so far are below
    [i], no [ea] so far is above [pcur], and the [ea] grow with the index. *)
Lemma data_loop_increasing entries :
  Forall wf_entry entries →
  ∀ pcur i data result,
  (∀ k a, dict_get data k = Some a → (k < i)%N ∧ dt_ea a ≤ pcur) →
  increasing_ea data →
  data_loop entries pcur i data = Ok result →
  increasing_ea result.
Proof.
  induction 1 as [|entry entries Hwf _ IH]; intros pcur i data result Hinv Hinc; simpl.
  - by intros [= <-].
  - destruct (data_offset (d_offset entry)) as [offset|]; simpl; [|done].
    destruct Hwf as (Hi & Ho & Hs & Hd). unfold size_of_entry.
    apply IH.
    + intros k a. rewrite dict_get_set. destruct (decide (i = k)) as [<-|Hne].
      * intros [= <-]. simpl. split; lia.
      * intros Hk. destruct (Hinv k a Hk). split; lia.
    + intros k a b. rewrite !dict_get_set.
      destruct (decide (i = k)) as [Heq|Hne], (decide (i = (k + 1)%N)) as [Heq'|Hne'].
      * lia.
      * intros _ Hb. destruct (Hinv _ _ Hb). lia.
      * intros Ha [= <-]. simpl. destruct (Hinv _ _ Ha). lia.
      * apply Hinc.
Qed.

(** C9. When the entries of the data section are as the decoder produces
    them, the content addresses that [_parse_data] assigns are strictly
    increasing with the index: the [ea] of segment [i + 1] is greater than
    the [ea] of segment [i]. *)
Theorem parse_data_ea_increasing (sections : list ModuleFragment)
    (entries : list DataSegmentEntry) (table : dict N Data) :
  data_section_entries sections = Ok entries →
  Forall wf_entry entries →
  _parse_data sections = Ok table →
  increasing_ea table.
Proof.
  unfold data_section_entries, _parse_data. intros Hentries Hwf.
  destruct (_get_section sections SEC_DATA) as [data_section|]; simpl in *; [|done].
  destruct (_get_section_offset sections SEC_DATA) as [pdata_section|]; simpl; [|done].
  destruct (offset_of_data_payload (data data_section)) as [off|]; simpl; [|done].
  destruct (section_payload data_section) as [pl|]; simpl in *; [|done].
  destruct (data_entries pl) as [[len_count entries']|]; simpl in *; [|done].
  injection Hentries as ->.
  apply (data_loop_increasing entries Hwf); [done|].
  intros i a b Ha. done.
Qed.

Lemma parse_data_ea_increasing_witness :
  ∃ entries data,
    data_section_entries module_data = Ok entries
    ∧ Forall wf_entry entries
    ∧ _parse_data module_data = Ok data
    ∧ dict_values data
      = [ mkData 0 1024 16 3 [1; 2; 3]; mkData 1 2048 25 0 []; mkData 2 0 30 1 [7] ]
    ∧ increasing_ea data.
Proof.
  eexists _, _.
  assert (Forall wf_entry
            [ mkDataSegmentEntry 0 [mkInstruction OP_I32_CONST (I32ConstImm 1024) 2; End_]
                3 [1; 2; 3] 1 3 1 3;
              mkDataSegmentEntry 0 [mkInstruction OP_I32_CONST (I32ConstImm 2048) 3; End_]
                0 [] 1 4 1 0;
              mkDataSegmentEntry 0 [mkInstruction OP_GET_GLOBAL (GlobalVarXsImm 0) 2; End_]
                1 [7] 1 3 1 1 ]) as Hwf.
  { repeat constructor; simpl; lia. }
  split; [reflexivity|]. split; [exact Hwf|]. split; [reflexivity|].
  split; [reflexivity|].
  exact (parse_data_ea_increasing module_data _ _ eq_refl Hwf eq_refl).
Defined.

(** ** Instruction decoder *)

(** C7, as the code has it. When the byte that [ev_ana_insn] reads is not a
    key of the opcode table, the decoder returns 0, its failure value, and
    raises nothing: all it has done to the instruction is to take that one
    byte. No exception that carries the byte is produced. *)
Theorem ana_insn_unknown_opcode_returns_0 (OPCODE_MAP : gmap Z Opcode)
    (insns : gmap Z insn_row) (get_byte : Z → Z)
    (decode_bytecode : list Z → Result Instruction) (insn : insn_t) :
  OPCODE_MAP !! get_byte (ea insn + size insn) = None →
  ana_insn OPCODE_MAP insns get_byte decode_bytecode insn
  = (mkInsn (ea insn) (itype insn) (size insn + 1) (Op1 insn) (Op2 insn) (Op3 insn)
       (feature insn),
     Ok (VInt 0))
  ∧ ev_ana_insn OPCODE_MAP insns get_byte decode_bytecode tt insn
    = (mkInsn (ea insn) (itype insn) (size insn + 1) (Op1 insn) (Op2 insn) (Op3 insn)
         (feature insn),
       Ok (VInt 0)).
Proof.
  intros H.
  assert (ana_insn OPCODE_MAP insns get_byte decode_bytecode insn
          = (mkInsn (ea insn) (itype insn) (size insn + 1) (Op1 insn) (Op2 insn)
               (Op3 insn) (feature insn), Ok (VInt 0))) as Hana.
  { unfold ana_insn, mbind, SE_bind, get_next_byte. by rewrite H. }
  split; [exact Hana|].
  unfold ev_ana_insn, ida_entry_point, no_exceptions. by rewrite Hana.
Qed.

Lemma ana_insn_unknown_opcode_returns_0_witness :
  opcode_map_sample !! bytes_ff (ea (fresh_insn 0) + size (fresh_insn 0)) = None
  ∧ ana_insn opcode_map_sample insns_sample bytes_ff decode_one_byte (fresh_insn 0)
    = (mkInsn 0 (itype_other 0) 1 void_op void_op void_op 0, Ok (VInt 0)).
Proof.
  split; [reflexivity|].
  exact (proj1 (ana_insn_unknown_opcode_returns_0 opcode_map_sample insns_sample
                  bytes_ff decode_one_byte (fresh_insn 0) eq_refl)).
Defined.

(** C7 does not hold as stated: on the byte [0xff], which the sample table
    lacks, the decoder raises no exception at all, neither from its body nor
    from the entry point: it returns 0. *)
Lemma unknown_opcode_raises_nothing :
  opcode_map_sample !! 0xff = None
  ∧ ¬ (∃ e, (ana_insn opcode_map_sample insns_sample bytes_ff decode_one_byte
               (fresh_insn 0)).2 = Raise e)
  ∧ (ev_ana_insn opcode_map_sample insns_sample bytes_ff decode_one_byte tt
       (fresh_insn 0)).2 = Ok (VInt 0).
Proof.
  split; [reflexivity|]. split; [|reflexivity].
  intros [e He]. vm_compute in He. discriminate He.
Qed.

(** ** Entry points *)

(** C10. The wrapper that [no_exceptions] builds returns what the wrapped
    function returns when it raises nothing, returns 0 when it raises
    anything, and never raises; so no exception leaves an entry point. *)
Theorem no_exceptions_never_raises :
  (∀ (S A : Type) (f : A → SE S value) (args : A) (s : S),
      match f args s with
      | (s', Ok v) => no_exceptions f args s = (s', Ok v)
      | (s', Raise _) => no_exceptions f args s = (s', Ok (VInt 0))
      end)
  ∧ (∀ (S A : Type) (f : A → SE S value) (args : A) (s : S) (e : exn),
      (no_exceptions f args s).2 ≠ Raise e)
  ∧ (∀ decode_insn insn w e, (ev_emu_insn decode_insn insn w).2 ≠ Raise e)
  ∧ (∀ OPCODE_MAP insns get_byte decode_bytecode insn e,
      (ev_ana_insn OPCODE_MAP insns get_byte decode_bytecode tt insn).2 ≠ Raise e)
  ∧ (∀ WASM_TYPE_NAMES decoded self e,
      (ev_oldfile WASM_TYPE_NAMES decoded self).2 ≠ Raise e)
  ∧ (∀ insn self e, (ev_may_be_func insn self).2 ≠ Raise e).
Proof.
  assert (∀ (S A : Type) (f : A → SE S value) (args : A) (s : S) (e : exn),
             (no_exceptions f args s).2 ≠ Raise e) as Hnever.
  { intros S A f args s e. unfold no_exceptions.
    by destruct (f args s) as [s' [v|e']]. }
  split; [|split; [exact Hnever|repeat split; intros; apply Hnever]].
  intros S A f args s. unfold no_exceptions. by destruct (f args s) as [s' [v|e']].
Qed.

(** The [br_table] that no [end] follows makes [ev_emu_insn] fail inside
    with [NotImplementedError]; the entry point returns 0. *)
Example ev_emu_insn_swallows :
  ∀ insn, br_table_then_nop !! 0%nat = Some insn →
  (emu_insn (decode_in br_table_then_nop) insn (loaded ∅)).2 = Raise NotImplementedError
  ∧ (ev_emu_insn (decode_in br_table_then_nop) insn (loaded ∅)).2 = Ok (VInt 0).
Proof. intros insn [= <-]. split; reflexivity. Qed.

(** ** The function table *)

Lemma get_section_from_raise l k :
  ∀ i e, get_section_from i l k = Raise e →
  e = SectionNotFoundError k ∨ e = AttributeError.
Proof.
  induction l as [|f l IH]; intros i e; simpl.
  - intros [= <-]. by left.
  - destruct (decide (i = 0%nat)); [apply IH|].
    destruct (data_id (data f)) as [id|e'] eqn:Hid; simpl.
    + destruct (decide (id ≠ k)); [apply IH|done].
    + intros [= <-]. right. destruct (data f); simpl in Hid; congruence.
Qed.

Lemma imported_functions_loop_spec types entries :
  ∀ fi acc res,
  imported_functions_loop types entries fi acc = Ok res →
  (∀ k, (fi ≤ k)%N → dict_get acc k = None) →
  let n := N.of_nat
             (length (filter (fun e => im_kind e = WASM_EXTERNAL_KIND_FUNCTION) entries)) in
  (∀ k, (k < fi)%N → dict_get res k = dict_get acc k)
  ∧ (∀ k, (fi ≤ k < fi + n)%N →
       ∃ module name type,
         dict_get res k = Some (ImportedFunction k module name type true false))
  ∧ (∀ k, (fi + n ≤ k)%N → dict_get res k = None)
  ∧ length res = (length acc + N.to_nat n)%nat.
Proof.
  induction entries as [|entry entries IH]; intros fi acc res; simpl.
  - intros [= <-] Hacc. split; [done|]. split; [intros k Hk; lia|].
    split; [intros k Hk; apply Hacc; lia|lia].
  - destruct (decide (im_kind entry ≠ WASM_EXTERNAL_KIND_FUNCTION)) as [Hk|Hk].
    + rewrite filter_cons_False by done. apply IH.
    + assert (im_kind entry = WASM_EXTERNAL_KIND_FUNCTION) as Hkind
        by (destruct (decide (im_kind entry = WASM_EXTERNAL_KIND_FUNCTION)); [done|contradiction]).
      rewrite filter_cons_True by done. simpl length.
      destruct (import_type_index (im_type entry)) as [type_index|]; simpl; [|done].
      destruct (py_index types type_index) as [ftype|]; simpl; [|done].
      destruct (decode_utf8 (module_str entry)) as [module|]; simpl; [|done].
      destruct (decode_utf8 (im_field_str entry)) as [name|]; simpl; [|done].
      intros Hloop Hacc.
      apply IH in Hloop as (Hlow & Hmid & Hhigh & Hlen).
      2:{ intros k Hk'. rewrite dict_get_set. destruct (decide (fi = k)); [lia|].
          apply Hacc. lia. }
      split; [|split; [|split]].
      * intros k Hk'. rewrite Hlow by lia. rewrite dict_get_set.
        destruct (decide (fi = k)); [lia|done].
      * intros k Hk'. destruct (decide (k = fi)) as [->|Hne].
        -- rewrite Hlow by lia. rewrite dict_get_set.
           destruct (decide (fi = fi)); [eauto|done].
        -- apply Hmid. lia.
      * intros k Hk'. apply Hhigh. lia.
      * rewrite Hlen. rewrite dict_set_length_fresh by (apply Hacc; lia). lia.
Qed.

Lemma imported_functions_loop_raise types entries :
  ∀ fi acc e section_id,
  imported_functions_loop types entries fi acc = Raise e →
  e ≠ SectionNotFoundError section_id.
Proof.
  induction entries as [|entry entries IH]; intros fi acc e sid; simpl; [done|].
  destruct (decide (im_kind entry ≠ WASM_EXTERNAL_KIND_FUNCTION)); [apply IH|].
  destruct (im_type entry) as [type_index| |]; simpl; try (intros [= <-]; done).
  unfold py_index. destruct (types !! N.to_nat type_index); simpl; [|intros [= <-]; done].
  destruct (module_str entry); simpl; [|intros [= <-]; done].
  destruct (im_field_str entry); simpl; [|intros [= <-]; done].
  apply IH.
Qed.

Lemma exported_functions_loop_spec entries :
  ∀ acc res,
  exported_functions_loop entries acc = Ok res →
  ∀ k,
  (is_Some (res !! k) ↔
     is_Some (acc !! k)
     ∨ Exists (fun e => ex_index e = k)
         (filter (fun e => ex_kind e = WASM_EXTERNAL_KIND_FUNCTION) entries))
  ∧ (∀ ef, res !! k = Some ef →
       acc !! k = Some ef
       ∨ ∃ e, e ∈ filter (fun e => ex_kind e = WASM_EXTERNAL_KIND_FUNCTION) entries
              ∧ ex_index e = k ∧ ex_field_str e = Some (ef_name ef)).
Proof.
  induction entries as [|entry entries IH]; intros acc res; simpl.
  - intros [= <-] k. split; [|auto]. rewrite filter_nil, Exists_nil. tauto.
  - destruct (decide (ex_kind entry ≠ WASM_EXTERNAL_KIND_FUNCTION)) as [Hk|Hk].
    + rewrite filter_cons_False by done. apply IH.
    + assert (ex_kind entry = WASM_EXTERNAL_KIND_FUNCTION) as Hkind
        by (destruct (decide (ex_kind entry = WASM_EXTERNAL_KIND_FUNCTION)); [done|contradiction]).
      rewrite filter_cons_True by done.
      destruct (ex_field_str entry) as [name|] eqn:Hname; simpl; [|done].
      intros Hloop k. destruct (IH _ _ Hloop k) as [Hsome Hval]. split.
      * rewrite Hsome, Exists_cons, lookup_insert.
        destruct (decide (ex_index entry = k)) as [Heq|Hne].
        -- split; [intros _; right; by left|intros _; left; eauto].
        -- tauto.
      * intros ef Hef. destruct (Hval ef Hef) as [Hacc|(e & He & Hi & Hn)].
        -- rewrite lookup_insert in Hacc.
           destruct (decide (ex_index entry = k)) as [Heq|Hne]; [|by left].
           injection Hacc as <-. right. exists entry. simpl.
           split; [apply list_elem_of_here|done].
        -- right. exists e. split; [by apply list_elem_of_further|done].
Qed.

Lemma exported_functions_loop_raise entries :
  ∀ acc e section_id,
  exported_functions_loop entries acc = Raise e →
  e ≠ SectionNotFoundError section_id.
Proof.
  induction entries as [|entry entries IH]; intros acc e sid; simpl; [done|].
  destruct (decide (ex_kind entry ≠ WASM_EXTERNAL_KIND_FUNCTION)); [apply IH|].
  destruct (ex_field_str entry); simpl; [apply IH|intros [= <-]; done].
Qed.

Lemma functions_loop_spec n_imported exported_functions bodies function_payload
    type_payload range :
  NoDup range →
  ∀ pbody acc res,
  functions_loop n_imported exported_functions bodies function_payload type_payload
    range pbody acc = Ok res →
  (∀ i, i ∈ range →
     ∃ name offset type exported local_types size,
       dict_get res (N.of_nat (n_imported + i))
       = Some (DefinedFunction (N.of_nat (n_imported + i)) name offset type exported
                 false local_types size)
       ∧ match exported_functions !! N.of_nat (n_imported + i) with
         | Some ef => name = ef_name ef ∧ exported = true
         | None =>
             name = "$func" +:+ format_d (N.of_nat (n_imported + i)) ∧ exported = false
         end)
  ∧ (∀ k, (∀ i, i ∈ range → k ≠ N.of_nat (n_imported + i)) →
       dict_get res k = dict_get acc k).
Proof.
  induction 1 as [|i range Hi Hnodup IH]; intros pbody acc res; simpl.
  - intros [= <-]. split; [|done]. intros i Hi. by apply elem_of_nil in Hi.
  - destruct (py_index bodies (N.of_nat i)) as [body|]; simpl; [|done].
    destruct (function_types function_payload) as [ftypes|]; simpl; [|done].
    destruct (py_index ftypes (N.of_nat i)) as [type_index|]; simpl; [|done].
    destruct (type_entries type_payload) as [types|]; simpl; [|done].
    destruct (py_index types type_index) as [ftype|]; simpl; [|done].
    destruct (exported_functions !! N.of_nat (n_imported + i)) as [ef|] eqn:Hef;
      intros Hloop; apply IH in Hloop as [Hin Hout]; (split; [intros j Hj|intros k Hk]).
    + apply elem_of_cons in Hj as [->|Hj]; [|by apply Hin].
      rewrite Hout, dict_get_set.
      * destruct (decide (N.of_nat (n_imported + i) = N.of_nat (n_imported + i)));
          [|done]. rewrite Hef. eauto 10.
      * intros j Hj Heq. assert (i = j) as -> by lia. done.
    + rewrite Hout, dict_get_set.
      * destruct (decide (N.of_nat (n_imported + i) = k)) as [<-|]; [|done].
        exfalso. eapply Hk; [apply list_elem_of_here|done].
      * intros j Hj. apply Hk. by apply list_elem_of_further.
    + apply elem_of_cons in Hj as [->|Hj]; [|by apply Hin].
      rewrite Hout, dict_get_set.
      * destruct (decide (N.of_nat (n_imported + i) = N.of_nat (n_imported + i)));
          [|done]. rewrite Hef. eauto 10.
      * intros j Hj Heq. assert (i = j) as -> by lia. done.
    + rewrite Hout, dict_get_set.
      * destruct (decide (N.of_nat (n_imported + i) = k)) as [<-|]; [|done].
        exfalso. eapply Hk; [apply list_elem_of_here|done].
      * intros j Hj. apply Hk. by apply list_elem_of_further.
Qed.

(** What [_parse_imported_functions] returns, with a missing section taken
    for no import: the keys are the indices below the number of function
    imports. *)
Lemma parse_imported_functions_spec sections type_section imported :
  _get_section sections SEC_TYPE = Ok type_section →
  except_SectionNotFoundError (_parse_imported_functions sections) [] = Ok imported →
  let n := N.of_nat (length (module_function_imports sections)) in
  length imported = N.to_nat n
  ∧ (∀ k, (k < n)%N →
       ∃ module name type,
         dict_get imported k = Some (ImportedFunction k module name type true false))
  ∧ (∀ k, (n ≤ k)%N → dict_get imported k = None).
Proof.
  intros Ht. unfold _parse_imported_functions, module_function_imports. rewrite Ht.
  unfold _get_section.
  destruct (get_section_from 0 sections SEC_IMPORT) as [import_section|e] eqn:Hi; simpl.
  - unfold section_payload, data_payload.
    destruct (data import_section) as [?|? ? ? ipl]; simpl; [done|].
    destruct ipl as [| lc entries | | | | | |]; simpl; try done.
    destruct (data type_section) as [?|? ? ? tpl]; simpl; [done|].
    destruct tpl as [lc' types| | | | | | |]; simpl; try done.
    destruct (imported_functions_loop types entries 0 []) as [res|e] eqn:Hloop; simpl.
    + intros [= <-].
      destruct (imported_functions_loop_spec _ _ _ _ _ Hloop) as (_ & Hmid & Hhigh & Hlen);
        [done|].
      split; [by rewrite Hlen|]. split.
      * intros k Hk. apply Hmid. lia.
      * intros k Hk. apply Hhigh. lia.
    + intros He. destruct e; try discriminate He.
      by eapply imported_functions_loop_raise in Hloop.
  - apply get_section_from_raise in Hi as [-> | ->]; simpl; [|done].
    intros [= <-]. split; [done|]. split; [intros k Hk; lia|done].
Qed.

(** What [_parse_exported_functions] returns, with a missing section taken
    for no export: an index is a key exactly when a function export names
    it, and the name kept for it is the field name of such an export. *)
Lemma parse_exported_functions_spec sections exported k :
  except_SectionNotFoundError (_parse_exported_functions sections) ∅ = Ok exported →
  (is_Some (exported !! k) ↔
     Exists (fun e => ex_index e = k) (module_function_exports sections))
  ∧ (∀ ef, exported !! k = Some ef →
       ∃ e, e ∈ module_function_exports sections ∧ ex_index e = k
            ∧ ex_field_str e = Some (ef_name ef)).
Proof.
  unfold _parse_exported_functions, module_function_exports, _get_section.
  destruct (get_section_from 0 sections SEC_EXPORT) as [export_section|e] eqn:Hx; simpl.
  - unfold section_payload, data_payload.
    destruct (data export_section) as [?|? ? ? pl]; simpl; [done|].
    destruct pl as [| | | | lc entries | | |]; simpl; try done.
    destruct (exported_functions_loop entries ∅) as [res|e] eqn:Hloop; simpl.
    + intros [= <-].
      destruct (exported_functions_loop_spec _ _ _ Hloop k) as [Hsome Hval]. split.
      * rewrite Hsome, lookup_empty. split; [intros [[? [=]]|]; done|by right].
      * intros ef Hef. destruct (Hval ef Hef) as [Hempty|]; [|done].
        by rewrite lookup_empty in Hempty.
    + intros He. destruct e; try discriminate He.
      by eapply exported_functions_loop_raise in Hloop.
  - apply get_section_from_raise in Hx as [-> | ->]; simpl; [|done].
    intros [= <-]. rewrite lookup_empty, Exists_nil. split.
    + split; [intros [? [=]]|done].
    + intros ef [=].
Qed.

(** C5. When [_parse_functions] returns, with [n] function imports in the
    import section (none when the section is missing) and [m] bodies
    declared by the code section, the table maps each index below [n] to an
    imported function of that index, and each index [n + i] with [i < m] to
    a defined function of that index; the defined function is named by the
    field name of a function export of its index and marked exported when
    there is such an export, and is named ['$func<index>'] and not marked
    exported otherwise. No index from [n + m] on is in the table. *)
Theorem parse_functions_index_space (sections : list ModuleFragment)
    (functions : dict N Function) :
  _parse_functions sections = Ok functions →
  let n := N.of_nat (length (module_function_imports sections)) in
  let m := module_body_count sections in
  (∀ k, (k < n)%N →
     ∃ module name type,
       dict_get functions k = Some (ImportedFunction k module name type true false))
  ∧ (∀ i, (i < m)%N →
       ∃ name offset type exported local_types size,
         dict_get functions (n + i)%N
         = Some (DefinedFunction (n + i) name offset type exported false local_types size)
         ∧ named_by_exports (module_function_exports sections) (n + i) name exported)
  ∧ (∀ k, (n + m ≤ k)%N → dict_get functions k = None).
Proof.
  unfold _parse_functions. intros H.
  destruct (except_SectionNotFoundError (_parse_imported_functions sections) [])
    as [imported|] eqn:Himp; simpl in H; [|done].
  destruct (except_SectionNotFoundError (_parse_exported_functions sections) ∅)
    as [exported|] eqn:Hexp; simpl in H; [|done].
  destruct (_get_section sections SEC_FUNCTION) as [function_section|]; simpl in H; [|done].
  unfold module_body_count.
  destruct (_get_section sections SEC_CODE) as [code_section|]; simpl in H; [|done].
  destruct (_get_section_offset sections SEC_CODE) as [pcode|]; simpl in H; [|done].
  destruct (_get_section sections SEC_TYPE) as [type_section|] eqn:Ht; simpl in H; [|done].
  destruct (section_payload code_section) as [payload|]; simpl in H; [|done].
  change (Ok payload ≫= payload_bodies) with (payload_bodies payload).
  destruct (offset_of_data_payload (data code_section)) as [off|]; simpl in H; [|done].
  destruct (payload_bodies payload) as [[[len_count count] bodies]|];
    simpl in H; [|done].
  destruct (section_payload function_section) as [function_payload|]; simpl in H; [|done].
  destruct (section_payload type_section) as [type_payload|]; simpl in H; [|done].
  destruct (parse_imported_functions_spec _ _ _ Ht Himp) as (Hlen & Hlow & Hhigh).
  apply functions_loop_spec in H as [Hin Hout]; [|apply NoDup_seq].
  cbv zeta. set (n := N.of_nat (length (module_function_imports sections))) in *.
  split; [|split].
  - intros k Hk. rewrite Hout; [by apply Hlow|]. intros i _. lia.
  - intros i Hi.
    destruct (Hin (N.to_nat i)) as (name & offset & type & exp & lt & size & Hget & Hname).
    { apply elem_of_seq. lia. }
    replace (N.of_nat (length imported + N.to_nat i)) with (n + i)%N in * by lia.
    exists name, offset, type, exp, lt, size. split; [exact Hget|].
    destruct (parse_exported_functions_spec sections exported (n + i)%N Hexp)
      as [Hsome Hval].
    unfold named_by_exports.
    destruct (exported !! (n + i)%N) as [ef|] eqn:Hef.
    + destruct Hname as [-> ->]. rewrite decide_True by (apply Hsome; eauto).
      split; [by apply Hval|done].
    + rewrite decide_False; [done|]. intros Hex. apply Hsome in Hex as [? [=]].
  - intros k Hk. rewrite Hout; [apply Hhigh; lia|].
    intros i Hi%elem_of_seq. lia.
Qed.

Lemma parse_functions_index_space_witness :
  ∃ functions,
    _parse_functions module_scenario_D = Ok functions
    ∧ N.of_nat (length (module_function_imports module_scenario_D)) = 2%N
    ∧ module_body_count module_scenario_D = 1%N
    ∧ (∃ name offset type exported local_types size,
         dict_get functions 2%N
         = Some (DefinedFunction 2 name offset type exported false local_types size)
         ∧ named_by_exports (module_function_exports module_scenario_D) 2 name exported)
    ∧ fn_name <$> dict_get functions 2%N = Some "main"
    ∧ dict_get functions 3%N = None.
Proof.
  eexists. split; [reflexivity|]. split; [reflexivity|]. split; [reflexivity|].
  pose proof (parse_functions_index_space module_scenario_D _ eq_refl) as (_ & Hdef & Hhigh).
  split; [exact (Hdef 0%N eq_refl)|]. split; [reflexivity|].
  exact (Hhigh 3%N ltac:(vm_compute; discriminate)).
Defined.

(** ** Missing sections *)

(** C6 at a concrete module. Whenever the import section is missing,
    [_parse_globals] raises before it reads the global section. In
    [module_no_import], whose global section defines one global, [load]
    therefore leaves the table of globals empty, while the functions, whose
    parser catches the missing import section, are parsed; with an import
    section that imports nothing, the same global is parsed. And when the
    code section is missing, [_compute_branch_targets] raises
    [SectionNotFoundError] out of [load], which does not complete. *)
Theorem missing_import_section_drops_globals :
  (∀ WASM_TYPE_NAMES sections e,
      _get_section sections SEC_IMPORT = Raise e →
      _parse_globals WASM_TYPE_NAMES sections = Raise e)
  ∧ _get_section module_no_import SEC_IMPORT = Raise (SectionNotFoundError SEC_IMPORT)
  ∧ is_Ok (_get_section module_no_import SEC_GLOBAL) = true
  ∧ (load type_names_sample module_no_import init_processor).2 = Ok tt
  ∧ self_globals (load type_names_sample module_no_import init_processor).1 = []
  ∧ dict_keys (self_functions (load type_names_sample module_no_import init_processor).1)
    = [0%N]
  ∧ self_globals (load type_names_sample module_empty_import init_processor).1
    = [(0%N, mkGlobal 0 26 "i32" "global_0")]
  ∧ (load type_names_sample module_no_code init_processor).2
    = Raise (SectionNotFoundError SEC_CODE).
Proof.
  split.
  - intros names sections e He. unfold _parse_globals, _parse_imported_globals.
    by rewrite He.
  - repeat split.
Qed.

(** * Further properties *)

(** ** The resolver: what the pass maintains *)

Lemma same_frame_refl bs : same_frame bs bs.
Proof. split; [done|]. intros i b Hb. eauto. Qed.

Lemma same_frame_trans bs1 bs2 bs3 :
  same_frame bs1 bs2 → same_frame bs2 bs3 → same_frame bs1 bs3.
Proof.
  intros [Hl1 H1] [Hl2 H2]. split; [congruence|].
  intros i b3 Hb3. destruct (H2 i b3 Hb3) as (b2 & Hb2 & ? & ? & ?).
  destruct (H1 i b2 Hb2) as (b1 & Hb1 & ? & ? & ?).
  exists b1. repeat split; congruence.
Qed.

Lemma same_frame_insert bs i b b' :
  bs !! i = Some b → index b' = index b → depth b' = depth b →
  end_offset b' = end_offset b → same_frame bs (<[i := b']> bs).
Proof.
  intros Hb Hi Hd He. split; [by rewrite length_insert|].
  intros j bj. destruct (decide (i = j)) as [<-|Hne].
  - rewrite list_lookup_insert_eq by (eapply lookup_lt_Some; eauto).
    intros [= <-]. eauto.
  - rewrite list_lookup_insert_ne by done. eauto.
Qed.

Lemma br_table_loop_frame stack depths :
  ∀ blocks targets blocks' targets',
  br_table_loop stack depths blocks targets = Ok (blocks', targets') →
  same_frame blocks blocks'.
Proof.
  induction depths as [|d depths IH]; intros blocks targets blocks' targets'; simpl.
  - intros [= <- _]. apply same_frame_refl.
  - destruct (py_index stack d) as [i|]; simpl; [|done].
    unfold blocks_item. destruct (blocks !! i) as [b|] eqn:Hb; simpl; [|done].
    intros H. apply IH in H. eapply same_frame_trans; [|exact H].
    by apply (same_frame_insert _ _ b).
Qed.

Lemma br_table_loop_refs stack depths :
  ∀ blocks targets blocks' targets',
  br_table_loop stack depths blocks targets = Ok (blocks', targets') →
  ∀ k i, (k, ref_block i) ∈ targets' →
  (k, ref_block i) ∈ targets ∨ i ∈ stack.
Proof.
  induction depths as [|d depths IH]; intros blocks targets blocks' targets'; simpl.
  - intros [= _ <-]. auto.
  - unfold py_index. destruct (stack !! N.to_nat d) as [i|] eqn:Hd; simpl; [|done].
    destruct (blocks_item blocks i) as [b|]; simpl; [|done].
    intros H k j Hin. destruct (IH _ _ _ _ H k j Hin) as [Hin'|]; [|by right].
    clear -Hin' Hd. induction targets as [|[k0 r0] targets IHt]; simpl in Hin'.
    + apply list_elem_of_singleton in Hin' as [= -> ->]. right.
      eapply list_elem_of_lookup_2; eauto.
    + destruct (decide (k0 = key_depth d)).
      * apply elem_of_cons in Hin' as [[= -> ->]|Hin'].
        -- right. eapply list_elem_of_lookup_2; eauto.
        -- left. by apply list_elem_of_further.
      * apply elem_of_cons in Hin' as [[= -> ->]|Hin'].
        -- left. apply list_elem_of_here.
        -- destruct (IHt Hin'); [left; by apply list_elem_of_further|by right].
Qed.

(** A state whose blocks are reshaped within their frame, and whose map gets
    one more entry with valid references, still satisfies the invariant. *)
Lemma resolver_inv_frame st bs' bt' p' :
  resolver_inv st → same_frame (st_blocks st) bs' →
  (∀ a d k i, bt' !! a = Some d → (k, ref_block i) ∈ d → (i < length bs')%nat) →
  resolver_inv (mkResolver bt' bs' (st_block_stack st) p').
Proof.
  intros (Hnd & Hidx & Hopen & Hclosed & Hrefs) [Hlen Hsame] Hrefs'.
  split; [done|]. split; [|split; [|split]]; simpl.
  - intros i b' Hb'. destruct (Hsame i b' Hb') as (b & Hb & -> & _). eauto.
  - intros j i Hj. destruct (Hopen j i Hj) as (b & Hb & Hd & He).
    destruct (lookup_lt_is_Some_2 bs' i) as [b' Hb'].
    { rewrite <- Hlen. eapply lookup_lt_Some; eauto. }
    destruct (Hsame i b' Hb') as (b0 & Hb0 & _ & Hd' & He').
    exists b'. split; [done|]. simplify_eq. split; congruence.
  - intros i b' Hb' Hni. destruct (Hsame i b' Hb') as (b & Hb & _ & _ & ->). eauto.
  - done.
Qed.

Lemma refs_insert (bt : gmap Z (dict target_key block_ref)) (n : nat) p d :
  (∀ a d k i, bt !! a = Some d → (k, ref_block i) ∈ d → (i < n)%nat) →
  (∀ k i, (k, ref_block i) ∈ d → (i < n)%nat) →
  ∀ a d' k i, <[p := d]> bt !! a = Some d' → (k, ref_block i) ∈ d' → (i < n)%nat.
Proof.
  intros Hbt Hd a d' k i. rewrite lookup_insert.
  destruct (decide (p = a)); [intros [= <-]; apply Hd|apply Hbt].
Qed.

Lemma stack_lt st :
  resolver_inv st → ∀ i, i ∈ st_block_stack st → (i < length (st_blocks st))%nat.
Proof.
  intros (_ & _ & Hopen & _) i [j Hj]%list_elem_of_lookup_1.
  destruct (Hopen j i Hj) as (b & Hb & _). eapply lookup_lt_Some; eauto.
Qed.

Lemma step_resolver_inv offset st bc c st' :
  resolver_inv st → step offset st bc = Ok (c, st') → resolver_inv st'.
Proof.
  intros Hinv. pose proof Hinv as (Hnd & Hidx & Hopen & Hclosed & Hrefs).
  pose proof (stack_lt st Hinv) as Hlt.
  unfold step. repeat case_bool_decide.
  - (* block, loop, if *)
    destruct (new_block_type (op_id bc)) as [ty|]; simpl; [|done].
    intros [= _ <-]. split; [|split; [|split; [|split]]]; simpl.
    + constructor; [|done]. intros Hin%Hlt. lia.
    + intros i b. rewrite lookup_app_Some. intros [Hb|[Hi Hb]]; [eauto|].
      destruct (i - length (st_blocks st))%nat eqn:E; simpl in Hb; [|done].
      injection Hb as <-. simpl. lia.
    + intros [|j] i; simpl.
      * intros [= <-]. eexists. split.
        -- rewrite lookup_app_r by lia. rewrite Nat.sub_diag. reflexivity.
        -- simpl. split; [lia|done].
      * intros Hj. destruct (Hopen j i Hj) as (b & Hb & Hd & He).
        exists b. split; [by apply lookup_app_l_Some|]. split; [|done].
        apply lookup_lt_Some in Hj. lia.
    + intros i b. rewrite lookup_app_Some, not_elem_of_cons.
      intros [Hb|[Hi Hb]] [Hne Hni]; [eauto|].
      apply list_lookup_singleton_Some in Hb as [Hz _]. lia.
    + rewrite length_app. simpl. apply refs_insert.
      * intros a d k i Ha Hi. specialize (Hrefs a d k i Ha Hi). lia.
      * intros k i [= _ <-]%list_elem_of_singleton. lia.
  - (* end *)
    destruct (st_block_stack st) as [|i0 stack'] eqn:Hs.
    + intros [= _ <-]. split; [constructor|]. split; [done|]. simpl.
      split; [intros j i Hj; by rewrite lookup_nil in Hj|]. split.
      * intros i b Hb _. apply (Hclosed i b Hb). apply not_elem_of_nil.
      * apply refs_insert; [done|]. intros k i [=]%list_elem_of_singleton.
    + unfold blocks_item. destruct (st_blocks st !! i0) as [b0|] eqn:Hb0; simpl; [|done].
      intros [= _ <-]. inversion Hnd as [|? ? Hni Hnd']; subst.
      split; [done|]. split; [|split; [|split]]; simpl.
      * intros i b. destruct (decide (i0 = i)) as [<-|Hne].
        -- rewrite list_lookup_insert_eq by (eapply lookup_lt_Some; eauto).
           intros [= <-]. simpl. eauto.
        -- rewrite list_lookup_insert_ne by done. eauto.
      * intros j i Hj. destruct (Hopen (S j) i Hj) as (b & Hb & Hd & He).
        exists b. split; [|split; [simpl in Hd; lia|done]].
        rewrite list_lookup_insert_ne; [done|].
        intros <-. apply Hni. eapply list_elem_of_lookup_2; eauto.
      * intros i b. destruct (decide (i0 = i)) as [<-|Hne].
        -- rewrite list_lookup_insert_eq by (eapply lookup_lt_Some; eauto).
           intros [= <-] _. simpl. eauto.
        -- rewrite list_lookup_insert_ne by done. intros Hb Hni'.
           apply (Hclosed i b Hb). rewrite not_elem_of_cons. done.
      * rewrite length_insert. apply refs_insert; [done|].
        intros k i [= _ <-]%list_elem_of_singleton. eapply lookup_lt_Some; eauto.
  - (* br, br_if *)
    destruct (imm_relative_depth (imm bc)) as [d|]; simpl; [|done].
    unfold py_index. destruct (st_block_stack st !! N.to_nat d) as [i|] eqn:Hd;
      simpl; [|done].
    destruct (blocks_item (st_blocks st) i); simpl; [|done].
    intros [= _ <-]. apply (resolver_inv_frame st); [done|apply same_frame_refl|].
    apply refs_insert; [done|].
    intros k j [= _ <-]%list_elem_of_singleton. apply Hlt.
    eapply list_elem_of_lookup_2; eauto.
  - (* else *)
    destruct (else_scan (st_blocks st) (st_block_stack st)) as [[i|]|] eqn:Hscan;
      simpl; [| |done].
    + unfold blocks_item. destruct (st_blocks st !! i) as [b|] eqn:Hb; simpl; [|done].
      intros [= _ <-]. apply (resolver_inv_frame st); [done| |].
      * by apply (same_frame_insert _ _ b).
      * rewrite length_insert. apply refs_insert; [done|].
        intros k j [= _ <-]%list_elem_of_singleton. eapply lookup_lt_Some; eauto.
    + intros [= _ <-]. by apply (resolver_inv_frame st); [|apply same_frame_refl|].
  - (* br_table *)
    destruct (imm_table_targets (imm bc)) as [depths|]; simpl; [|done].
    destruct (br_table_loop (st_block_stack st) depths (st_blocks st) [])
      as [[blocks' targets]|] eqn:Hloop; simpl; [|done].
    intros [= _ <-].
    pose proof (br_table_loop_frame _ _ _ _ _ _ Hloop) as Hframe.
    apply (resolver_inv_frame st); [done|done|].
    destruct Hframe as [Hlen _]. rewrite <- Hlen. apply refs_insert; [done|].
    intros k i Hin.
    destruct (br_table_loop_refs _ _ _ _ _ _ Hloop k i Hin) as [Hnil|Hst].
    + by apply elem_of_nil in Hnil.
    + by apply Hlt.
  - (* any other instruction *)
    intros [= _ <-]. by apply (resolver_inv_frame st); [|apply same_frame_refl|].
Qed.

Lemma initial_resolver_inv offset : resolver_inv (initial_state offset).
Proof.
  unfold resolver_inv; simpl.
  split; [constructor|]. split; [intros i b Hb; by rewrite lookup_nil in Hb|].
  split; [intros j i Hj; by rewrite lookup_nil in Hj|].
  split; [intros i b Hb; by rewrite lookup_nil in Hb|].
  intros a d k i Ha. by rewrite lookup_empty in Ha.
Qed.

Lemma steps_resolver_inv offset code :
  ∀ st c st', resolver_inv st → steps offset st code = Ok (c, st') → resolver_inv st'.
Proof.
  induction code as [|bc rest IH]; intros st c st' Hinv; simpl.
  - by intros [= _ <-].
  - destruct (step offset st bc) as [[c1 st1]|] eqn:Hstep; simpl; [|done].
    pose proof (step_resolver_inv _ _ _ _ _ Hinv Hstep) as Hinv1.
    destruct c1; [by apply IH|by intros [= _ <-]].
Qed.

(** X1. At every point of the pass over a function body, the block table is
    well formed: the block stored at index [i] carries the index [i], the
    stack holds distinct indices of blocks that are still open, the block at
    position [j] from the top of the stack has for [depth] its height above
    the bottom of the stack, and every block that has left the stack has
    its [end_offset] set. *)
Theorem resolver_pass_invariant (offset : Z) (code : list Instruction)
    (c : control) (st : resolver_state) :
  steps offset (initial_state offset) code = Ok (c, st) →
  NoDup (st_block_stack st)
  ∧ (∀ i b, st_blocks st !! i = Some b → index b = i)
  ∧ (∀ j i, st_block_stack st !! j = Some i →
       ∃ b, st_blocks st !! i = Some b
            ∧ depth b = (length (st_block_stack st) - 1 - j)%nat
            ∧ end_offset b = None)
  ∧ (∀ i b, st_blocks st !! i = Some b → i ∉ st_block_stack st →
       is_Some (end_offset b)).
Proof.
  intros H.
  destruct (steps_resolver_inv _ _ _ _ _ (initial_resolver_inv offset) H)
    as (H1 & H2 & H3 & H4 & _).
  done.
Qed.

Lemma resolver_pass_invariant_witness :
  ∃ st,
    steps 0 (initial_state 0) [Block_; Loop; End_; If_; Br 1] = Ok (Continue, st)
    ∧ st_block_stack st = [2; 0]%nat
    ∧ (depth <$> st_blocks st) = [0; 1; 1]%nat
    ∧ (end_offset <$> st_blocks st) = [None; Some 5; None]
    ∧ (∀ i b, st_blocks st !! i = Some b → index b = i).
Proof.
  eexists. split; [reflexivity|]. split; [reflexivity|]. split; [reflexivity|].
  split; [reflexivity|].
  exact (proj1 (proj2 (resolver_pass_invariant 0 [Block_; Loop; End_; If_; Br 1]
                         Continue _ eq_refl))).
Defined.

(** The pass leaves at a [break] only on an [end] met with an empty stack. *)
Lemma steps_break offset code :
  ∀ st st',
  steps offset st code = Ok (Break, st') →
  ∃ pre bc post st0,
    code = pre ++ bc :: post
    ∧ steps offset st pre = Ok (Continue, st0)
    ∧ op_id bc = OP_END ∧ st_block_stack st0 = []
    ∧ st' = after_function_end offset st0.
Proof.
  induction code as [|bc rest IH]; intros st st'; simpl; [done|].
  destruct (step offset st bc) as [[[] st1]|] eqn:Hstep; simpl; [| |done].
  - intros H. destruct (IH _ _ H) as (pre & bc' & post & st0 & -> & Hpre & Hop & Hs & ->).
    exists (bc :: pre), bc', post, st0. simpl. rewrite Hstep. simpl. done.
  - intros [= <-]. exists [], bc, rest, st. simpl.
    assert (op_id bc = OP_END ∧ st_block_stack st = [] ∧ st1 = after_function_end offset st)
      as (Hop & Hs & ->); [|done].
    revert Hstep. unfold step. repeat case_bool_decide.
    + destruct (new_block_type (op_id bc)); simpl; [|done]. done.
    + assert (op_id bc = OP_END) as Hop
        by (match goal with Hin : op_id bc ∈ [OP_END] |- _ =>
              by apply list_elem_of_singleton in Hin end).
      destruct (st_block_stack st) as [|i stack'] eqn:Hs.
      * intros [= <-]. done.
      * destruct (blocks_item (st_blocks st) i); simpl; done.
    + destruct (imm_relative_depth (imm bc)) as [d|]; simpl; [|done].
      destruct (py_index (st_block_stack st) d) as [i|]; simpl; [|done].
      destruct (blocks_item (st_blocks st) i); simpl; done.
    + destruct (else_scan (st_blocks st) (st_block_stack st)) as [[i|]|]; simpl;
        [| done | done].
      destruct (blocks_item (st_blocks st) i); simpl; done.
    + destruct (imm_table_targets (imm bc)) as [depths|]; simpl; [|done].
      destruct (br_table_loop (st_block_stack st) depths (st_blocks st) [])
        as [[blocks' targets]|]; simpl; done.
    + done.
Qed.

(** X2. When the pass over a body stops at the [end] of the function, the
    stack is empty, every block of the table has its [end_offset] set, and
    so has every block that the returned map refers to: no reader of the map
    finds an open block. *)
Theorem function_end_closes_every_block (offset : Z) (code : list Instruction)
    (st : resolver_state) :
  steps offset (initial_state offset) code = Ok (Break, st) →
  st_block_stack st = []
  ∧ Forall (fun b => is_Some (end_offset b)) (st_blocks st)
  ∧ _compute_function_branch_targets offset code = Ok (returned_targets st)
  ∧ (∀ a d k b, returned_targets st !! a = Some d → (k, RegularBlock b) ∈ d →
       is_Some (end_offset b)).
Proof.
  intros H.
  pose proof (steps_resolver_inv _ _ _ _ _ (initial_resolver_inv offset) H)
    as (_ & _ & _ & Hclosed & Hrefs).
  destruct (steps_break _ _ _ _ H) as (pre & bc & post & st0 & _ & _ & _ & _ & Hst).
  assert (st_block_stack st = []) as Hs by (by subst st).
  assert (∀ i b, st_blocks st !! i = Some b → is_Some (end_offset b)) as Hall.
  { intros i b Hb. apply (Hclosed i b Hb). rewrite Hs. apply not_elem_of_nil. }
  split; [done|]. split; [|split].
  - apply Forall_lookup. exact Hall.
  - unfold _compute_function_branch_targets. rewrite run_steps, H. done.
  - intros a d k b. unfold returned_targets. rewrite lookup_fmap.
    destruct (st_branch_targets st !! a) as [d0|] eqn:Ha; simpl; [|done].
    intros [= <-]. unfold deref_targets. rewrite list_elem_of_fmap.
    intros ([k0 r] & [= <- Hr] & Hin). simpl in Hr.
    destruct r as [i|f]; simpl in Hr; [|done]. injection Hr as ->.
    pose proof (Hrefs a d0 k i Ha Hin) as Hlt.
    destruct (lookup_lt_is_Some_2 _ _ Hlt) as [b Hb].
    rewrite (list_lookup_total_correct _ _ _ Hb). by apply (Hall i).
Qed.

Lemma function_end_closes_every_block_witness :
  ∃ st,
    steps 0 (initial_state 0) [Block_; Loop; Br 1; End_; End_; End_; Nop]
    = Ok (Break, st)
    ∧ Forall (fun b => is_Some (end_offset b)) (st_blocks st)
    ∧ (end_offset <$> st_blocks st) = [Some 8; Some 7].
Proof.
  eexists. split; [reflexivity|].
  split; [|reflexivity].
  exact (proj1 (proj2 (function_end_closes_every_block 0
                         [Block_; Loop; Br 1; End_; End_; End_; Nop] _ eq_refl))).
Defined.

(** Decides a statement about which opcode an instruction has. *)
Ltac opcode_facts :=
  unfold opens_scope, closes_scope, is_control, OP_BLOCK, OP_LOOP, OP_IF, OP_ELSE,
    OP_END, OP_BR, OP_BR_IF, OP_BR_TABLE in *;
  rewrite ?elem_of_cons, ?elem_of_nil in *; lia.

(** What one iteration changes: the address, the sizes of the table and of
    the stack, and at most the entry of the map at the current address. *)
Lemma step_effect offset st bc c st1 :
  step offset st bc = Ok (c, st1) →
  (c = Continue → st_p st1 = st_p st + len bc)
  ∧ length (st_blocks st1)
    = (length (st_blocks st) + if decide (opens_scope bc) then 1 else 0)%nat
  ∧ (c = Continue →
     (length (st_block_stack st1) + if decide (closes_scope bc) then 1 else 0)%nat
     = (length (st_block_stack st) + if decide (opens_scope bc) then 1 else 0)%nat)
  ∧ (st_branch_targets st1 = st_branch_targets st
     ∨ is_control bc ∧ ∃ d, st_branch_targets st1 = <[st_p st := d]> (st_branch_targets st)).
Proof.
  unfold step. repeat case_bool_decide.
  - destruct (new_block_type (op_id bc)); simpl; [|done]. intros [= <- <-]; simpl.
    rewrite decide_True by done. rewrite decide_False by opcode_facts.
    rewrite length_app. simpl. repeat split; try lia.
    right. split; [opcode_facts|eauto].
  - rewrite decide_False by opcode_facts.
    destruct (st_block_stack st) as [|i stack'] eqn:Hs.
    + intros [= <- <-]; simpl. repeat split; try done; try lia.
      right. split; [opcode_facts|eauto].
    + destruct (blocks_item (st_blocks st) i); simpl; [|done].
      intros [= <- <-]; simpl. rewrite decide_True by opcode_facts.
      rewrite length_insert. repeat split; try lia.
      right. split; [opcode_facts|eauto].
  - rewrite decide_False by opcode_facts.
    destruct (imm_relative_depth (imm bc)) as [d|]; simpl; [|done].
    destruct (py_index (st_block_stack st) d) as [i|]; simpl; [|done].
    destruct (blocks_item (st_blocks st) i); simpl; [|done].
    intros [= <- <-]; simpl. rewrite decide_False by opcode_facts.
    repeat split; try lia. right. split; [opcode_facts|eauto].
  - rewrite decide_False by opcode_facts.
    destruct (else_scan (st_blocks st) (st_block_stack st)) as [[i|]|]; simpl; [| |done].
    + destruct (blocks_item (st_blocks st) i); simpl; [|done].
      intros [= <- <-]; simpl. rewrite decide_False by opcode_facts.
      rewrite length_insert. repeat split; try lia.
      right. split; [opcode_facts|eauto].
    + intros [= <- <-]; simpl. rewrite decide_False by opcode_facts.
      repeat split; try lia. by left.
  - rewrite decide_False by opcode_facts.
    destruct (imm_table_targets (imm bc)) as [depths|]; simpl; [|done].
    destruct (br_table_loop (st_block_stack st) depths (st_blocks st) [])
      as [[blocks' targets]|] eqn:Hloop; simpl; [|done].
    intros [= <- <-]; simpl. rewrite decide_False by opcode_facts.
    rewrite (br_table_loop_length _ _ _ _ _ _ Hloop).
    repeat split; try lia. right. split; [opcode_facts|eauto].
  - rewrite decide_False by done. intros [= <- <-]; simpl.
    rewrite decide_False by opcode_facts. repeat split; try lia. by left.
Qed.

Lemma steps_continue_counts offset pre :
  ∀ st st',
  steps offset st pre = Ok (Continue, st') →
  st_p st' = st_p st + code_length pre
  ∧ length (st_blocks st')
    = (length (st_blocks st) + length (filter opens_scope pre))%nat
  ∧ (length (st_block_stack st') + length (filter closes_scope pre))%nat
    = (length (st_block_stack st) + length (filter opens_scope pre))%nat.
Proof.
  induction pre as [|bc pre IH]; intros st st'; simpl.
  - intros [= <-]. repeat split; lia.
  - destruct (step offset st bc) as [[[] st1]|] eqn:Hstep; simpl; [|done|done].
    intros H. destruct (IH _ _ H) as (Hp & Hb & Hs).
    destruct (step_effect _ _ _ _ _ Hstep) as (Hp1 & Hb1 & Hs1 & _).
    specialize (Hp1 eq_refl). specialize (Hs1 eq_refl).
    rewrite !filter_cons.
    destruct (decide (opens_scope bc)), (decide (closes_scope bc)); simpl;
      repeat split; lia.
Qed.

(** X3. When the pass over a body stops at the [end] of the function, the
    instructions before that [end] open exactly as many scopes as they
    close, and the block table has one block for each scope they open. *)
Theorem scopes_balance_at_function_end (offset : Z) (code : list Instruction)
    (st : resolver_state) :
  steps offset (initial_state offset) code = Ok (Break, st) →
  ∃ pre bc post,
    code = pre ++ bc :: post ∧ closes_scope bc
    ∧ length (filter opens_scope pre) = length (filter closes_scope pre)
    ∧ length (st_blocks st) = length (filter opens_scope pre)
    ∧ st_p st = offset + code_length pre.
Proof.
  intros H.
  destruct (steps_break _ _ _ _ H) as (pre & bc & post & st0 & -> & Hpre & Hop & Hs & ->).
  destruct (steps_continue_counts _ _ _ _ Hpre) as (Hp & Hb & Hst).
  rewrite Hs in Hst. simpl in *. exists pre, bc, post. repeat split; try done; lia.
Qed.

Lemma scopes_balance_at_function_end_witness :
  ∃ st pre bc post,
    steps 0 (initial_state 0) [Block_; Loop; Br 1; End_; End_; End_; Nop]
    = Ok (Break, st)
    ∧ [Block_; Loop; Br 1; End_; End_; End_; Nop] = pre ++ bc :: post
    ∧ closes_scope bc
    ∧ length (filter opens_scope pre) = length (filter closes_scope pre)
    ∧ length (st_blocks st) = length (filter opens_scope pre)
    ∧ st_p st = 0 + code_length pre.
Proof.
  eexists.
  destruct (scopes_balance_at_function_end 0
              [Block_; Loop; Br 1; End_; End_; End_; Nop] _ eq_refl)
    as (pre & bc & post & H).
  exists pre, bc, post. split; [reflexivity|exact H].
Defined.

Lemma steps_entries offset code :
  ∀ st c st' a,
  steps offset st code = Ok (c, st') →
  is_Some (st_branch_targets st' !! a) →
  is_Some (st_branch_targets st !! a)
  ∨ ∃ (k : nat) bc, code !! k = Some bc ∧ a = st_p st + code_length (take k code)
                    ∧ is_control bc.
Proof.
  induction code as [|bc rest IH]; intros st c st' a; simpl.
  - intros [= _ <-]. by left.
  - destruct (step offset st bc) as [[c1 st1]|] eqn:Hstep; simpl; [|done].
    destruct (step_effect _ _ _ _ _ Hstep) as (Hp1 & _ & _ & Hbt).
    assert (is_Some (st_branch_targets st1 !! a) →
            is_Some (st_branch_targets st !! a)
            ∨ ∃ (k : nat) bc0, (bc :: rest) !! k = Some bc0
                ∧ a = st_p st + code_length (take k (bc :: rest)) ∧ is_control bc0) as Hone.
    { destruct Hbt as [->|(Hc & d & ->)]; [by left|].
      rewrite lookup_insert. destruct (decide (st_p st = a)) as [<-|]; [|by left].
      intros _. right. exists 0%nat, bc. simpl. split; [done|]. split; [lia|done]. }
    destruct c1.
    + intros H Ha. destruct (IH _ _ _ _ H Ha) as [Hold|(k & bc0 & Hk & -> & Hc)].
      * by apply Hone.
      * right. exists (S k), bc0. simpl. rewrite (Hp1 eq_refl).
        split; [done|]. split; [lia|done].
    + intros [= <- <-]. exact Hone.
Qed.

(** X4. Every key of the map that [_compute_function_branch_targets] returns
    is the address of a control instruction of the body: the start offset
    plus the lengths of the instructions before it. Other instructions get
    no entry. *)
Theorem entries_only_at_control_instructions (offset : Z) (code : list Instruction)
    (bt : gmap Z (dict target_key BlockV)) (a : Z) :
  _compute_function_branch_targets offset code = Ok bt →
  is_Some (bt !! a) →
  ∃ (k : nat) bc, code !! k = Some bc ∧ a = offset + code_length (take k code)
                  ∧ is_control bc.
Proof.
  unfold _compute_function_branch_targets. rewrite run_steps.
  destruct (steps offset (initial_state offset) code) as [[c st]|] eqn:H; simpl; [|done].
  intros [= <-]. unfold returned_targets. rewrite lookup_fmap, fmap_is_Some.
  intros Ha. destruct (steps_entries _ _ _ _ _ a H Ha) as [Hinit|Hk]; [|exact Hk].
  simpl in Hinit. rewrite lookup_empty in Hinit. by destruct Hinit.
Qed.

Lemma entries_only_at_control_instructions_witness :
  ∃ bt,
    _compute_function_branch_targets 100 [Nop; Block_; Nop; End_; End_] = Ok bt
    ∧ is_Some (bt !! 104)
    ∧ bt !! 100 = None
    ∧ ∃ (k : nat) bc,
        [Nop; Block_; Nop; End_; End_] !! k = Some bc
        ∧ 104 = 100 + code_length (take k [Nop; Block_; Nop; End_; End_])
        ∧ is_control bc.
Proof.
  eexists. split; [reflexivity|].
  assert (is_Some ((<[105 := [(key_block, FunctionBlock (mkFunctionScope 100 105 0))]]>
           (<[104 := [(key_block,
                       RegularBlock (mkBlock 0 101 (Some 105) None None 0 type_block))]]>
             (<[101 := [(key_block,
                         RegularBlock (mkBlock 0 101 (Some 105) None None 0 type_block))]]>
               ∅)) : gmap Z (dict target_key BlockV)) !! 104)) as Hs
    by (vm_compute; eauto).
  split; [exact Hs|]. split; [reflexivity|].
  exact (entries_only_at_control_instructions 100 [Nop; Block_; Nop; End_; End_] _ 104
           eq_refl Hs).
Defined.

(** ** Ordered dicts *)

Lemma dict_keys_set {K V} `{EqDecision K} (d : dict K V) (k : K) (v : V) :
  dict_keys (dict_set d k v)
  = if decide (k ∈ dict_keys d) then dict_keys d else dict_keys d ++ [k].
Proof.
  unfold dict_keys. induction d as [|[k0 v0] d IH].
  - cbn [dict_set map fst]. rewrite decide_False; [done|apply not_elem_of_nil].
  - cbn [dict_set map fst]. destruct (decide (k0 = k)) as [->|Hne]; cbn [map fst].
    + rewrite decide_True; [done|apply list_elem_of_here].
    + rewrite IH. destruct (decide (k ∈ map fst d)) as [Hin|Hni].
      * rewrite decide_True; [done|by apply list_elem_of_further].
      * rewrite decide_False; [done|]. rewrite not_elem_of_cons. split; [congruence|done].
Qed.

Lemma dict_get_is_Some {K V} `{EqDecision K} (d : dict K V) (k : K) :
  is_Some (dict_get d k) ↔ k ∈ dict_keys d.
Proof.
  unfold dict_keys. induction d as [|[k0 v0] d IH]; simpl.
  - split; [intros [? [=]]|intros []%elem_of_nil].
  - destruct (decide (k0 = k)) as [->|Hne].
    + split; [intros _; apply list_elem_of_here|eauto].
    + rewrite IH, elem_of_cons. split; [by right|]. intros [|]; [congruence|done].
Qed.

Lemma dict_keys_set_NoDup {K V} `{EqDecision K} (d : dict K V) (k : K) (v : V) :
  NoDup (dict_keys d) → NoDup (dict_keys (dict_set d k v)).
Proof.
  intros Hnd. rewrite dict_keys_set. destruct (decide (k ∈ dict_keys d)); [done|].
  apply NoDup_app. split; [done|]. split; [|apply NoDup_singleton].
  intros x Hx ->%list_elem_of_singleton. done.
Qed.

Lemma dict_keys_set_elem {K V} `{EqDecision K} (d : dict K V) (k k' : K) (v : V) :
  k' ∈ dict_keys (dict_set d k v) ↔ k' ∈ dict_keys d ∨ k' = k.
Proof.
  rewrite dict_keys_set. destruct (decide (k ∈ dict_keys d)).
  - split; [by left|]. intros [?| ->]; done.
  - rewrite elem_of_app, list_elem_of_singleton. done.
Qed.

(** ** The resolver: branch tables *)

Lemma br_table_loop_entries stack depths :
  ∀ blocks targets blocks' targets',
  br_table_loop stack depths blocks targets = Ok (blocks', targets') →
  NoDup (dict_keys targets) →
  NoDup (dict_keys targets')
  ∧ (∀ k, k ∈ dict_keys targets' ↔
          k ∈ dict_keys targets ∨ ∃ d, k = key_depth d ∧ d ∈ depths)
  ∧ (∀ k r, dict_get targets' k = Some r →
            dict_get targets k = Some r
            ∨ ∃ d i, k = key_depth d ∧ stack !! N.to_nat d = Some i ∧ r = ref_block i).
Proof.
  induction depths as [|d depths IH]; intros blocks targets blocks' targets'; simpl.
  - intros [= _ <-] Hnd. split; [done|]. split; [|auto].
    intros k. split; [auto|]. intros [|(d & _ & []%elem_of_nil)]. done.
  - unfold py_index. destruct (stack !! N.to_nat d) as [i|] eqn:Hd; simpl; [|done].
    destruct (blocks_item blocks i) as [b|]; simpl; [|done].
    intros H Hnd. apply IH in H as (Hnd' & Hkeys & Hvals);
      [|by apply dict_keys_set_NoDup].
    split; [done|]. split.
    + intros k. rewrite Hkeys, dict_keys_set_elem. split.
      * intros [[?| ->]|(d' & -> & Hin)]; [by left| |].
        -- right. exists d. split; [done|apply list_elem_of_here].
        -- right. exists d'. split; [done|by apply list_elem_of_further].
      * intros [?|(d' & -> & [->|Hin]%elem_of_cons)]; [by left; left|by left; right|].
        right. eauto.
    + intros k r Hr. destruct (Hvals k r Hr) as [Hset|]; [|by right].
      rewrite dict_get_set in Hset. destruct (decide (key_depth d = k)) as [<-|]; [|by left].
      injection Hset as <-. right. eauto.
Qed.

(** X5. A [br_table] records at its address one entry for each distinct
    relative depth among its targets and its default, and no other entry;
    the entry of depth [d] refers to the block at position [d] from the top
    of the stack. The stack itself is left as it is: the branch closes no
    scope. *)
Theorem br_table_one_entry_per_depth (offset : Z) (st : resolver_state)
    (bc : Instruction) (table : list N) (default : N) (c : control)
    (st' : resolver_state) :
  op_id bc = OP_BR_TABLE → imm bc = BranchTableImm table default →
  step offset st bc = Ok (c, st') →
  ∃ targets,
    st_branch_targets st' !! st_p st = Some targets
    ∧ NoDup (dict_keys targets)
    ∧ (∀ k, k ∈ dict_keys targets ↔ ∃ d, k = key_depth d ∧ d ∈ table ++ [default])
    ∧ (∀ d r, dict_get targets (key_depth d) = Some r →
         ∃ i, st_block_stack st !! N.to_nat d = Some i ∧ r = ref_block i)
    ∧ st_block_stack st' = st_block_stack st.
Proof.
  intros Hop Himm. rewrite (step_BR_TABLE _ _ _ Hop), Himm. simpl.
  destruct (br_table_loop (st_block_stack st) (table ++ [default]) (st_blocks st) [])
    as [[blocks' targets]|] eqn:Hloop; simpl; [|done].
  intros [= _ <-]. simpl. exists targets.
  destruct (br_table_loop_entries _ _ _ _ _ _ Hloop) as (Hnd & Hkeys & Hvals);
    [constructor|].
  split; [by rewrite lookup_insert_eq|]. split; [done|]. split; [|split; [|done]].
  - intros k. rewrite Hkeys. split; [|by right].
    intros [[]%elem_of_nil|]. done.
  - intros d r Hr. destruct (Hvals _ _ Hr) as [[=]|(d' & i & [= <-] & Hi & ->)]. eauto.
Qed.

Lemma br_table_one_entry_per_depth_witness :
  ∃ st st' targets,
    steps 0 (initial_state 0) [Block_; Loop] = Ok (Continue, st)
    ∧ step 0 st (BrTable [1; 0; 1]%N 0) = Ok (Continue, st')
    ∧ st_branch_targets st' !! st_p st = Some targets
    ∧ NoDup (dict_keys targets)
    ∧ targets = [(key_depth 1, ref_block 0); (key_depth 0, ref_block 1)].
Proof.
  eexists _, _, _. split; [reflexivity|]. split; [reflexivity|].
  destruct (br_table_one_entry_per_depth 0
              (mkResolver (<[2 := [(key_block, ref_block 1)]]>
                             (<[0 := [(key_block, ref_block 0)]]> ∅))
                 [mkBlock 0 0 None None None 0 type_block;
                  mkBlock 1 2 None None None 1 type_loop] [1; 0]%nat 4)
              (BrTable [1; 0; 1]%N 0) [1; 0; 1]%N 0%N Continue _
              eq_refl eq_refl eq_refl)
    as (targets & Ht & Hnd & _).
  assert (targets = [(key_depth 1, ref_block 0); (key_depth 0, ref_block 1)]) as ->
    by (vm_compute in Ht; congruence).
  split; [reflexivity|]. split; [exact Hnd|reflexivity].
Defined.

(** ** The table of globals *)

Lemma dict_set_fresh {K V} `{EqDecision K} (d : dict K V) (k : K) (v : V) :
  k ∉ dict_keys d → dict_set d k v = d ++ [(k, v)].
Proof.
  unfold dict_keys. induction d as [|[k0 v0] d IH]; simpl; [done|].
  rewrite not_elem_of_cons. intros [Hne Hni].
  destruct (decide (k0 = k)); [congruence|]. by rewrite IH.
Qed.

Lemma dense_fresh (globals_ : dict N Global) :
  dense_globals globals_ → N.of_nat (length globals_) ∉ dict_keys globals_.
Proof.
  intros [Hkeys _]. rewrite Hkeys, list_elem_of_fmap.
  intros (j & Hj & Hin%elem_of_seq). lia.
Qed.

Lemma dense_snoc (globals_ : dict N Global) (g : Global) :
  dense_globals globals_ → gl_index g = N.of_nat (length globals_) →
  dense_globals (globals_ ++ [(N.of_nat (length globals_), g)]).
Proof.
  intros [Hkeys Hidx] Hg. split.
  - unfold dict_keys in *. rewrite map_app, Hkeys, length_app. simpl.
    rewrite Nat.add_1_r, seq_S, fmap_app. done.
  - intros k g' [Hin|[= -> ->]%list_elem_of_singleton]%elem_of_app; [eauto|done].
Qed.

Lemma imported_globals_loop_spec names entries :
  ∀ pcur acc res,
  imported_globals_loop names entries pcur (N.of_nat (length acc)) acc = Ok res →
  dense_globals acc →
  dense_globals res
  ∧ ∃ new,
      res = acc ++ new
      ∧ length new
        = length (filter (fun e => im_kind e = WASM_EXTERNAL_KIND_GLOBAL) entries)
      ∧ ∀ (j : nat) e,
          filter (fun e => im_kind e = WASM_EXTERNAL_KIND_GLOBAL) entries !! j = Some e →
          ∃ g m f,
            new !! j = Some (N.of_nat (length acc + j), g)
            ∧ module_str e = Some m ∧ im_field_str e = Some f
            ∧ gl_name g = m +:+ "." +:+ f.
Proof.
  induction entries as [|entry entries IH]; intros pcur acc res; simpl.
  - intros [= <-] Hd. split; [done|]. exists []. rewrite app_nil_r.
    split; [done|]. split; [done|]. intros j e Hj.
    rewrite filter_nil in Hj. by rewrite lookup_nil in Hj.
  - destruct (decide (im_kind entry = WASM_EXTERNAL_KIND_GLOBAL)) as [Hk|Hk].
    + rewrite filter_cons_True by done.
      destruct (import_content_type (im_type entry)) as [ct|]; simpl; [|done].
      destruct (type_name names ct) as [ctype|]; simpl; [|done].
      destruct (module_str entry) as [m|] eqn:Hm; simpl; [|done].
      destruct (im_field_str entry) as [f|] eqn:Hf; simpl; [|done].
      intros Hloop Hd.
      rewrite dict_set_fresh in Hloop by (by apply dense_fresh).
      replace (N.of_nat (length acc) + 1)%N
        with (N.of_nat (length (acc ++ [(N.of_nat (length acc),
               mkGlobal (N.of_nat (length acc)) pcur ctype (m +:+ "." +:+ f))])))
        in Hloop by (rewrite length_app; simpl; lia).
      apply IH in Hloop as (Hd' & new & -> & Hlen & Hnew); [|by apply dense_snoc].
      split; [done|]. eexists (_ :: new). split; [by rewrite <- app_assoc|].
      split; [simpl; by rewrite Hlen|].
      intros [|j] e; simpl.
      * intros [= <-]. rewrite Nat.add_0_r. eauto 10.
      * intros Hj. destruct (Hnew j e Hj) as (g & m' & f' & Hg & ?).
        exists g, m', f'. split; [|done]. rewrite Hg, length_app. simpl.
        do 3 f_equal. lia.
    + rewrite filter_cons_False by done. apply IH.
Qed.

Lemma keys_seq_get {V} (d : list (N * V)) (a : nat) (k : N) :
  dict_keys d = N.of_nat <$> seq a (length d) →
  dict_get d k
  = if decide (N.to_nat k < a)%nat then None else snd <$> d !! (N.to_nat k - a)%nat.
Proof.
  revert a. induction d as [|[k0 v0] d IH]; intros a; simpl.
  - intros _. by destruct (decide _).
  - intros [= -> Hkeys]. rewrite (IH (S a)) by done.
    destruct (decide (N.of_nat a = k)) as [<-|Hne].
    + rewrite decide_False by lia. rewrite Nat2N.id, Nat.sub_diag. done.
    + destruct (decide (N.to_nat k < S a)%nat), (decide (N.to_nat k < a)%nat);
        try lia; [done|].
      replace (N.to_nat k - a)%nat with (S (N.to_nat k - S a)) by lia. done.
Qed.

Lemma dense_get (globals_ : list (N * Global)) (k : N) :
  dense_globals globals_ → dict_get globals_ k = snd <$> globals_ !! N.to_nat k.
Proof.
  intros [Hkeys _]. rewrite (keys_seq_get _ 0) by done.
  rewrite decide_False by lia. by rewrite Nat.sub_0_r.
Qed.

Lemma dense_take (globals_ : dict N Global) (t : nat) :
  dense_globals globals_ → dense_globals (take t globals_).
Proof.
  intros [Hkeys Hidx]. split.
  - unfold dict_keys in *. rewrite <- List.firstn_map, Hkeys, length_take.
    rewrite <- fmap_take, take_seq. done.
  - intros k g (i & Hi & _)%elem_of_take. apply Hidx.
    eapply list_elem_of_lookup_2; eauto.
Qed.

Lemma globals_loop_spec names globals :
  ∀ pcur acc res,
  globals_loop names globals pcur (N.of_nat (length acc)) acc = Ok res →
  dense_globals acc →
  dense_globals res
  ∧ ∃ new,
      res = acc ++ new ∧ length new = length globals
      ∧ ∀ (j : nat) body,
          globals !! j = Some body →
          ∃ g,
            new !! j = Some (N.of_nat (length acc + j), g)
            ∧ global_name (acc ++ take j new) (N.of_nat (length acc + j)) (g_init body)
              = Ok (gl_name g)
            ∧ gl_offset g
              = pcur + globals_size (take j globals) + offset_of_global_init body
            ∧ type_name names (g_content_type body) = Ok (gl_type g).
Proof.
  induction globals as [|body globals IH]; intros pcur acc res; simpl.
  - intros [= <-] Hd. split; [done|]. exists []. rewrite app_nil_r.
    split; [done|]. split; [done|]. intros j e Hj. by rewrite lookup_nil in Hj.
  - destruct (type_name names (g_content_type body)) as [ctype|] eqn:Hty; simpl; [|done].
    destruct (global_name acc (N.of_nat (length acc)) (g_init body)) as [name|] eqn:Hname;
      simpl; [|done].
    intros Hloop Hd.
    rewrite dict_set_fresh in Hloop by (by apply dense_fresh).
    set (g0 := mkGlobal (N.of_nat (length acc)) (pcur + offset_of_global_init body)
                 ctype name) in *.
    replace (N.of_nat (length acc) + 1)%N
      with (N.of_nat (length (acc ++ [(N.of_nat (length acc), g0)]))) in Hloop
      by (rewrite length_app; simpl; lia).
    apply IH in Hloop as (Hd' & new & -> & Hlen & Hnew); [|by apply dense_snoc].
    split; [done|]. exists ((N.of_nat (length acc), g0) :: new).
    split; [by rewrite <- app_assoc|]. split; [simpl; by rewrite Hlen|].
    intros [|j] b; simpl.
    + intros [= <-]. exists g0. rewrite Nat.add_0_r, app_nil_r. simpl.
      repeat split; [done|lia|done].
    + intros Hj. destruct (Hnew j b Hj) as (g & Hg & Hn & Ho & Ht).
      exists g. rewrite length_app in Hg, Hn. simpl in Hg, Hn.
      replace (length acc + 1 + j)%nat with (length acc + S j)%nat in * by lia.
      split; [done|]. split; [by rewrite <- app_assoc in Hn|]. split; [lia|done].
Qed.

Lemma parse_globals_decompose names sections globals :
  _parse_globals names sections = Ok globals →
  ∃ imported new pglobals,
    globals = imported ++ new
    ∧ dense_globals imported ∧ dense_globals globals
    ∧ length imported = length (module_global_imports sections)
    ∧ length new = length (module_globals sections)
    ∧ (∀ (j : nat) e,
         module_global_imports sections !! j = Some e →
         ∃ g m f, imported !! j = Some (N.of_nat j, g)
                  ∧ module_str e = Some m ∧ im_field_str e = Some f
                  ∧ gl_name g = m +:+ "." +:+ f)
    ∧ (∀ (j : nat) body,
         module_globals sections !! j = Some body →
         ∃ g, new !! j = Some (N.of_nat (length imported + j), g)
              ∧ global_name (imported ++ take j new) (N.of_nat (length imported + j))
                  (g_init body) = Ok (gl_name g)
              ∧ gl_offset g
                = pglobals + globals_size (take j (module_globals sections))
                  + offset_of_global_init body).
Proof.
  unfold _parse_globals, _parse_imported_globals, module_global_imports, module_globals.
  destruct (_get_section sections SEC_IMPORT) as [import_section|]; simpl; [|done].
  destruct (_get_section_offset sections SEC_IMPORT) as [pimport|]; simpl; [|done].
  destruct (offset_of_data_payload (data import_section)) as [off|]; simpl; [|done].
  destruct (section_payload import_section) as [ipl|]; simpl; [|done].
  destruct (import_entries ipl) as [[lc entries]|]; simpl; [|done].
  destruct (imported_globals_loop names entries (pimport + off + lc) 0 [])
    as [imported|] eqn:Himp; simpl; [|done].
  destruct (_get_section sections SEC_GLOBAL) as [global_section|]; simpl; [|done].
  destruct (_get_section_offset sections SEC_GLOBAL) as [pglobal|]; simpl; [|done].
  destruct (offset_of_data_payload (data global_section)) as [goff|]; simpl; [|done].
  destruct (section_payload global_section) as [gpl|]; simpl; [|done].
  destruct (global_entries gpl) as [[glc globals']|]; simpl; [|done].
  intros Hloop.
  assert (dense_globals []) as Hnil.
  { split; [done|]. intros k g Hin. by apply elem_of_nil in Hin. }
  apply (imported_globals_loop_spec names entries _ []) in Himp
    as (Hdi & new_i & Hres & Hlen_i & Hnew_i); [|done].
  simpl in Hres. subst new_i.
  apply globals_loop_spec in Hloop as (Hd & new & -> & Hlen & Hnew); [|done].
  exists imported, new, (pglobal + goff + glc).
  split; [done|]. split; [done|]. split; [done|]. split; [done|]. split; [done|].
  split.
  - intros j e Hj. destruct (Hnew_i j e Hj) as (g & m & f & Hg & ?). eauto 10.
  - intros j body Hj. destruct (Hnew j body Hj) as (g & Hg & Hn & Ho & _). eauto.
Qed.

(** X6. The table that [_parse_globals] returns is dense: with [n] global
    imports and [m] globals in the global section its keys are
    [0 .. n+m-1], in this order, each entry carries its key as [index], and
    the entry of the [j]-th global import is named ["<module>.<field>"]. *)
Theorem parse_globals_index_space (names : gmap Z string)
    (sections : list ModuleFragment) (globals : dict N Global) :
  _parse_globals names sections = Ok globals →
  let n := length (module_global_imports sections) in
  let m := length (module_globals sections) in
  dict_keys globals = N.of_nat <$> seq 0 (n + m)
  ∧ (∀ k g, dict_get globals k = Some g → gl_index g = k)
  ∧ (∀ (j : nat) e,
       module_global_imports sections !! j = Some e →
       ∃ g mo f, dict_get globals (N.of_nat j) = Some g
                 ∧ module_str e = Some mo ∧ im_field_str e = Some f
                 ∧ gl_name g = mo +:+ "." +:+ f).
Proof.
  intros H n m. subst n m.
  destruct (parse_globals_decompose _ _ _ H)
    as (imported & new & pg & -> & Hdi & Hd & Hli & Hln & Himp & _).
  split; [|split].
  - destruct Hd as [Hkeys _]. rewrite Hkeys, length_app. congruence.
  - intros k g. rewrite (dense_get _ _ Hd).
    intros ([k' g'] & Hk & ->)%fmap_Some. simpl. pose proof Hd as [Hkeys Hidx].
    rewrite (Hidx k' g') by (eapply list_elem_of_lookup_2; eauto).
    assert (dict_keys (imported ++ new) !! N.to_nat k = Some k') as Hkey.
    { unfold dict_keys. change (map fst (imported ++ new)) with (fst <$> imported ++ new).
      rewrite list_lookup_fmap. apply fmap_Some. by exists (k', g'). }
    rewrite Hkeys, list_lookup_fmap in Hkey.
    destruct (seq 0 (length (imported ++ new)) !! N.to_nat k) as [i|] eqn:Hseq;
      simpl in Hkey; [|done].
    apply lookup_seq in Hseq as [-> _]. injection Hkey as <-. simpl. lia.
  - intros j e Hj. destruct (Himp j e Hj) as (g & mo & f & Hg & ?).
    exists g, mo, f. split; [|done]. rewrite (dense_get _ _ Hd), Nat2N.id.
    by rewrite (lookup_app_l_Some _ _ _ _ Hg).
Qed.

Lemma parse_globals_index_space_witness :
  ∃ globals,
    _parse_globals type_names_sample module_globals_sample = Ok globals
    ∧ dict_keys globals = [0; 1; 2; 3]%N
    ∧ (∀ k g, dict_get globals k = Some g → gl_index g = k)
    ∧ gl_name <$> dict_get globals 1%N = Some "env.top".
Proof.
  eexists. split; [reflexivity|]. split; [reflexivity|]. split; [|reflexivity].
  exact (proj1 (proj2 (parse_globals_index_space type_names_sample
                         module_globals_sample _ eq_refl))).
Defined.

(** X7. The name of a global of the global section looks one step back
    only: when its initializer starts with a [get_global] of an index that
    comes before its own in the combined index space, it is that global's
    name with a leading underscore; when the initializer reads its own or a
    later index, or starts with anything else, it is ['global_<INDEX>'] with
    the index in upper-case hexadecimal. *)
Theorem defined_global_name (names : gmap Z string) (sections : list ModuleFragment)
    (globals : dict N Global) (j : nat) (body : GlobalEntry) :
  _parse_globals names sections = Ok globals →
  module_globals sections !! j = Some body →
  let k := N.of_nat (length (module_global_imports sections) + j) in
  ∃ g, dict_get globals k = Some g
       ∧ match init_reads (g_init body) with
         | Some gi =>
             if decide (gi < k)%N then
               ∃ g', dict_get globals gi = Some g' ∧ gl_name g = "_" +:+ gl_name g'
             else gl_name g = "global_" +:+ format_X k
         | None => gl_name g = "global_" +:+ format_X k
         end.
Proof.
  intros H Hj k. subst k.
  destruct (parse_globals_decompose _ _ _ H)
    as (imported & new & pg & -> & Hdi & Hd & Hli & Hln & _ & Hdef).
  destruct (Hdef j body Hj) as (g & Hg & Hname & _). rewrite <- Hli.
  exists g. split.
  { rewrite (dense_get _ _ Hd), Nat2N.id. rewrite lookup_app_r by lia.
    replace (length imported + j - length imported)%nat with j by lia.
    by rewrite Hg. }
  assert (imported ++ take j new = take (length imported + j) (imported ++ new)) as Htake.
  { rewrite take_app_ge by lia. f_equal. f_equal. lia. }
  rewrite Htake in Hname.
  assert (∀ gi, dict_get (take (length imported + j) (imported ++ new)) gi
                = if decide (gi < N.of_nat (length imported + j))%N
                  then dict_get (imported ++ new) gi else None) as Hget.
  { intros gi. rewrite (dense_get _ _ (dense_take _ _ Hd)), (dense_get _ _ Hd).
    destruct (decide (gi < N.of_nat (length imported + j))%N).
    - by rewrite lookup_take_lt by lia.
    - by rewrite lookup_take_ge by lia. }
  unfold global_name in Hname. unfold init_reads.
  destruct (g_init body) as [|bc rest]; [by injection Hname as <-|].
  destruct (decide (op_id bc = OP_GET_GLOBAL)); [|by injection Hname as <-].
  destruct (imm bc) as [| | | | | | |gi| | | | | |]; try discriminate Hname.
  rewrite Hget in Hname.
  destruct (decide (gi < N.of_nat (length imported + j))%N) as [Hlt|];
    [|by injection Hname as <-].
  destruct (dict_get (imported ++ new) gi) as [g'|] eqn:Hgi.
  - injection Hname as <-. eauto.
  - exfalso. rewrite (dense_get _ _ Hd) in Hgi.
    destruct (lookup_lt_is_Some_2 (imported ++ new) (N.to_nat gi)) as [x Hx];
      [|by rewrite Hx in Hgi].
    apply lookup_lt_Some in Hg. rewrite length_app. lia.
Qed.

Lemma defined_global_name_witness :
  ∃ globals body,
    _parse_globals type_names_sample module_globals_sample = Ok globals
    ∧ module_globals module_globals_sample !! 1%nat = Some body
    ∧ init_reads (g_init body) = Some 1%N
    ∧ ∃ g, dict_get globals 3%N = Some g
           ∧ ∃ g', dict_get globals 1%N = Some g' ∧ gl_name g = "_" +:+ gl_name g'.
Proof.
  eexists _, _. split; [reflexivity|]. split; [reflexivity|]. split; [reflexivity|].
  destruct (defined_global_name type_names_sample module_globals_sample _ 1 _
              eq_refl eq_refl) as (g & Hg & Hname).
  exists g. split; [exact Hg|]. exact Hname.
Defined.

Lemma dense_keys_fresh {V} (d : dict N V) :
  dense_keys d → N.of_nat (length d) ∉ dict_keys d.
Proof.
  unfold dense_keys. intros ->. rewrite list_elem_of_fmap.
  intros (j & Hj & Hin%elem_of_seq). lia.
Qed.

Lemma dense_keys_snoc {V} (d : dict N V) (v : V) :
  dense_keys d → dense_keys (d ++ [(N.of_nat (length d), v)]).
Proof.
  unfold dense_keys, dict_keys. intros Hkeys.
  rewrite map_app, Hkeys, length_app. simpl.
  by rewrite Nat.add_1_r, seq_S, fmap_app.
Qed.

Lemma dense_keys_get {V} (d : list (N * V)) (k : N) :
  dense_keys d → dict_get d k = snd <$> d !! N.to_nat k.
Proof.
  intros Hkeys. rewrite (keys_seq_get _ 0) by done.
  rewrite decide_False by lia. by rewrite Nat.sub_0_r.
Qed.

Lemma data_loop_spec entries :
  ∀ pcur acc res,
  data_loop entries pcur (N.of_nat (length acc)) acc = Ok res →
  dense_keys acc →
  dense_keys res
  ∧ ∃ new,
      res = acc ++ new ∧ length new = length entries
      ∧ ∀ (j : nat) entry,
          entries !! j = Some entry →
          ∃ d,
            new !! j = Some (N.of_nat (length acc + j), d)
            ∧ dt_index d = N.of_nat (length acc + j)
            ∧ data_offset (d_offset entry) = Ok (dt_offset d)
            ∧ dt_size d = d_size entry ∧ dt_data d = d_data entry
            ∧ dt_ea d = pcur + entries_size (take j entries) + entry_header entry.
Proof.
  induction entries as [|entry entries IH]; intros pcur acc res; simpl.
  - intros [= <-] Hd. split; [done|]. exists []. rewrite app_nil_r.
    split; [done|]. split; [done|]. intros j e Hj. by rewrite lookup_nil in Hj.
  - destruct (data_offset (d_offset entry)) as [off|] eqn:Hoff; simpl; [|done].
    intros Hloop Hd.
    rewrite dict_set_fresh in Hloop by (by apply dense_keys_fresh).
    set (d0 := mkData _ _ _ _ _) in Hloop.
    replace (N.of_nat (length acc) + 1)%N
      with (N.of_nat (length (acc ++ [(N.of_nat (length acc), d0)]))) in Hloop
      by (rewrite length_app; simpl; lia).
    apply IH in Hloop as (Hd' & new & -> & Hlen & Hnew); [|by apply dense_keys_snoc].
    split; [done|]. exists ((N.of_nat (length acc), d0) :: new).
    split; [by rewrite <- app_assoc|]. split; [simpl; by rewrite Hlen|].
    intros [|j] b; simpl.
    + intros [= <-]. exists d0. rewrite Nat.add_0_r. unfold entry_header. simpl.
      repeat split; [done|lia].
    + intros Hj. destruct (Hnew j b Hj) as (d & Hg & Hi & Ho & Hs & Hdt & Hea).
      exists d. rewrite length_app in Hg, Hi. simpl in Hg, Hi.
      replace (length acc + 1 + j)%nat with (length acc + S j)%nat in * by lia.
      repeat split; try done. lia.
Qed.

(** X8. When [_parse_data] returns, its table has one entry per segment of
    the data section, under the keys [0 .. n-1] in this order.  The entry
    of segment [j] carries [j] as index, the segment's size and bytes, and
    as offset the value of a leading [i32.const] of the offset expression
    (0 when the expression starts otherwise); and the contents of segment
    [j + 1] are placed after the contents of segment [j] by the encoded
    length of those contents plus the header of segment [j + 1]. *)
Theorem parse_data_table (sections : list ModuleFragment)
    (entries : list DataSegmentEntry) (table : dict N Data) :
  data_section_entries sections = Ok entries →
  _parse_data sections = Ok table →
  dict_keys table = N.of_nat <$> seq 0 (length entries)
  ∧ ∀ (j : nat) entry,
      entries !! j = Some entry →
      ∃ d, dict_get table (N.of_nat j) = Some d
           ∧ dt_index d = N.of_nat j
           ∧ data_offset (d_offset entry) = Ok (dt_offset d)
           ∧ dt_size d = d_size entry ∧ dt_data d = d_data entry
           ∧ ∀ entry', entries !! S j = Some entry' →
               ∃ d', dict_get table (N.of_nat (S j)) = Some d'
                     ∧ dt_ea d' = dt_ea d + d_len_data entry + entry_header entry'.
Proof.
  unfold data_section_entries, _parse_data. intros Hentries.
  destruct (_get_section sections SEC_DATA) as [data_section|]; simpl in *; [|done].
  destruct (_get_section_offset sections SEC_DATA) as [pdata_section|]; simpl; [|done].
  destruct (offset_of_data_payload (data data_section)) as [off|]; simpl; [|done].
  destruct (section_payload data_section) as [pl|]; simpl in *; [|done].
  destruct (data_entries pl) as [[len_count entries']|]; simpl in *; [|done].
  injection Hentries as ->. intros Hloop.
  apply (data_loop_spec entries _ []) in Hloop as (Hd & new & Hres & Hlen & Hnew); [|done].
  simpl in Hres. subst new. split; [by rewrite Hd, Hlen|].
  intros j entry Hj. destruct (Hnew j entry Hj) as (d & Hg & Hi & Ho & Hs & Hdt & Hea).
  simpl in Hg, Hi. exists d. rewrite (dense_keys_get _ _ Hd), Nat2N.id, Hg.
  repeat split; try done.
  intros entry' Hj'. destruct (Hnew (S j) entry' Hj') as (d' & Hg' & _ & _ & _ & _ & Hea').
  simpl in Hg'. exists d'. rewrite (dense_keys_get _ _ Hd), Nat2N.id, Hg'.
  split; [done|]. rewrite Hea', Hea.
  rewrite (take_S_r _ _ _ Hj). unfold entries_size. rewrite foldr_app. simpl.
  assert (∀ l z, foldr (λ e acc, size_of_entry e + acc) z l
                 = foldr (λ e acc, size_of_entry e + acc) 0 l + z) as Hf.
  { induction l as [|e l IHl]; intros z; simpl; [lia|]. rewrite IHl. lia. }
  rewrite Hf. unfold size_of_entry, entry_header. lia.
Qed.

Lemma parse_data_table_witness :
  ∃ entries table,
    data_section_entries module_data = Ok entries
    ∧ _parse_data module_data = Ok table
    ∧ dict_keys table = [0; 1; 2]%N
    ∧ dt_ea <$> dict_values table = [16; 25; 30].
Proof.
  eexists _, _. split; [reflexivity|]. split; [reflexivity|].
  split; [|reflexivity].
  exact (proj1 (parse_data_table module_data _ _ eq_refl eq_refl)).
Defined.

Lemma bodies_size_snoc l b : bodies_size (l ++ [b]) = bodies_size l + size_of_body b.
Proof. unfold bodies_size. induction l as [|x l IH]; simpl; lia. Qed.

Lemma bodies_size_take_S bodies i body :
  bodies !! i = Some body →
  bodies_size (take (S i) bodies) = bodies_size (take i bodies) + size_of_body body.
Proof. intros H. by rewrite (take_S_r _ _ _ H), bodies_size_snoc. Qed.

Lemma functions_loop_layout n_imported exported_functions bodies function_payload
    type_payload :
  ∀ n a pbody acc res,
  functions_loop n_imported exported_functions bodies function_payload type_payload
    (seq a n) pbody acc = Ok res →
  ∀ i, (a ≤ i < a + n)%nat →
    ∃ body name ftype exported,
      bodies !! i = Some body
      ∧ dict_get res (N.of_nat (n_imported + i))
        = Some (DefinedFunction (N.of_nat (n_imported + i)) name
                  (pbody + (bodies_size (take i bodies) - bodies_size (take a bodies))
                   + offset_of_body_code body)
                  ftype exported false (body_local_types body) (size_of_body_code body)).
Proof.
  induction n as [|n IH]; intros a pbody acc res; simpl; [lia|].
  assert (py_index bodies (N.of_nat a)
          = match bodies !! a with Some x => Ok x | None => Raise IndexError end) as ->
    by (unfold py_index; by rewrite Nat2N.id).
  destruct (bodies !! a) as [body|] eqn:Hbody; simpl; [|done].
  destruct (function_types function_payload) as [ftypes|]; simpl; [|done].
  destruct (py_index ftypes (N.of_nat a)) as [type_index|]; simpl; [|done].
  destruct (type_entries type_payload) as [types|]; simpl; [|done].
  destruct (py_index types type_index) as [ftype|]; simpl; [|done].
  set (ne := match exported_functions !! N.of_nat (n_imported + a) with
             | Some ef => (ef_name ef, true)
             | None => ("$func" +:+ format_d (N.of_nat (n_imported + a)), false)
             end).
  destruct ne as [name is_exported].
  intros Hloop i Hi.
  destruct (decide (i = a)) as [->|Hne].
  - exists body, name, ftype, is_exported. split; [done|].
    apply functions_loop_spec in Hloop as [_ Hout]; [|apply NoDup_seq].
    rewrite Hout.
    + rewrite dict_get_set, decide_True by done. do 3 f_equal. lia.
    + intros j Hj%elem_of_seq. lia.
  - destruct (IH _ _ _ _ Hloop i) as (b & nm & ft & ex & Hb & Hget); [lia|].
    exists b, nm, ft, ex. split; [done|]. rewrite Hget. do 3 f_equal.
    rewrite (bodies_size_take_S _ _ _ Hbody). lia.
Qed.

Lemma parse_functions_layout_abs sections functions :
  _parse_functions sections = Ok functions →
  ∃ pbody,
    code_bodies_offset sections = Ok pbody
    ∧ ∀ i : nat,
        (N.of_nat i < module_body_count sections)%N →
        ∃ body name ftype exported,
          module_bodies sections !! i = Some body
          ∧ dict_get functions
              (N.of_nat (length (module_function_imports sections) + i))
            = Some (DefinedFunction
                      (N.of_nat (length (module_function_imports sections) + i)) name
                      (code_address pbody (module_bodies sections) i body)
                      ftype exported false (body_local_types body)
                      (size_of_body_code body)).
Proof.
  unfold _parse_functions. intros H.
  destruct (except_SectionNotFoundError (_parse_imported_functions sections) [])
    as [imported|] eqn:Himp; simpl in H; [|done].
  destruct (except_SectionNotFoundError (_parse_exported_functions sections) ∅)
    as [exported|] eqn:Hexp; simpl in H; [|done].
  destruct (_get_section sections SEC_FUNCTION) as [function_section|]; simpl in H; [|done].
  unfold module_body_count, module_bodies, code_bodies_offset.
  destruct (_get_section sections SEC_CODE) as [code_section|]; simpl in H |- *; [|done].
  destruct (_get_section_offset sections SEC_CODE) as [pcode|]; simpl in H |- *; [|done].
  destruct (_get_section sections SEC_TYPE) as [type_section|] eqn:Ht; simpl in H; [|done].
  destruct (section_payload code_section) as [payload|]; simpl in H |- *; [|done].
  destruct (offset_of_data_payload (data code_section)) as [off|]; simpl in H |- *; [|done].
  destruct (payload_bodies payload) as [[[len_count count] bodies]|];
    simpl in H |- *; [|done].
  destruct (section_payload function_section) as [function_payload|]; simpl in H; [|done].
  destruct (section_payload type_section) as [type_payload|]; simpl in H; [|done].
  destruct (parse_imported_functions_spec _ _ _ Ht Himp) as (Hlen & _).
  rewrite Nat2N.id in Hlen. rewrite <- Hlen. simpl.
  exists (pcode + off + len_count). split; [done|]. intros i Hi.
  destruct (functions_loop_layout _ _ _ _ _ _ _ _ _ _ H i) as (b & nm & ft & ex & Hb & Hget);
    [clear -Hi; lia|].
  exists b, nm, ft, ex. split; [done|]. rewrite Hget. unfold code_address.
  f_equal. f_equal. rewrite take_0. change (bodies_size []) with 0. lia.
Qed.

(** X9. When [_parse_functions] returns, the entry of the [i]-th body of the
    code section (with [i] below the declared count) records where that
    body's code lies: its offset is the address of the first body plus the
    sizes of the bodies before it plus the lengths of its own [body_size],
    [local_count] and [locals] fields; its size is the encoded length of its
    code; its local types are the local groups written out, one type per
    local.  So the code of body [i + 1] starts after the end of the code of
    body [i], by the header of body [i + 1]. *)
Theorem parse_functions_layout (sections : list ModuleFragment)
    (functions : dict N Function) :
  _parse_functions sections = Ok functions →
  let n := length (module_function_imports sections) in
  let bodies := module_bodies sections in
  ∃ pbody,
    code_bodies_offset sections = Ok pbody
    ∧ (∀ i : nat,
         (N.of_nat i < module_body_count sections)%N →
         ∃ body name ftype exported,
           bodies !! i = Some body
           ∧ dict_get functions (N.of_nat (n + i))
             = Some (DefinedFunction (N.of_nat (n + i)) name
                       (code_address pbody bodies i body)
                       ftype exported false (body_local_types body)
                       (size_of_body_code body)))
    ∧ (∀ (i : nat) body body',
         bodies !! i = Some body → bodies !! S i = Some body' →
         code_address pbody bodies (S i) body'
         = code_address pbody bodies i body + size_of_body_code body
           + offset_of_body_code body').
Proof.
  intros H n bodies.
  destruct (parse_functions_layout_abs _ _ H) as (pbody & Hp & Hall).
  exists pbody. split; [done|]. split; [exact Hall|].
  intros i body body' Hb Hb'. unfold code_address.
  rewrite (bodies_size_take_S _ _ _ Hb).
  unfold size_of_body, size_of_body_code, offset_of_body_code. lia.
Qed.

Lemma parse_functions_layout_witness :
  ∃ functions pbody,
    _parse_functions module_scenario_D = Ok functions
    ∧ code_bodies_offset module_scenario_D = Ok pbody
    ∧ ∃ body name ftype exported,
        module_bodies module_scenario_D !! 0%nat = Some body
        ∧ dict_get functions 2%N
          = Some (DefinedFunction 2%N name
                    (code_address pbody (module_bodies module_scenario_D) 0 body)
                    ftype exported false (body_local_types body)
                    (size_of_body_code body)).
Proof.
  eexists _, _. split; [reflexivity|]. split; [reflexivity|].
  destruct (parse_functions_layout module_scenario_D _ eq_refl) as (pbody & Hp & Hall & _).
  injection Hp as <-.
  exact (Hall 0%nat eq_refl).
Defined.

Lemma branch_targets_loop_keys bodies :
  ∀ pbody acc bt,
  branch_targets_loop pbody bodies acc = Ok bt →
  (∀ (i : nat) body,
     bodies !! i = Some body →
     ∃ m, _compute_function_branch_targets (code_address pbody bodies i body) (code body)
          = Ok m
          ∧ ∀ a, is_Some (m !! a) → is_Some (bt !! a))
  ∧ (∀ a, is_Some (acc !! a) → is_Some (bt !! a))
  ∧ (∀ a d, bt !! a = Some d →
       acc !! a = Some d
       ∨ ∃ (i : nat) body m,
           bodies !! i = Some body
           ∧ _compute_function_branch_targets (code_address pbody bodies i body)
               (code body) = Ok m
           ∧ m !! a = Some d).
Proof.
  induction bodies as [|body rest IH]; intros pbody acc bt; simpl.
  - intros [= <-]. split; [|split]; [|done|by left].
    intros i b Hi. by rewrite lookup_nil in Hi.
  - destruct (_compute_function_branch_targets (pbody + offset_of_body_code body)
                (code body)) as [m|] eqn:Hm; simpl; [|done].
    intros Hloop. destruct (IH _ _ _ Hloop) as (Hall & Hacc & Hfrom).
    assert (∀ (i : nat) b, code_address (pbody + size_of_body body) rest i b
                           = code_address pbody (body :: rest) (S i) b) as Haddr.
    { intros i b. unfold code_address, bodies_size. simpl. lia. }
    split; [|split].
    + intros [|i] b; simpl.
      * intros [= <-]. exists m. split.
        { rewrite <- Hm. f_equal. unfold code_address, bodies_size. simpl. lia. }
        intros a Ha. apply Hacc. apply lookup_union_is_Some. by left.
      * intros Hi. destruct (Hall i b Hi) as (m' & Hm' & Hin).
        exists m'. by rewrite <- Haddr.
    + intros a Ha. apply Hacc. apply lookup_union_is_Some. by right.
    + intros a d Ha. destruct (Hfrom a d Ha) as [Hu|(i & b & m' & Hi & Hm' & Hd)].
      * apply lookup_union_Some_raw in Hu as [Hd|[_ Hd]]; [|by left].
        right. exists 0%nat, body, m. split; [done|]. split; [|done].
        rewrite <- Hm. f_equal. unfold code_address, bodies_size. simpl. lia.
      * right. exists (S i), b, m'. split; [done|]. by rewrite <- Haddr.
Qed.

Lemma compute_branch_targets_decompose sections bt :
  _compute_branch_targets sections = Ok bt →
  ∃ pbody,
    code_bodies_offset sections = Ok pbody
    ∧ branch_targets_loop pbody (module_bodies sections) ∅ = Ok bt.
Proof.
  unfold _compute_branch_targets, code_bodies_offset, module_bodies, section_payload.
  destruct (_get_section sections SEC_CODE) as [code_section|]; simpl; [|done].
  destruct (_get_section_offset sections SEC_CODE) as [pcode|]; simpl; [|done].
  destruct (offset_of_data_payload (data code_section)) as [off|]; simpl; [|done].
  destruct (data_payload (data code_section)) as [payload|]; simpl; [|done].
  destruct (payload_bodies payload) as [[[len_count count] bodies]|]; simpl; [|done].
  eauto.
Qed.

(** X10. When [_compute_branch_targets] returns, every body of the code
    section has been resolved at the address of its code, every address
    that has an entry in the map of one body has an entry in the result,
    and every entry of the result is the entry that the map of one of the
    bodies has at that address: the result is the union of the maps of the
    bodies. *)
Theorem compute_branch_targets_union (sections : list ModuleFragment)
    (bt : gmap Z (dict target_key BlockV)) :
  _compute_branch_targets sections = Ok bt →
  let bodies := module_bodies sections in
  ∃ pbody,
    code_bodies_offset sections = Ok pbody
    ∧ (∀ (i : nat) body,
         bodies !! i = Some body →
         ∃ m, _compute_function_branch_targets (code_address pbody bodies i body)
                (code body) = Ok m
              ∧ ∀ a, is_Some (m !! a) → is_Some (bt !! a))
    ∧ (∀ a d, bt !! a = Some d →
         ∃ (i : nat) body m,
           bodies !! i = Some body
           ∧ _compute_function_branch_targets (code_address pbody bodies i body)
               (code body) = Ok m
           ∧ m !! a = Some d).
Proof.
  intros H bodies. destruct (compute_branch_targets_decompose _ _ H) as (pbody & Hp & Hloop).
  exists pbody. split; [done|].
  destruct (branch_targets_loop_keys _ _ _ _ Hloop) as (Hall & _ & Hfrom).
  split; [exact Hall|]. intros a d Ha.
  destruct (Hfrom a d Ha) as [He|?]; [|done]. by rewrite lookup_empty in He.
Qed.

Lemma compute_branch_targets_union_witness :
  ∃ bt pbody,
    _compute_branch_targets module_two_bodies = Ok bt
    ∧ code_bodies_offset module_two_bodies = Ok pbody
    ∧ ∀ a d, bt !! a = Some d →
        ∃ (i : nat) body m,
          module_bodies module_two_bodies !! i = Some body
          ∧ _compute_function_branch_targets
              (code_address pbody (module_bodies module_two_bodies) i body) (code body)
            = Ok m
          ∧ m !! a = Some d.
Proof.
  eexists _, _. split; [reflexivity|]. split; [reflexivity|].
  destruct (compute_branch_targets_union module_two_bodies _ eq_refl)
    as (pbody & Hp & _ & Hfrom).
  injection Hp as <-. exact Hfrom.
Defined.

Lemma function_targets_at_control offset code bt a :
  _compute_function_branch_targets offset code = Ok bt →
  is_Some (bt !! a) →
  ∃ (k : nat) bc, code !! k = Some bc ∧ a = offset + code_length (take k code)
                  ∧ is_control bc.
Proof.
  unfold _compute_function_branch_targets. rewrite run_steps.
  destruct (steps offset (initial_state offset) code) as [[c st]|] eqn:H; simpl; [|done].
  intros [= <-]. unfold returned_targets. rewrite lookup_fmap, fmap_is_Some.
  intros Ha. destruct (steps_entries _ _ _ _ _ a H Ha) as [Hinit|Hk]; [|exact Hk].
  simpl in Hinit. rewrite lookup_empty in Hinit. by destruct Hinit.
Qed.

(** X11. [_parse_functions] and [_compute_branch_targets] agree on where
    the code lies: in a module whose code section declares as many bodies
    as it holds, every address that has branch targets is the address of a
    control instruction of a function of the table, namely the recorded
    offset of that function plus the lengths of the instructions before
    the control instruction. *)
Theorem branch_targets_inside_functions (sections : list ModuleFragment)
    (functions : dict N Function) (bt : gmap Z (dict target_key BlockV))
    (a : Z) (d : dict target_key BlockV) :
  _parse_functions sections = Ok functions →
  _compute_branch_targets sections = Ok bt →
  module_body_count sections = N.of_nat (length (module_bodies sections)) →
  bt !! a = Some d →
  ∃ (i : nat) body name ftype exported o (k : nat) bc,
    module_bodies sections !! i = Some body
    ∧ dict_get functions (N.of_nat (length (module_function_imports sections) + i))
      = Some (DefinedFunction
                (N.of_nat (length (module_function_imports sections) + i)) name o
                ftype exported false (body_local_types body) (size_of_body_code body))
    ∧ code body !! k = Some bc ∧ is_control bc
    ∧ a = o + code_length (take k (code body)).
Proof.
  intros Hf Hb Hcount Ha.
  destruct (parse_functions_layout_abs _ _ Hf) as (pbody & Hp & Hall).
  destruct (compute_branch_targets_decompose _ _ Hb) as (pbody' & Hp' & Hloop).
  assert (pbody' = pbody) as -> by congruence.
  destruct (branch_targets_loop_keys _ _ _ _ Hloop) as (_ & _ & Hfrom).
  destruct (Hfrom a d Ha) as [He|(i & body & m & Hi & Hm & Hd)];
    [by rewrite lookup_empty in He|].
  destruct (Hall i) as (body' & name & ftype & exported & Hi' & Hget).
  { rewrite Hcount. apply lookup_lt_Some in Hi. lia. }
  assert (body' = body) as -> by congruence.
  destruct (function_targets_at_control _ _ _ a Hm) as (k & bc & Hk & -> & Hc);
    [by rewrite Hd|].
  by exists i, body, name, ftype, exported,
    (code_address pbody (module_bodies sections) i body), k, bc.
Qed.

Lemma branch_targets_inside_functions_witness :
  ∃ functions bt,
    _parse_functions module_two_bodies = Ok functions
    ∧ _compute_branch_targets module_two_bodies = Ok bt
    ∧ module_body_count module_two_bodies
      = N.of_nat (length (module_bodies module_two_bodies))
    ∧ ∀ a d, bt !! a = Some d →
        ∃ (i : nat) body name ftype exported o (k : nat) bc,
          module_bodies module_two_bodies !! i = Some body
          ∧ dict_get functions (N.of_nat (0 + i))
            = Some (DefinedFunction (N.of_nat (0 + i)) name o ftype exported false
                      (body_local_types body) (size_of_body_code body))
          ∧ code body !! k = Some bc ∧ is_control bc
          ∧ a = o + code_length (take k (code body)).
Proof.
  eexists _, _. split; [reflexivity|]. split; [reflexivity|]. split; [reflexivity|].
  intros a d.
  exact (branch_targets_inside_functions module_two_bodies _ _ a d
           eq_refl eq_refl eq_refl).
Defined.

(** ** The emulator *)

Lemma same_tables_refl s : same_tables s s.
Proof. by repeat split. Qed.

Lemma same_tables_trans s1 s2 s3 :
  same_tables s1 s2 → same_tables s2 s3 → same_tables s1 s3.
Proof.
  unfold same_tables. intros (?&?&?&?&?&?&?&?) (?&?&?&?&?&?&?&?).
  repeat split; congruence.
Qed.

Lemma emulation_step_refl a w : emulation_step a w w.
Proof.
  split; [apply same_tables_refl|]. split; [|split; [|done]].
  - exists []. by rewrite app_nil_r.
  - exists []. by rewrite app_nil_r.
Qed.

Lemma emulation_step_trans a w1 w2 w3 :
  emulation_step a w1 w2 → emulation_step a w2 w3 → emulation_step a w1 w3.
Proof.
  intros (Ht & (cs & Hcs & Hc) & (ds & Hds & Hd) & Hk)
         (Ht' & (cs' & Hcs' & Hc') & (ds' & Hds' & Hd') & Hk').
  split; [by eapply same_tables_trans|]. split; [|split].
  - exists (cs ++ cs'). split; [by rewrite Hcs', Hcs, app_assoc|].
    intros H. apply Forall_app. auto.
  - exists (ds ++ ds'). split; [by rewrite Hds', Hds, app_assoc|].
    by apply Forall_app.
  - auto.
Qed.

Lemma steps_at_ret a {A} (x : A) : steps_at a (mret x).
Proof. intros w. apply emulation_step_refl. Qed.

Lemma steps_at_get a : steps_at a get.
Proof. intros w. apply emulation_step_refl. Qed.

Lemma steps_at_lift a {A} (r : Result A) : steps_at a (lift r).
Proof. intros w. apply emulation_step_refl. Qed.

Lemma steps_at_raise a {A} e : steps_at a (raise (A := A) e).
Proof. intros w. apply emulation_step_refl. Qed.

Lemma emulation_step_bind a {A B} (m : SE world A) (k : A → SE world B) w :
  emulation_step a w (m w).1 → (∀ x, steps_at a (k x)) →
  emulation_step a w ((m ≫= k) w).1.
Proof.
  intros Hm Hk. unfold mbind, SE_bind.
  destruct (m w) as [w1 [x|e]]; simpl in *; [|done].
  eapply emulation_step_trans; [exact Hm|apply Hk].
Qed.

Lemma steps_at_bind a {A B} (m : SE world A) (k : A → SE world B) :
  steps_at a m → (∀ x, steps_at a (k x)) → steps_at a (m ≫= k).
Proof. intros Hm Hk w. by apply emulation_step_bind. Qed.

Lemma steps_at_fmap a {A B} (f : A → B) (m : SE world A) :
  steps_at a m → steps_at a (f <$> m).
Proof.
  intros Hm w. specialize (Hm w). unfold fmap, SE_fmap.
  by destruct (m w) as [w1 [x|e]].
Qed.

Lemma steps_at_for_each a {A} (xs : list A) (body : A → SE world unit) :
  (∀ x, steps_at a (body x)) → steps_at a (for_each xs body).
Proof.
  intros Hb. induction xs as [|x xs IH]; simpl.
  - apply steps_at_ret.
  - apply steps_at_bind; [apply Hb|intros _; apply IH].
Qed.

Lemma steps_at_add_cref a to t : steps_at a (add_cref a to t).
Proof.
  intros w. destruct to as [to|]; simpl; [|apply emulation_step_refl].
  split; [apply same_tables_refl|]. split; [|split; [|done]].
  - exists [(a, to, t)]. split; [done|]. intros _. by repeat constructor.
  - exists []. by rewrite app_nil_r.
Qed.

Lemma steps_at_add_dref a to t : steps_at a (add_dref a to t).
Proof.
  intros w. simpl.
  split; [apply same_tables_refl|]. split; [|split; [|done]].
  - exists []. by rewrite app_nil_r.
  - exists [(a, to, t)]. split; [done|]. by repeat constructor.
Qed.

Lemma steps_at_defer_noflow a next_ea : steps_at a (defer_noflow next_ea).
Proof.
  intros w. simpl.
  split; [by repeat split|]. split; [|split; [|done]].
  - exists []. by rewrite app_nil_r.
  - exists []. by rewrite app_nil_r.
Qed.

Lemma steps_at_defer_branch_flow a insn next : steps_at a (defer_branch_flow insn next).
Proof.
  unfold defer_branch_flow. apply steps_at_bind; [apply steps_at_get|]. intros w0.
  destruct (self_branch_targets (self w0) !! ea insn) as [targets|];
    [|apply steps_at_ret].
  apply steps_at_bind; [apply steps_at_lift|]. intros target_block w. simpl.
  split; [by repeat split|]. split; [|split].
  - exists []. by rewrite app_nil_r.
  - exists []. by rewrite app_nil_r.
  - intros Hk b l. simpl. rewrite lookup_insert.
    destruct (decide (ea next = b)) as [<-|]; [|apply Hk].
    intros [= <-]. by repeat constructor.
Qed.

Lemma steps_at_branch_flow insn : steps_at (ea insn) (branch_flow insn).
Proof.
  unfold branch_flow. apply steps_at_bind; [apply steps_at_get|]. intros w0.
  destruct (self_branch_targets (self w0) !! ea insn) as [targets|];
    [|apply steps_at_ret].
  apply steps_at_bind; [apply steps_at_lift|]. intros target_block.
  apply steps_at_add_cref.
Qed.

Lemma queued_flows_step insn w :
  emulation_step (ea insn) w
    (for_each (default [] (self_deferred_flows (self w) !! ea insn))
       (fun '(frm, to, t) => add_cref frm to t) w).1.
Proof.
  assert (∀ (l : list flow) w0,
            ∃ cs, (for_each l (fun '(frm, to, t) => add_cref frm to t) w0).1
                  = mkWorld (self w0) (crefs w0 ++ cs) (drefs w0)
                  ∧ (Forall (fun f : flow => f.1.1 = ea insn) l →
                     Forall (fun c => c.1.1 = ea insn) cs)) as Hl.
  { induction l as [|[[frm to] t] l IH]; intros w0; simpl.
    - exists []. by rewrite app_nil_r, world_eta.
    - unfold mbind, SE_bind. destruct to as [to|]; simpl.
      + destruct (IH (mkWorld (self w0) (crefs w0 ++ [(frm, to, t)]) (drefs w0)))
          as (cs & Hcs & Hall).
        exists ((frm, to, t) :: cs). simpl in Hcs. rewrite Hcs, <- app_assoc.
        split; [done|]. intros Hf. inversion Hf; subst. constructor; auto.
      + exists []. by rewrite app_nil_r, world_eta. }
  destruct (Hl (default [] (self_deferred_flows (self w) !! ea insn)) w)
    as (cs & -> & Hall).
  split; [apply same_tables_refl|]. split; [|split; [|done]].
  - exists cs. split; [done|]. intros Hk. apply Hall.
    destruct (self_deferred_flows (self w) !! ea insn) as [l|] eqn:Hq; simpl; [|done].
    by apply (Hk _ _ Hq).
  - exists []. by rewrite app_nil_r.
Qed.

Lemma steps_at_notify_emu_END insn : steps_at (ea insn) (notify_emu_END insn).
Proof.
  intros w. unfold notify_emu_END.
  change ((get ≫= ?k) w) with (k w w).
  apply emulation_step_bind; [apply queued_flows_step|]. intros _.
  apply steps_at_bind; [|intros _; apply steps_at_ret].
  destruct (self_branch_targets (self w) !! ea insn) as [targets|];
    [|apply steps_at_ret].
  apply steps_at_bind; [apply steps_at_lift|]. intros block.
  destruct (block_type_name block); try apply steps_at_add_cref; try apply steps_at_ret.
  all: apply steps_at_bind; [apply steps_at_get|]; intros w';
    destruct (self_deferred_noflows (self w') !! ea insn);
    [apply steps_at_ret|apply steps_at_add_cref].
Qed.

Lemma steps_at_targets_loop insn (w0 : world) (body : BlockV → SE world unit) :
  (∀ b, steps_at (ea insn) (body b)) →
  steps_at (ea insn)
    (match self_branch_targets (self w0) !! ea insn with
     | Some targets => for_each (dict_values targets) body
     | None => mret tt
     end).
Proof.
  intros Hb. destruct (self_branch_targets (self w0) !! ea insn) as [targets|];
    [by apply steps_at_for_each|apply steps_at_ret].
Qed.

Ltac steps_at_tac :=
  repeat lazymatch goal with
  | |- steps_at _ (mbind _ _) => apply steps_at_bind; [|intros ?]
  | |- steps_at _ (fmap _ _) => apply steps_at_fmap
  | |- steps_at _ (mret _) => apply steps_at_ret
  | |- steps_at _ (raise _) => apply steps_at_raise
  | |- steps_at _ get => apply steps_at_get
  | |- steps_at _ (lift _) => apply steps_at_lift
  | |- steps_at _ (add_cref _ _ _) => apply steps_at_add_cref
  | |- steps_at _ (add_dref _ _ _) => apply steps_at_add_dref
  | |- steps_at _ (defer_noflow _) => apply steps_at_defer_noflow
  | |- steps_at _ (defer_branch_flow _ _) => apply steps_at_defer_branch_flow
  | |- steps_at _ (branch_flow _) => apply steps_at_branch_flow
  | |- steps_at _ (notify_emu_END _) => apply steps_at_notify_emu_END
  | |- steps_at _ (for_each _ _) => apply steps_at_for_each; intros ?
  | |- steps_at _ (if ?c then _ else _) => destruct c
  | |- steps_at _ (match ?x with _ => _ end) => destruct x
  end.

Lemma steps_at_emu_flows decode_insn insn :
  steps_at (ea insn) (emu_flows decode_insn insn).
Proof.
  unfold emu_flows,
    notify_emu_BR_END, notify_emu_BR_IF_END, notify_emu_BR_TABLE_END,
    notify_emu_RETURN_END, notify_emu_UNREACHABLE_END, notify_emu_BR,
    notify_emu_BR_IF, notify_emu_IF, notify_emu_ELSE.
  cbv zeta. steps_at_tac.
Qed.

Lemma steps_at_global_drefs insn : steps_at (ea insn) (global_drefs insn).
Proof. unfold global_drefs. cbv zeta. steps_at_tac. Qed.

Lemma steps_at_data_drefs insn : steps_at (ea insn) (data_drefs insn).
Proof.
  unfold data_drefs. apply steps_at_for_each. intros op.
  destruct (bool_decide _); [|apply steps_at_ret].
  apply steps_at_bind; [apply steps_at_get|]. intros w.
  apply steps_at_for_each. intros d.
  destruct (bool_decide _); [apply steps_at_add_dref|apply steps_at_ret].
Qed.

Lemma steps_at_emu_insn decode_insn insn :
  steps_at (ea insn) (emu_insn decode_insn insn).
Proof.
  unfold emu_insn.
  apply steps_at_bind; [apply steps_at_global_drefs|]. intros _.
  apply steps_at_bind; [apply steps_at_data_drefs|]. intros _.
  apply steps_at_emu_flows.
Qed.

Lemma no_exceptions_state {S A} (f : A → SE S value) args s :
  (no_exceptions f args s).1 = (f args s).1.
Proof. unfold no_exceptions. by destruct (f args s) as [s' [v|e]]. Qed.

(** X12. Emulating an instruction never touches what [load] set up: the
    sections, types, globals, functions, function offsets and ranges, data
    and branch targets of the processor are the same afterwards, whether
    the handler returned or raised.  The cross-references already in the
    database stay, in their order; the new ones come after them, and each
    new data cross-reference leaves the address of the instruction. *)
Theorem emulation_keeps_tables (decode_insn : Z → option insn_t) (insn : insn_t)
    (w : world) :
  let w' := (ev_emu_insn decode_insn insn w).1 in
  same_tables (self w) (self w')
  ∧ crefs w `prefix_of` crefs w'
  ∧ ∃ ds, drefs w' = drefs w ++ ds ∧ Forall (fun d => d.1.1 = ea insn) ds.
Proof.
  unfold ev_emu_insn, ida_entry_point. rewrite no_exceptions_state.
  destruct (steps_at_emu_insn decode_insn insn w) as (Ht & (cs & Hcs & _) & Hds & _).
  split; [done|]. split; [|done]. by exists cs.
Qed.

Lemma no_exceptions_returns {S A} (f : A → SE S value) args s :
  ∃ v, (no_exceptions f args s).2 = Ok v.
Proof. unfold no_exceptions. destruct (f args s) as [s' [v|e]]; simpl; eauto. Qed.

Lemma emulate_cons decode_insn insn insns w :
  emulate decode_insn (insn :: insns) w
  = emulate decode_insn insns (ev_emu_insn decode_insn insn w).1.
Proof.
  unfold emulate, ev_emu_insn, ida_entry_point. simpl.
  destruct (no_exceptions_returns (emu_insn decode_insn) insn w) as [v Hv].
  unfold mbind, SE_bind.
  destruct (no_exceptions (emu_insn decode_insn) insn w) as [w1 r]. simpl in *.
  by subst r.
Qed.




Lemma emulate_pair decode_insn insn next w :
  emulate decode_insn [insn; next] w
  = ((emu_insn decode_insn next (emu_insn decode_insn insn w).1).1, Ok tt).
Proof.
  rewrite !emulate_cons. unfold ev_emu_insn, ida_entry_point.
  by rewrite !no_exceptions_state.
Qed.

(** [notify_emu_END] on an [end] that a branch or a return has marked and
    that does not close a loop: the queued flows, and nothing else. *)
Lemma notify_emu_END_marked insn w (queued : list (Z * Z * cref_type)) :
  default [] (self_deferred_flows (self w) !! ea insn)
  = (fun c => (c.1.1, Some c.1.2, c.2)) <$> queued →
  is_Some (self_deferred_noflows (self w) !! ea insn) →
  (∀ targets block,
     self_branch_targets (self w) !! ea insn = Some targets →
     dict_item targets key_block = Ok block → block_type_name block ≠ name_loop) →
  (notify_emu_END insn w).1 = mkWorld (self w) (crefs w ++ queued) (drefs w).
Proof.
  intros Hq [m Hm] Hty. unfold notify_emu_END.
  change ((get ≫= ?k) w) with (k w w). cbv beta. rewrite Hq.
  assert (∀ l w0,
            for_each ((fun c : Z * Z * cref_type => (c.1.1, Some c.1.2, c.2)) <$> l)
              (fun '(frm, to, t) => add_cref frm to t) w0
            = (mkWorld (self w0) (crefs w0 ++ l) (drefs w0), Ok tt)) as Hl.
  { induction l as [|[[frm to] t] l IH]; intros w0; simpl.
    - by rewrite app_nil_r, world_eta.
    - unfold mbind, SE_bind. simpl. rewrite IH. simpl. by rewrite <- app_assoc. }
  unfold mbind at 1, SE_bind. rewrite Hl.
  destruct (self_branch_targets (self w) !! ea insn) as [targets|] eqn:Hbt; [|done].
  unfold mbind, SE_bind, lift, get. simpl.
  destruct (dict_item targets key_block) as [block|] eqn:Hb; simpl; [|done].
  specialize (Hty _ _ eq_refl Hb).
  destruct (block_type_name block); simpl; try done; by rewrite Hm.
Qed.

(** X14. A [br] that is followed by an [end] hands its jump over to the
    [end]: emulating the two in order adds the fallthrough of the [br] into
    the [end] and, leaving the [end], the jump to the [end_offset] of the
    block that the [br] targets.  When the [end] does not close a loop it
    gets no other edge: the [br] has marked it, so it does not fall
    through. *)
Theorem br_end_jump_leaves_end (decode_insn : Z → option insn_t) (insn next : insn_t)
    (w : world) (targets : dict target_key BlockV) (target_block : BlockV) (to : Z) :
  itype insn = itype_BR → itype next = itype_END →
  decode_insn (ea insn + size insn) = Some next →
  no_global_operand insn → no_global_operand next →
  Z.land (feature next) INSN_NO_FLOW = 0 →
  self_branch_targets (self w) !! ea insn = Some targets →
  targets_item targets (op_value (Op1 insn)) = Ok target_block →
  block_end_offset target_block = Some to →
  (∀ end_targets block,
     self_branch_targets (self w) !! ea next = Some end_targets →
     dict_item end_targets key_block = Ok block → block_type_name block ≠ name_loop) →
  ∃ w', emulate decode_insn [insn; next] w = (w', Ok tt)
        ∧ crefs w' = crefs w ++ [(ea insn, ea insn + size insn, fl_F);
                                 (ea next, to, fl_JF)]
        ∧ self_deferred_noflows (self w') !! ea next = Some true.
Proof.
  intros Hi Hn Hd Hg Hg' Hf Hbt Hitem Hto Hend.
  destruct (emu_insn_flows decode_insn insn w Hg) as [ds E1].
  rewrite (emu_flows_BR_END _ _ _ Hi Hd Hn) in E1. unfold fmap, SE_fmap in E1.
  erewrite notify_emu_BR_END_effect in E1; [|exact Hbt|exact Hitem].
  rewrite emulate_pair, E1. cbn [fst]. rewrite Hto.
  set (w1 := mkWorld _ _ _).
  destruct (emu_insn_flows decode_insn next w1 Hg') as [ds' E2].
  rewrite E2, (emu_flows_END _ _ Hn Hf). unfold fmap, SE_fmap.
  set (w2 := mkWorld (self w1) (crefs w1) ds').
  assert (default [] (self_deferred_flows (self w2) !! ea next)
          = (fun c : Z * Z * cref_type => (c.1.1, Some c.1.2, c.2))
              <$> [(ea next, to, fl_JF)]) as H1.
  { simpl. by rewrite lookup_insert_eq. }
  assert (is_Some (self_deferred_noflows (self w2) !! ea next)) as H2.
  { simpl. rewrite lookup_insert_eq. eauto. }
  pose proof (notify_emu_END_marked next w2 _ H1 H2 Hend) as Hmark.
  destruct (notify_emu_END next w2) as [w3 r]. simpl in Hmark. subst w3.
  eexists. split; [reflexivity|].
  destruct r; simpl.
  all: split; [by rewrite <- app_assoc|apply lookup_insert_eq].
Qed.

Lemma br_end_jump_leaves_end_witness :
  let body := [Block_; Br 0; End_; End_] in
  let insn := nth_insn 100 body 1 in
  let next := nth_insn 100 body 2 in
  ∃ w', emulate (decode_in (insns_of 100 body)) [insn; next] (loaded (targets_of 100 body))
        = (w', Ok tt)
        ∧ crefs w' = [] ++ [(102, 102 + 2, fl_F); (104, 105, fl_JF)]
        ∧ self_deferred_noflows (self w') !! 104 = Some true.
Proof.
  intros body insn next.
  assert (no_global_operand insn) as Hg by (repeat constructor; done).
  assert (no_global_operand next) as Hg' by (repeat constructor; done).
  refine (br_end_jump_leaves_end (decode_in (insns_of 100 body)) insn next
            (loaded (targets_of 100 body)) _ _ 105
            eq_refl eq_refl eq_refl Hg Hg' eq_refl eq_refl eq_refl eq_refl _).
  intros end_targets block Ht Hb. vm_compute in Ht. injection Ht as <-.
  vm_compute in Hb. injection Hb as <-. discriminate.
Defined.

Lemma emu_flows_RETURN_END decode_insn insn next :
  itype insn = itype_RETURN → decode_insn (ea insn + size insn) = Some next →
  itype next = itype_END →
  emu_flows decode_insn insn = VInt <$> notify_emu_RETURN_END insn next.
Proof. intros Hi Hn Hn'. unfold emu_flows. rewrite Hi, Hn. simpl. by rewrite Hn'. Qed.

(** X15. A [return] that is followed by an [end] flows into the [end] and
    stops there: emulating the two in order adds the fallthrough of the
    [return] into the [end] and, when no flow is queued on the [end] and the
    [end] does not close a loop, nothing else; the [end] is marked in
    [deferred_noflows] and gets no outgoing edge. *)
Theorem return_end_stops_flow (decode_insn : Z → option insn_t) (insn next : insn_t)
    (w : world) :
  itype insn = itype_RETURN → itype next = itype_END →
  decode_insn (ea insn + size insn) = Some next →
  no_global_operand insn → no_global_operand next →
  Z.land (feature next) INSN_NO_FLOW = 0 →
  self_deferred_flows (self w) !! ea next = None →
  (∀ end_targets block,
     self_branch_targets (self w) !! ea next = Some end_targets →
     dict_item end_targets key_block = Ok block → block_type_name block ≠ name_loop) →
  ∃ w', emulate decode_insn [insn; next] w = (w', Ok tt)
        ∧ crefs w' = crefs w ++ [(ea insn, ea insn + size insn, fl_F)]
        ∧ self_deferred_noflows (self w') !! ea next = Some true.
Proof.
  intros Hi Hn Hd Hg Hg' Hf Hq Hend.
  destruct (emu_insn_flows decode_insn insn w Hg) as [ds E1].
  rewrite (emu_flows_RETURN_END _ _ _ Hi Hd Hn) in E1.
  unfold fmap, SE_fmap, notify_emu_RETURN_END, defer_noflow, add_cref in E1.
  unfold mbind, SE_bind, modify, mret, SE_ret, on_self in E1. simpl in E1.
  rewrite emulate_pair, E1. cbn [fst].
  set (w1 := mkWorld _ _ _).
  destruct (emu_insn_flows decode_insn next w1 Hg') as [ds' E2].
  rewrite E2, (emu_flows_END _ _ Hn Hf). unfold fmap, SE_fmap.
  set (w2 := mkWorld (self w1) (crefs w1) ds').
  assert (default [] (self_deferred_flows (self w2) !! ea next)
          = (fun c : Z * Z * cref_type => (c.1.1, Some c.1.2, c.2)) <$> []) as H1.
  { simpl. by rewrite Hq. }
  assert (is_Some (self_deferred_noflows (self w2) !! ea next)) as H2.
  { simpl. rewrite lookup_insert_eq. eauto. }
  pose proof (notify_emu_END_marked next w2 _ H1 H2 Hend) as Hmark.
  destruct (notify_emu_END next w2) as [w3 r]. simpl in Hmark. subst w3.
  eexists. split; [reflexivity|].
  destruct r; simpl.
  all: split; [by rewrite app_nil_r|apply lookup_insert_eq].
Qed.

Lemma return_end_stops_flow_witness :
  let body := [Block_; Return_; End_; End_] in
  let insn := nth_insn 100 body 1 in
  let next := nth_insn 100 body 2 in
  ∃ w', emulate (decode_in (insns_of 100 body)) [insn; next] (loaded (targets_of 100 body))
        = (w', Ok tt)
        ∧ crefs w' = [] ++ [(102, 102 + 1, fl_F)]
        ∧ self_deferred_noflows (self w') !! 103 = Some true.
Proof.
  intros body insn next.
  assert (no_global_operand insn) as Hg by (repeat constructor; done).
  assert (no_global_operand next) as Hg' by (repeat constructor; done).
  refine (return_end_stops_flow (decode_in (insns_of 100 body)) insn next
            (loaded (targets_of 100 body))
            eq_refl eq_refl eq_refl Hg Hg' eq_refl eq_refl _).
  intros end_targets block Ht Hb. vm_compute in Ht. injection Ht as <-.
  vm_compute in Hb. injection Hb as <-. discriminate.
Defined.

(** ** Loading *)

Lemma try_assign_cases {A} (r : Result A) (f : A → wasm_processor_t → wasm_processor_t) :
  (∃ v, r = Ok v ∧ try_assign r f = modify (f v))
  ∨ (∃ id, r = Raise (SectionNotFoundError id) ∧ try_assign r f = mret tt)
  ∨ (∃ e, try_assign r f = raise e).
Proof.
  destruct r as [v|e]; [left; eauto|]. right.
  destruct e; simpl; eauto.
Qed.

(** What [load] leaves when it returns. *)
Lemma load_returns names decoded s s' :
  load names decoded s = (s', Ok tt) →
  ∃ bt,
    _compute_branch_targets decoded = Ok bt
    ∧ s' = mkProcessor decoded
             (assigned (_parse_types decoded) (self_types s))
             (assigned (_parse_globals names decoded) (self_globals s))
             (assigned (_parse_functions decoded) (self_functions s))
             (function_offsets_of
                (dict_values (assigned (_parse_functions decoded) (self_functions s))) [])
             (function_ranges_of
                (dict_values (assigned (_parse_functions decoded) (self_functions s))) [])
             (assigned (_parse_data decoded) (self_data s))
             bt ∅ ∅.
Proof.
  unfold load.
  destruct (try_assign_cases (_parse_types decoded) set_types)
    as [(v1 & E1 & T1)|[(i1 & E1 & T1)|(e1 & T1)]];
  destruct (try_assign_cases (_parse_globals names decoded) set_globals)
    as [(v2 & E2 & T2)|[(i2 & E2 & T2)|(e2 & T2)]];
  destruct (try_assign_cases (_parse_functions decoded) set_functions)
    as [(v3 & E3 & T3)|[(i3 & E3 & T3)|(e3 & T3)]];
  destruct (try_assign_cases (_parse_data decoded) set_data)
    as [(v4 & E4 & T4)|[(i4 & E4 & T4)|(e4 & T4)]];
  rewrite T1, T2, T3, T4;
  try (intros H; discriminate H);
  (destruct (_compute_branch_targets decoded) as [bt|e] eqn:Hbt;
   [|intros H; discriminate H]);
  intros H; injection H as <-; exists bt; rewrite ?E1, ?E2, ?E3, ?E4;
  (split; [done|]); destruct s; done.
Qed.



Lemma parse_functions_raises sections e :
  _get_section sections SEC_FUNCTION = Raise e →
  ∃ e', _parse_functions sections = Raise e'.
Proof.
  intros He. unfold _parse_functions.
  destruct (except_SectionNotFoundError (_parse_imported_functions sections) [])
    as [imported|]; simpl; [|eauto].
  destruct (except_SectionNotFoundError (_parse_exported_functions sections) ∅)
    as [exported|]; simpl; [|eauto].
  rewrite He. simpl. eauto.
Qed.

Lemma parse_globals_raises names sections e :
  _get_section sections SEC_IMPORT = Raise e ∨ _get_section sections SEC_GLOBAL = Raise e →
  ∃ e', _parse_globals names sections = Raise e'.
Proof.
  unfold _parse_globals. intros [He|He].
  - unfold _parse_imported_globals. rewrite He. simpl. eauto.
  - destruct (_parse_imported_globals names sections) as [imported|]; simpl; [|eauto].
    rewrite He. simpl. eauto.
Qed.

(** X17. [load] replaces a table only when the module has the sections the
    table is parsed from.  When [load] returns on a module that lacks the
    type section, the import or the global section, the function section,
    or the data section, the types, the globals, the functions, or the data
    of the processor are those it had before the load, and the function
    offsets are computed from the old functions.  The code section cannot
    be missing: without it [load] does not return. *)
Theorem load_keeps_table_of_missing_section (names : gmap Z string)
    (decoded : list ModuleFragment) (s s' : wasm_processor_t) :
  load names decoded s = (s', Ok tt) →
  (section_missing decoded SEC_TYPE → self_types s' = self_types s)
  ∧ (section_missing decoded SEC_IMPORT ∨ section_missing decoded SEC_GLOBAL →
       self_globals s' = self_globals s)
  ∧ (section_missing decoded SEC_FUNCTION →
       self_functions s' = self_functions s
       ∧ self_function_offsets s'
         = function_offsets_of (dict_values (self_functions s)) [])
  ∧ (section_missing decoded SEC_DATA → self_data s' = self_data s)
  ∧ ¬ section_missing decoded SEC_CODE.
Proof.
  intros H. destruct (load_returns _ _ _ _ H) as (bt & Hbt & ->). simpl.
  unfold section_missing. split; [|split; [|split; [|split]]].
  - intros He. unfold _parse_types. by rewrite He.
  - intros [He|He].
    + by destruct (parse_globals_raises names decoded _ (or_introl He)) as [e' ->].
    + by destruct (parse_globals_raises names decoded _ (or_intror He)) as [e' ->].
  - intros He. by destruct (parse_functions_raises _ _ He) as [e' ->].
  - intros He. unfold _parse_data. by rewrite He.
  - intros He. unfold _compute_branch_targets in Hbt. by rewrite He in Hbt.
Qed.

Lemma load_keeps_table_of_missing_section_witness :
  ∃ s s',
    load type_names_sample module_scenario_D init_processor = (s, Ok tt)
    ∧ load type_names_sample module_no_import s = (s', Ok tt)
    ∧ section_missing module_no_import SEC_IMPORT
    ∧ self_globals s' = self_globals s.
Proof.
  eexists _, _. split; [reflexivity|]. split; [reflexivity|]. split; [reflexivity|].
  refine (proj1 (proj2 (load_keeps_table_of_missing_section type_names_sample
                          module_no_import _ _ eq_refl)) _).
  left. reflexivity.
Defined.

(** ** Instruction decoder *)




(** ** Function lookup *)

Lemma dict_set_elem {K V} `{EqDecision K} (d : dict K V) (k k' : K) (v v' : V) :
  (k', v') ∈ dict_set d k v → (k', v') ∈ d ∨ (k' = k ∧ v' = v).
Proof.
  induction d as [|[k0 v0] d IH]; simpl.
  - intros [= -> ->]%list_elem_of_singleton. by right.
  - destruct (decide (k0 = k)) as [->|Hne].
    + intros [[= -> ->]|Hin]%elem_of_cons; [by right|]. left. by apply list_elem_of_further.
    + intros [->|Hin]%elem_of_cons; [left; apply list_elem_of_here|].
      destruct (IH Hin) as [?|?]; [left; by apply list_elem_of_further|by right].
Qed.

Lemma function_ranges_of_elem fs :
  ∀ acc k f,
  (k, f) ∈ function_ranges_of fs acc →
  (k, f) ∈ acc
  ∨ (f ∈ fs ∧ ∃ o sz, fn_offset f = Some o ∧ fn_size f = Some sz ∧ k = (o, o + sz)).
Proof.
  induction fs as [|f0 fs IH]; intros acc k f; simpl; [by left|].
  destruct (fn_offset f0) as [o|] eqn:Ho, (fn_size f0) as [sz|] eqn:Hsz.
  2-4: intros [?|(? & ?)]%IH; [by left|right; split; [by apply list_elem_of_further|done]].
  intros [Hin|(Hin & Hk)]%IH.
  - apply dict_set_elem in Hin as [?|[-> ->]]; [by left|].
    right. split; [apply list_elem_of_here|eauto].
  - right. split; [by apply list_elem_of_further|done].
Qed.

Lemma function_ranges_of_keys fs :
  ∀ acc k,
  k ∈ dict_keys (function_ranges_of fs acc)
  ↔ k ∈ dict_keys acc
    ∨ ∃ f o sz, f ∈ fs ∧ fn_offset f = Some o ∧ fn_size f = Some sz ∧ k = (o, o + sz).
Proof.
  induction fs as [|f0 fs IH]; intros acc k; simpl.
  - split; [by left|]. intros [?|(f & ? & ? & []%elem_of_nil & _)]. done.
  - assert ((∃ f o sz, f ∈ f0 :: fs ∧ fn_offset f = Some o ∧ fn_size f = Some sz
                       ∧ k = (o, o + sz))
            ↔ (∃ o sz, fn_offset f0 = Some o ∧ fn_size f0 = Some sz ∧ k = (o, o + sz))
              ∨ ∃ f o sz, f ∈ fs ∧ fn_offset f = Some o ∧ fn_size f = Some sz
                          ∧ k = (o, o + sz)) as ->.
    { split.
      - intros (f & o & sz & [->|Hin]%elem_of_cons & H); [left|right]; eauto 10.
      - intros [(o & sz & H)|(f & o & sz & Hin & H)].
        + exists f0, o, sz. split; [apply list_elem_of_here|done].
        + exists f, o, sz. split; [by apply list_elem_of_further|done]. }
    destruct (fn_offset f0) as [o|] eqn:Ho, (fn_size f0) as [sz|] eqn:Hsz; rewrite IH.
    2-4: split; [intros [?|?]; [by left|by right; right]
                |intros [?|[(? & ? & ? & ? & ?)|?]]; [by left|done|by right]].
    rewrite dict_keys_set_elem. split.
    + intros [[?| ->]|?]; [by left| |by right; right]. right. left. eauto.
    + intros [?|[(o' & sz' & [= <-] & [= <-] & ->)|?]];
        [by left; left|by left; right|by right].
Qed.

Lemma get_function_from_spec ranges a :
  match get_function_from ranges a with
  | Ok f => ∃ start end_, (start, end_, f) ∈ ranges ∧ start ≤ a < end_
  | Raise e =>
      e = KeyError ∧ ∀ start end_, (start, end_) ∈ dict_keys ranges → ¬ (start ≤ a < end_)
  end.
Proof.
  induction ranges as [|[[start end_] f] ranges IH]; simpl.
  - split; [done|]. intros ? ? []%elem_of_nil.
  - destruct (decide (start ≤ a < end_)) as [Hin|Hout].
    + exists start, end_. split; [apply list_elem_of_here|done].
    + destruct (get_function_from ranges a) as [f'|e].
      * destruct IH as (s' & e' & Hin & Ha). exists s', e'.
        split; [by apply list_elem_of_further|done].
      * destruct IH as [-> IH]. split; [done|].
        intros s' e' [[= -> ->]|Hin]%elem_of_cons; [done|by apply IH].
Qed.

(** X19. After a [load] that returns, [_get_function] finds the code that
    an address lies in: when it returns a function, that function is in the
    function table and the address lies between its offset and its offset
    plus its size; it raises [KeyError], and nothing else, exactly when the
    address lies in the code of no function of the table. *)
Theorem get_function_after_load (names : gmap Z string) (decoded : list ModuleFragment)
    (s s' : wasm_processor_t) (a : Z) :
  load names decoded s = (s', Ok tt) →
  match _get_function s' a with
  | Ok f => f ∈ dict_values (self_functions s') ∧ contains f a
  | Raise e =>
      e = KeyError ∧ ∀ f, f ∈ dict_values (self_functions s') → ¬ contains f a
  end.
Proof.
  intros H. destruct (load_returns _ _ _ _ H) as (bt & _ & ->).
  unfold _get_function. simpl.
  set (fs := dict_values (assigned (_parse_functions decoded) (self_functions s))).
  pose proof (get_function_from_spec (function_ranges_of fs []) a) as Hspec.
  destruct (get_function_from (function_ranges_of fs []) a) as [f|e].
  - destruct Hspec as (start & end_ & Hin & Ha).
    apply function_ranges_of_elem in Hin as [[]%elem_of_nil|(Hin & o & sz & Ho & Hsz & [= -> ->])].
    split; [done|]. by exists o, sz.
  - destruct Hspec as [-> Hnone]. split; [done|].
    intros f Hin (o & sz & Ho & Hsz & Ha). apply (Hnone o (o + sz)); [|done].
    apply function_ranges_of_keys. right. eauto 10.
Qed.

Lemma get_function_after_load_witness :
  ∃ s' f,
    load type_names_sample module_two_bodies init_processor = (s', Ok tt)
    ∧ _get_function s' 31 = Ok f
    ∧ fn_name f = "$func1"
    ∧ f ∈ dict_values (self_functions s') ∧ contains f 31.
Proof.
  eexists _, _. split; [reflexivity|]. split; [reflexivity|]. split; [reflexivity|].
  exact (get_function_after_load type_names_sample module_two_bodies init_processor _ 31
           eq_refl).
Defined.

Lemma function_offsets_of_keys fs :
  ∀ acc a,
  a ∈ dict_keys (function_offsets_of fs acc)
  ↔ a ∈ dict_keys acc ∨ Exists (fun f => fn_offset f = Some a) fs.
Proof.
  induction fs as [|f0 fs IH]; intros acc a; simpl.
  - rewrite Exists_nil. tauto.
  - rewrite Exists_cons. destruct (fn_offset f0) as [o|] eqn:Ho; rewrite IH.
    + rewrite dict_keys_set_elem. split.
      * intros [[?| ->]|?]; [by left|right; by left|right; by right].
      * intros [?|[[= ->]|?]]; [left; by left|left; by right|by right].
    + split; [intros [?|?]; [by left|right; by right]|].
      intros [?|[[=]|?]]; [by left|by right].
Qed.

(** X20. After a [load] that returns, [ev_may_be_func] answers 100 at the
    addresses that the function table records as the offset of a function,
    and 0 at every other address; it changes nothing. *)
Theorem may_be_func_after_load (names : gmap Z string) (decoded : list ModuleFragment)
    (s s' : wasm_processor_t) (insn : insn_t) :
  load names decoded s = (s', Ok tt) →
  ev_may_be_func insn s'
  = (s', Ok (VInt (if decide (Exists (fun f => fn_offset f = Some (ea insn))
                                (dict_values (self_functions s')))
                   then 100 else 0))).
Proof.
  intros H. destruct (load_returns _ _ _ _ H) as (bt & _ & ->).
  unfold ev_may_be_func, ida_entry_point, no_exceptions, mbind, SE_bind, get. simpl.
  set (fs := dict_values (assigned (_parse_functions decoded) (self_functions s))).
  pose proof (dict_get_is_Some (function_offsets_of fs []) (ea insn)) as Hsome.
  rewrite function_offsets_of_keys in Hsome.
  destruct (dict_get (function_offsets_of fs []) (ea insn)) as [f|].
  - rewrite decide_True; [done|]. destruct Hsome as [[[]%elem_of_nil|?] _]; eauto.
  - rewrite decide_False; [done|]. intros Hex.
    destruct Hsome as [_ Hsome]. destruct Hsome as [? [=]]. by right.
Qed.

Lemma may_be_func_after_load_witness :
  ∃ s',
    load type_names_sample module_two_bodies init_processor = (s', Ok tt)
    ∧ ev_may_be_func (fresh_insn 30) s' = (s', Ok (VInt 100))
    ∧ ev_may_be_func (fresh_insn 31) s' = (s', Ok (VInt 0)).
Proof.
  eexists. split; [reflexivity|].
  split.
  - exact (may_be_func_after_load type_names_sample module_two_bodies init_processor _
             (fresh_insn 30) eq_refl).
  - reflexivity.
Defined.
